(** * Aios-VISu: the client-side video export pipeline

    A shallow embedding of [src/utils/videoExporter.ts],
    [src/utils/ffmpeg.ts] and of the callers in [src/components].

    Conventions.
    - A JavaScript number that is computed by [duration * fps] is an IEEE
      binary64 value: it is modelled by Rocq's primitive [float], so that
      [Math.floor (duration * fps)] is evaluated exactly as the engine does.
    - Loop counters and frame indices are integer-valued numbers; they are
      modelled in [Z] (exact for all counts below 2^53).
    - Normalised times and style properties are modelled as exact
      rationals [Q]; the ease of the animation library is a parameter.
    - A promise is modelled by the way it settles: a value, or the value
      it is rejected with. A call of a method that an object does not have
      is the [TypeError] that the engine throws.
    - Asynchronous code is modelled either by a deterministic effectful
      function over an explicit world (one admissible schedule), or, where
      the order of completions matters, by a step relation whose steps are
      the atomic turns of the event loop.
    - The 3D compositing path computes with [Math.sin] on binary64 values,
      for which there is no definition here: it is an oracle of the
      browser, like the rasteriser. *)

From Stdlib Require Import ZArith QArith Qround Floats List Ascii String Bool Lia Permutation.
From Stdlib Require Import Lqa.
From stdpp Require Import gmap strings.
Import ListNotations.

Set Warnings "-inexact-float".
Local Open Scope Z_scope.

(* ===================================================================== *)
(** ** Numbers *)
(* ===================================================================== *)

(** A value caught by [catch (error)]: an [Error] instance with its message
    (a [TypeError] is one), any other truthy value, or a falsy value
    ([undefined], [null], [false], [0], [NaN] or the empty string); the
    last two kinds are shown by their text. *)
Inductive Thrown : Type :=
| ErrorObj (message : string)
| NonError (text : string)
| Falsy (text : string).

(** [error instanceof Error] *)
Definition instanceofError (e : Thrown) : bool :=
  match e with
  | ErrorObj _ => true
  | NonError _ | Falsy _ => false
  end.

(** The truth value of a thrown value, as [||] and [if] see it. *)
Definition truthy (e : Thrown) : bool :=
  match e with
  | ErrorObj _ | NonError _ => true
  | Falsy _ => false
  end.

(** The content of an [ArrayBuffer] or [Uint8Array]. *)
Definition bytes : Type := list N.

Module JsNum.

(** The result of [Math.floor]: an integer, an infinity or NaN. *)
Inductive floored : Type :=
| FInt (z : Z)
| FInf (negative : bool)
| FNaN.

(** [Math.floor x] on a binary64 value [x = (-1)^s * m * 2^e]. *)
Definition Math_floor (x : float) : floored :=
  match Prim2SF x with
  | S754_zero _ => FInt 0
  | S754_infinity s => FInf s
  | S754_nan => FNaN
  | S754_finite s m e =>
      let v := if s then Z.neg m else Z.pos m in
      FInt (match e with
            | Z.neg p => v / 2 ^ Z.pos p
            | _ => v * 2 ^ e
            end)
  end.

(** The exact value of a finite binary64 number, as a rational. *)
Definition rational (x : float) : option Q :=
  match Prim2SF x with
  | S754_zero _ => Some 0%Q
  | S754_finite s m e =>
      let v := if s then Z.neg m else Z.pos m in
      Some (match e with
            | Z.neg p => Qmake v (2 ^ p)
            | _ => inject_Z (v * 2 ^ e)
            end)
  | _ => None
  end.

(** The comparison [x < y] of the loop header [i < totalFrames], with the
    left operand an integer. *)
Definition int_lt_floored (i : Z) (t : floored) : bool :=
  match t with
  | FInt n => i <? n
  | FInf negative => negb negative
  | FNaN => false
  end.

End JsNum.

(* ===================================================================== *)
(** ** Frame file names *)
(* ===================================================================== *)

Module FrameNames.

Local Open Scope string_scope.

Definition digitChar (d : Z) : ascii := ascii_of_N (48 + Z.to_N d).

(** [Number.prototype.toString] on a non-negative integer: the decimal
    digits, most significant first, without leading zeros. *)
Fixpoint toStringAux (fuel : nat) (n : Z) (acc : string) : string :=
  let acc' := String (digitChar (n mod 10)) acc in
  match fuel with
  | O => acc'
  | S fuel' => if (n / 10 =? 0)%Z then acc' else toStringAux fuel' (n / 10) acc'
  end.

Definition toString (n : Z) : string :=
  toStringAux (Z.to_nat (Z.log2 n)) n "".

Fixpoint repeatChar (c : ascii) (k : nat) : string :=
  match k with
  | O => ""
  | S k' => String c (repeatChar c k')
  end.

(** [s.padStart(targetLength, c)] for a one-character pad. *)
Definition padStart (targetLength : nat) (c : ascii) (s : string) : string :=
  repeatChar c (targetLength - String.length s) ++ s.

(** [`frames/frame${frame.toString().padStart(6, '0')}.png`] *)
Definition frameName (frame : Z) : string :=
  "frames/frame" ++ padStart 6 "0" (toString frame) ++ ".png".

(** The order [s1 < s2] of JavaScript strings: lexicographic on code units. *)
Definition str_lt (s1 s2 : string) : bool := String.ltb s1 s2.

(** The fixed-width decimal rendering used in the proofs: exactly [k]
    digits of [n], most significant first. *)
Fixpoint fixedDigits (k : nat) (n : Z) : string :=
  match k with
  | O => ""
  | S k' => fixedDigits k' (n / 10) ++ String (digitChar (n mod 10)) ""
  end.

End FrameNames.

(* ===================================================================== *)
(** ** The animation timeline driver ([applyAnimations]) *)
(* ===================================================================== *)

Module Timeline.

Local Open Scope Q_scope.

(** [VideoExportOptions['animations'][number]['type']] *)
Inductive AnimType : Type := fade | slide | zoom | rotate | three_d.

Record Animation : Type := mkAnimation {
  type : AnimType;
  duration : option Q;
  delay : option Q;
  easing : option string
}.

(** The transform components that the animation library keeps for an
    element and writes, all together, to [style.transform]. *)
Record Transform : Type := mkTransform {
  offsetX : Q;
  scaleXY : Q;
  rotationDeg : Q
}.

Definition identity : Transform :=
  {| offsetX := 0; scaleXY := 1; rotationDeg := 0 |}.

(** The element as the driver and the animation library see it: its
    inline [style.transform] ([None] for the empty string), its
    [style.opacity], and the transform components that the library holds
    for it: its cache when it has animated the element before, the
    transform of the computed style otherwise. Resetting the inline style
    does not reset them. *)
Record Element : Type := mkElement {
  styleTransform : option Transform;
  styleOpacity : Q;
  cache : Transform
}.

Inductive StyleProp : Type := PX | PScale | PRotation | POpacity.

(** The presentation of the element: the components of the transform in
    effect and the opacity. *)
Record Style : Type := mkStyle {
  x : Q;
  scale : Q;
  rotation : Q;
  opacity : Q
}.

Definition presentation (e : Element) : Style :=
  let t := default identity (styleTransform e) in
  {| x := offsetX t; scale := scaleXY t; rotation := rotationDeg t;
     opacity := styleOpacity e |}.

(** The component of a presentation that a property stands for. *)
Definition propOf (p : StyleProp) (s : Style) : Q :=
  match p with
  | PX => x s
  | PScale => scale s
  | PRotation => rotation s
  | POpacity => opacity s
  end.

Definition style_eq (s1 s2 : Style) : Prop :=
  x s1 == x s2 /\ scale s1 == scale s2 /\
  rotation s1 == rotation s2 /\ opacity s1 == opacity s2.

Definition neutral : Style :=
  {| x := 0; scale := 1; rotation := 0; opacity := 1 |}.

(** [element.style.transform = ''; element.style.opacity = '1'] *)
Definition reset (e : Element) : Element :=
  {| styleTransform := None; styleOpacity := 1; cache := cache e |}.

(** The library sets the opacity on the style; for a transform component
    it updates its cache and writes the whole transform from the cache. *)
Definition setProp (p : StyleProp) (v : Q) (e : Element) : Element :=
  match p with
  | PX =>
      let c := {| offsetX := v; scaleXY := scaleXY (cache e);
                  rotationDeg := rotationDeg (cache e) |} in
      {| styleTransform := Some c; styleOpacity := styleOpacity e; cache := c |}
  | PScale =>
      let c := {| offsetX := offsetX (cache e); scaleXY := v;
                  rotationDeg := rotationDeg (cache e) |} in
      {| styleTransform := Some c; styleOpacity := styleOpacity e; cache := c |}
  | PRotation =>
      let c := {| offsetX := offsetX (cache e); scaleXY := scaleXY (cache e);
                  rotationDeg := v |} in
      {| styleTransform := Some c; styleOpacity := styleOpacity e; cache := c |}
  | POpacity =>
      {| styleTransform := styleTransform e; styleOpacity := v; cache := cache e |}
  end.

(** The value that the library holds for a property of the element. *)
Definition held (p : StyleProp) (e : Element) : Q :=
  match p with
  | PX => offsetX (cache e)
  | PScale => scaleXY (cache e)
  | PRotation => rotationDeg (cache e)
  | POpacity => styleOpacity e
  end.

(** One [timeline.fromTo(element, fromVars, toVars)] call: the animated
    properties with their start and end values, and the timing. *)
Record Tween : Type := mkTween {
  vars : list (StyleProp * Q * Q);
  tweenDuration : Q;
  tweenDelay : Q;
  tweenEase : string
}.

(** [v || d] on a possibly undefined number: undefined and 0 are falsy. *)
Definition orDefault (v : option Q) (d : Q) : Q :=
  match v with
  | Some q => if Qeq_bool q 0 then d else q
  | None => d
  end.

Definition easeOrDefault (v : option string) : string :=
  match v with
  | Some s => if String.eqb s "" then "power2.inOut"%string else s
  | None => "power2.inOut"%string
  end.

(** The [fromVars]/[toVars] of the [switch (animation.type)]; the ['3d']
    type has no case. *)
Definition varsOf (t : AnimType) : option (list (StyleProp * Q * Q)) :=
  match t with
  | fade => Some [(POpacity, 0, 1)]
  | slide => Some [(PX, -(100), 0); (POpacity, 0, 1)]
  | zoom => Some [(PScale, 0, 1); (POpacity, 0, 1)]
  | rotate => Some [(PRotation, -(180), 0); (POpacity, 0, 1)]
  | three_d => None
  end.

Definition tweenOf (a : Animation) : option Tween :=
  match varsOf (type a) with
  | Some vs =>
      Some {| vars := vs;
              tweenDuration := orDefault (duration a) 1;
              tweenDelay := orDefault (delay a) 0;
              tweenEase := easeOrDefault (easing a) |}
  | None => None
  end.

(** The timeline after the [forEach]. The animation library appends each
    [fromTo] tween at the current end of the timeline, shifted by the
    tween's delay; the result pairs every tween with its start time and
    carries the total duration of the timeline. *)
Fixpoint place (cursor : Q) (anims : list Animation) : list (Q * Tween) * Q :=
  match anims with
  | [] => ([], cursor)
  | a :: rest =>
      match tweenOf a with
      | Some tw =>
          let start := cursor + tweenDelay tw in
          let '(placed, total) := place (start + tweenDuration tw) rest in
          ((start, tw) :: placed, total)
      | None => place cursor rest
      end
  end.

(** The value thrown by [timeline.update()]: the timeline of the animation
    library has no method of this name, so the call is a [TypeError]. *)
Definition timelineUpdateError : Thrown :=
  ErrorObj "timeline.update is not a function".

(** How the promise of [applyAnimations] settles. [onComplete] resolves it
    during [timeline.progress(progress)] when the seek reaches the end of
    the timeline, which an empty timeline does at once; otherwise the
    promise is still pending when [timeline.update()] throws inside the
    executor, and is rejected with that error. [None] stands for a
    resolved promise. *)
Definition settlement (progress : Q) (animations : list Animation) : option Thrown :=
  let '(placed, total) := place 0 animations in
  if Qle_bool total (progress * total) then None else Some timelineUpdateError.

Section Render.

(** The ease registered under a name, as the animation library resolves
    it; an ease maps the linear ratio of a tween to its eased ratio. *)
Variable parseEase : string -> Q -> Q.

(** The eased ratio of a tween that has started when the timeline is at
    time [t]; a finished tween is at the end of its ease. *)
Definition ratioAt (t : Q) (start : Q) (tw : Tween) : Q :=
  let local := t - start in
  if Qle_bool local 0 then parseEase (tweenEase tw) 0
  else if Qle_bool (tweenDuration tw) local then parseEase (tweenEase tw) 1
  else parseEase (tweenEase tw) (local / tweenDuration tw).

(** A tween sets each of its properties to [from + (to - from) * ratio]. *)
Definition renderVars (ratio : Q) (vs : list (StyleProp * Q * Q)) (e : Element) : Element :=
  fold_left (fun acc '(p, from, to) => setProp p (from + (to - from) * ratio) acc) vs e.

(** A [fromTo] tween is rendered once when it is created, at the beginning
    of its ease: the element shows the start values of every tween as soon
    as the timeline is built. *)
Definition firstRender (acc : Element) (entry : Q * Tween) : Element :=
  let '(start, tw) := entry in
  renderVars (parseEase (tweenEase tw) 0) (vars tw) acc.

Definition immediateRender (placed : list (Q * Tween)) (e : Element) : Element :=
  fold_left firstRender placed e.

(** [timeline.progress(progress)] moves the playhead to [t]. A playhead
    that stays at 0 renders nothing; otherwise the tweens that have
    started are rendered in the order they were added, and a tween that
    has not started is left as it is. *)
Definition renderAt (t : Q) (acc : Element) (entry : Q * Tween) : Element :=
  let '(start, tw) := entry in
  if Qle_bool start t then renderVars (ratioAt t start tw) (vars tw) acc
  else acc.

Definition seek (t : Q) (placed : list (Q * Tween)) (e : Element) : Element :=
  if Qeq_bool t 0 then e else fold_left (renderAt t) placed e.

(** [applyAnimations(element, progress, animations)]: reset the element,
    build the timeline, seek it with [timeline.progress(progress)] and
    call [timeline.update()]. The result is how the returned promise
    settles, and the element as the call leaves it. *)
Definition applyAnimations (element : Element) (progress : Q)
    (animations : list Animation) : option Thrown * Element :=
  let '(placed, total) := place 0 animations in
  (settlement progress animations,
   seek (progress * total) placed (immediateRender placed (reset element))).

End Render.

(** The default ease ["power2.inOut"]. *)
Definition power2_inOut (p : Q) : Q :=
  if Qle_bool (1 # 2) p
  then 1 - ((2 * (1 - p)) ^ 3) / 2
  else ((2 * p) ^ 3) / 2.

(** The states the specification names for each directive kind. *)
Definition fromState (t : AnimType) : Style :=
  match t with
  | fade => {| x := 0; scale := 1; rotation := 0; opacity := 0 |}
  | slide => {| x := -(100); scale := 1; rotation := 0; opacity := 0 |}
  | zoom => {| x := 0; scale := 0; rotation := 0; opacity := 0 |}
  | rotate => {| x := 0; scale := 1; rotation := -(180); opacity := 0 |}
  | three_d => neutral
  end.

Definition toState (t : AnimType) : Style := neutral.

(** A directive with sensible timing: a non-negative duration and delay. *)
Definition wellTimed (a : Animation) : Prop :=
  0 <= orDefault (duration a) 1 /\ 0 <= orDefault (delay a) 0.

(** An element whose transform components, as the library holds them, are
    those of no transform: one it has not animated before and that has no
    transform of its own, or one it has brought back there. *)
Definition untransformed (e : Element) : Prop :=
  offsetX (cache e) == 0 /\ scaleXY (cache e) == 1 /\ rotationDeg (cache e) == 0.

End Timeline.

(* ===================================================================== *)
(** ** The frame pipeline orchestrator ([exportToVideo]) *)
(* ===================================================================== *)

Module Exporter.

Import JsNum.

Record VideoExportOptions : Type := mkOptions {
  duration : option float;
  fps : option float;
  width : option Z;
  height : option Z;
  quality : option Z;
  animations : option (list Timeline.Animation)
}.

(** [RenderFrame], without the element (always the off-screen clone). *)
Record RenderFrame : Type := mkRenderFrame {
  time : Q;
  frameWidth : Z;
  frameHeight : Z;
  frameAnimations : list Timeline.Animation
}.

(** An entry of the encoder's virtual file system. *)
Inductive Node : Type :=
| Dir
| File (data : bytes).

(** What the export does to its collaborators, in order. *)
Inductive Event : Type :=
| CreateDir (path : string)
| AppendClone
| CaptureFrame (frame : Z) (rf : RenderFrame)
| WriteFile (name : string)
| Exec (framerate : float) (crf : Z)
| ReadFile (path : string)
| DeleteDir (path : string)
| Delete (path : string)
| RemoveClone.

Record World : Type := mkWorld {
  fs : gmap string Node;
  cloneAttached : bool;
  log : list Event
}.

(** The collaborators of one export call: what [getFFmpeg] resolves to
    ([inr true] a handle, [inr false] a falsy value), and which calls of
    the rasteriser and of the encoder are rejected. *)
Record Env : Type := mkEnv {
  getFFmpeg : Thrown + bool;
  createDirError : string -> option Thrown;
  captureFrame : RenderFrame -> Thrown + bytes;
  writeFileError : string -> option Thrown;
  execResult : Thrown + bytes;
  readFileError : string -> option Thrown;
  deleteDirError : string -> option Thrown;
  deleteError : string -> option Thrown
}.

(** *** A state and exception monad over the world *)

Inductive Outcome (A : Type) : Type :=
| Returned (a : A)
| Threw (e : Thrown)
| OutOfFuel.
Arguments Returned {A} a.
Arguments Threw {A} e.
Arguments OutOfFuel {A}.

Definition M (A : Type) : Type := World -> Outcome A * World.

Definition ret {A} (a : A) : M A := fun w => (Returned a, w).
Definition throw {A} (e : Thrown) : M A := fun w => (Threw e, w).

Definition bind {A B} (m : M A) (f : A -> M B) : M B :=
  fun w =>
    match m w with
    | (Returned a, w') => f a w'
    | (Threw e, w') => (Threw e, w')
    | (OutOfFuel, w') => (OutOfFuel, w')
    end.

Notation "x <- m ;; k" := (bind m (fun x => k))
  (at level 90, m at level 80, right associativity).
Notation "m ;;; k" := (bind m (fun _ => k))
  (at level 90, right associativity).

(** Whether a call has returned a value. *)
Definition returned {A} (r : Outcome A) : bool :=
  match r with
  | Returned _ => true
  | _ => false
  end.

(** [try { body } finally { cleanup }] *)
Definition tryFinally {A} (body : M A) (cleanup : M unit) : M A :=
  fun w =>
    match body w with
    | (OutOfFuel, w') => (OutOfFuel, w')
    | (r, w') =>
        match cleanup w' with
        | (Returned _, w'') => (r, w'')
        | (Threw e, w'') => (Threw e, w'')
        | (OutOfFuel, w'') => (OutOfFuel, w'')
        end
    end.

(** [try { body } catch (error) { handler(error) }] *)
Definition tryCatch {A} (body : M A) (handler : Thrown -> M A) : M A :=
  fun w =>
    match body w with
    | (Threw e, w') => handler e w'
    | other => other
    end.

Definition emit (e : Event) : M unit :=
  fun w => (Returned tt, {| fs := fs w; cloneAttached := cloneAttached w; log := log w ++ [e] |}).

Definition setFs (f : gmap string Node -> gmap string Node) : M unit :=
  fun w => (Returned tt, {| fs := f (fs w); cloneAttached := cloneAttached w; log := log w |}).

Definition setClone (b : bool) : M unit :=
  fun w => (Returned tt, {| fs := fs w; cloneAttached := b; log := log w |}).

Definition getWorld : M World := fun w => (Returned w, w).

Definition orThrow (e : option Thrown) : M unit :=
  match e with
  | Some err => throw err
  | None => ret tt
  end.

(** *** The encoder's file operations

    Each operation of the encoder object is modelled by its effect on the
    virtual file system; the environment decides whether it is rejected. *)

Section WithEnv.

Variable env : Env.

Definition ffmpeg_createDir (path : string) : M unit :=
  emit (CreateDir path) ;;;
  orThrow (createDirError env path) ;;;
  setFs (fun m => <[path := Dir]> m).

Definition ffmpeg_writeFile (name : string) (data : bytes) : M unit :=
  emit (WriteFile name) ;;;
  orThrow (writeFileError env name) ;;;
  setFs (fun m => <[name := File data]> m).

Definition ffmpeg_exec (framerate : float) (crf : Z) : M unit :=
  emit (Exec framerate crf) ;;;
  match execResult env with
  | inl err => throw err
  | inr video => setFs (fun m => <["output.mp4"%string := File video]> m)
  end.

Definition ffmpeg_readFile (path : string) : M bytes :=
  emit (ReadFile path) ;;;
  orThrow (readFileError env path) ;;;
  w <- getWorld ;;
  match fs w !! path with
  | Some (File data) => ret data
  | _ => throw (ErrorObj "ErrnoError: FS error")
  end.

(** Removing a directory removes it together with what it contains. *)
Definition inDirectory (path key : string) : bool :=
  String.eqb key path || String.prefix (path ++ "/") key.

Definition ffmpeg_deleteDir (path : string) : M unit :=
  emit (DeleteDir path) ;;;
  orThrow (deleteDirError env path) ;;;
  setFs (fun m => filter (fun kv => inDirectory path kv.1 = false) m).

Definition ffmpeg_delete (path : string) : M unit :=
  emit (Delete path) ;;;
  orThrow (deleteError env path) ;;;
  setFs (fun m => delete path m).

(** *** The capture loop *)

(** [Math.floor(duration * fps)] *)
Definition totalFrames (duration fps : float) : floored :=
  Math_floor (duration * fps)%float.

Definition batchSize : Z := 5.

(** [Math.min(batchSize, totalFrames - i)], the [length] of the batch. *)
Definition batchLength (total : floored) (i : Z) : nat :=
  match total with
  | FInt n => Z.to_nat (Z.min batchSize (n - i))
  | FInf false => Z.to_nat batchSize
  | _ => O
  end.

(** [frame / totalFrames] *)
Definition frameTime (total : floored) (frame : Z) : Q :=
  match total with
  | FInt n => (inject_Z frame / inject_Z n)%Q
  | _ => 0%Q
  end.

(** [Array.from({ length }, (_, j) => i + j)] *)
Definition framesFrom (i : Z) (length : nat) : list Z :=
  map (fun j => i + Z.of_nat j) (seq 0 length).

(** The frames [i + j] of the batch that starts at [i]. *)
Definition batchFrames (total : floored) (i : Z) : list Z :=
  framesFrom i (batchLength total i).

(** The descriptor that the callback of a frame passes to [captureFrame]. *)
Definition renderFrame (total : floored) (w h : Z)
    (anims : list Timeline.Animation) (frame : Z) : RenderFrame :=
  {| time := frameTime total frame; frameWidth := w;
     frameHeight := h; frameAnimations := anims |}.

(** The asynchronous callback of a frame runs at once up to its first
    [await]: it calls [captureFrame]. *)
Definition startCapture (total : floored) (w h : Z)
    (anims : list Timeline.Animation) (frame : Z) : M unit :=
  emit (CaptureFrame frame (renderFrame total w h anims frame)).

(** The rest of the callback, which runs when the capture has settled:
    write the frame and return the file name; a failure is logged and
    thrown again. *)
Definition writeCaptured (total : floored) (w h : Z)
    (anims : list Timeline.Animation) (frame : Z) : M string :=
  match captureFrame env (renderFrame total w h anims frame) with
  | inl err => throw err
  | inr frameData =>
      let frameName := FrameNames.frameName frame in
      ffmpeg_writeFile frameName frameData ;;;
      ret frameName
  end.

(** [Array.from({ length }, async (_, j) => ...)] calls the callbacks of
    the batch one after the other, so every capture of the batch is
    started before any frame of the batch is written. *)
Fixpoint startBatch (total : floored) (w h : Z) (anims : list Timeline.Animation)
    (frames : list Z) : M unit :=
  match frames with
  | [] => ret tt
  | frame :: rest =>
      startCapture total w h anims frame ;;;
      startBatch total w h anims rest
  end.

(** [await Promise.all(batch)]: every callback of the batch runs to its
    end, whether or not another one fails; the batch is rejected with the
    first failure and otherwise yields the names. The callbacks are
    resumed here in the order of the frames, one of the orders in which
    the captures can settle. A callback that is still running when the
    batch is rejected goes on after the call has thrown; what it writes is
    accounted for here, so the world after the call is the one in which
    every callback of the batch has settled. *)
Fixpoint settleBatch (total : floored) (w h : Z) (anims : list Timeline.Animation)
    (frames : list Z) : M (list string) :=
  match frames with
  | [] => ret []
  | frame :: rest =>
      fun world =>
        match writeCaptured total w h anims frame world with
        | (Returned name, world') =>
            match settleBatch total w h anims rest world' with
            | (Returned names, world'') => (Returned (name :: names), world'')
            | other => other
            end
        | (Threw e, world') =>
            (Threw e, snd (settleBatch total w h anims rest world'))
        | (OutOfFuel, world') => (OutOfFuel, world')
        end
  end.

Definition runBatch (total : floored) (w h : Z) (anims : list Timeline.Animation)
    (frames : list Z) : M (list string) :=
  startBatch total w h anims frames ;;;
  settleBatch total w h anims frames.

(** [for (let i = 0; i < totalFrames; i += batchSize) { ... }] *)
Fixpoint captureLoop (fuel : nat) (total : floored) (w h : Z)
    (anims : list Timeline.Animation) (i : Z) : M unit :=
  if int_lt_floored i total then
    match fuel with
    | O => fun world => (OutOfFuel, world)
    | S fuel' =>
        runBatch total w h anims (batchFrames total i) ;;;
        captureLoop fuel' total w h anims (i + batchSize)
    end
  else ret tt.

(** *** [exportToVideo] *)

Definition defaultAnimations : list Timeline.Animation :=
  [ {| Timeline.type := Timeline.fade; Timeline.duration := Some 1%Q;
       Timeline.delay := None; Timeline.easing := None |} ].

Definition exportToVideo (fuel : nat) (options : VideoExportOptions) : M bytes :=
  let duration := default 3%float (duration options) in
  let fps := default 30%float (fps options) in
  let width := default 1920 (width options) in
  let height := default 1080 (height options) in
  let quality := default 23 (quality options) in
  let animations := default defaultAnimations (animations options) in
  tryCatch
    (match getFFmpeg env with
     | inl err => throw err
     | inr false => throw (ErrorObj "Failed to initialize FFmpeg")
     | inr true =>
         ffmpeg_createDir "frames" ;;;
         let totalFrames := totalFrames duration fps in
         emit AppendClone ;;;
         setClone true ;;;
         tryFinally
           (captureLoop fuel totalFrames width height animations 0 ;;;
            ffmpeg_exec fps quality ;;;
            data <- ffmpeg_readFile "output.mp4" ;;
            ffmpeg_deleteDir "frames" ;;;
            ffmpeg_delete "output.mp4" ;;;
            ret data)
           (w <- getWorld ;;
            if cloneAttached w
            then emit RemoveClone ;;; setClone false
            else ret tt)
     end)
    (fun error => throw error).

End WithEnv.

(** The captures that a batch starts, as they appear in the history. *)
Definition captureEvents (total : floored) (w h : Z)
    (anims : list Timeline.Animation) (frames : list Z) : list Event :=
  map (fun f => CaptureFrame f (renderFrame total w h anims f)) frames.

(** The frames captured and the files written, read off the log. *)
Definition capturedTimes (l : list Event) : list (Z * Q) :=
  flat_map (fun e => match e with CaptureFrame f rf => [(f, time rf)] | _ => [] end) l.

Definition capturedFrames (l : list Event) : list Z :=
  map fst (capturedTimes l).

Definition writtenFiles (l : list Event) : list string :=
  flat_map (fun e => match e with WriteFile n => [n] | _ => [] end) l.

(** [0, 1, ..., n-1] *)
Definition range (n : Z) : list Z :=
  map Z.of_nat (seq 0 (Z.to_nat n)).

(** The frames of a list paired with their normalised times. *)
Definition timed (total : floored) (frames : list Z) : list (Z * Q) :=
  map (fun f => (f, frameTime total f)) frames.

(** What one call of [exportToVideo] does, for a finite frame count [n]:
    the frames it captures are [0, 1, ..., c-1] for some [c <= n], each at
    its normalised time; when it returns, [c = n], every frame was
    written under its name, and the frame directory, the output file and
    the clone are gone. *)
Definition exportPost (n : Z) (w : World) (r : Outcome bytes) (w' : World) : Prop :=
  exists c : nat,
    (c <= Z.to_nat n)%nat /\
    capturedTimes (log w') = capturedTimes (log w) ++ timed (FInt n) (framesFrom 0 c) /\
    match r with
    | Returned _ =>
        c = Z.to_nat n /\
        writtenFiles (log w') =
          writtenFiles (log w) ++ map FrameNames.frameName (framesFrom 0 c) /\
        fs w' !! "frames"%string = None /\
        fs w' !! "output.mp4"%string = None /\
        cloneAttached w' = false
    | _ => True
    end.

(** An environment in which no call fails: every frame is delivered,
    whatever the directives are, and the encoder has every method that the
    export calls. With [captureFrame] as the source has it (see
    [Capture.withCapture]) the former takes a request without animated
    directive. *)
Definition healthy (video : bytes) (raster : RenderFrame -> bytes) : Env :=
  {| getFFmpeg := inr true;
     createDirError := fun _ => None;
     captureFrame := fun rf => inr (raster rf);
     writeFileError := fun _ => None;
     execResult := inr video;
     readFileError := fun _ => None;
     deleteDirError := fun _ => None;
     deleteError := fun _ => None |}.

(** An environment in which the rasteriser rejects every frame. *)
Definition captureFails : Env :=
  {| getFFmpeg := inr true;
     createDirError := fun _ => None;
     captureFrame := fun _ => inl (ErrorObj "Failed to create frame blob");
     writeFileError := fun _ => None;
     execResult := inr [];
     readFileError := fun _ => None;
     deleteDirError := fun _ => None;
     deleteError := fun _ => None |}.

(** An encoder object that has no [delete] method (the published class
    names it [deleteFile]): the call is a [TypeError]. Nothing else fails. *)
Definition noDelete (video : bytes) (raster : RenderFrame -> bytes) : Env :=
  {| getFFmpeg := inr true;
     createDirError := fun _ => None;
     captureFrame := fun rf => inr (raster rf);
     writeFileError := fun _ => None;
     execResult := inr video;
     readFileError := fun _ => None;
     deleteDirError := fun _ => None;
     deleteError := fun _ => Some (ErrorObj "ffmpeg.delete is not a function") |}.

(** An environment in which the encode invocation is rejected. *)
Definition encodeFails : Env :=
  {| getFFmpeg := inr true;
     createDirError := fun _ => None;
     captureFrame := fun _ => inr [];
     writeFileError := fun _ => None;
     execResult := inl (ErrorObj "Encoding failed");
     readFileError := fun _ => None;
     deleteDirError := fun _ => None;
     deleteError := fun _ => None |}.

Definition emptyWorld : World :=
  {| fs := ∅; cloneAttached := false; log := [] |}.

Definition noOptions : VideoExportOptions :=
  {| duration := None; fps := None; width := None; height := None;
     quality := None; animations := None |}.

(** The frame directory exists in the encoder's storage. *)
Definition hasFrames (w : World) : Prop := fs w !! "frames"%string = Some Dir.

(** A request for [duration] seconds at [fps] frames per second. *)
Definition request (duration fps : float) : VideoExportOptions :=
  {| duration := Some duration; fps := Some fps; width := None; height := None;
     quality := None; animations := None |}.

End Exporter.

(* ===================================================================== *)
(** ** The capture loop under every order of completion *)
(* ===================================================================== *)

Module Schedule.

Import JsNum.

(** The observable turns of the capture phase of one export: a capture
    callback is started, or its capture-and-write settles. [Array.from]
    starts all callbacks of a batch in one turn; each of them then settles
    in a turn of its own, in any order; the loop goes on after
    [await Promise.all(batch)], that is when all of them have resolved, and
    stops when one is rejected. *)
Inductive Ev : Type :=
| Start (frame : Z)
| Resolved (frame : Z)
| Failed (frame : Z).

(** The loop variable [i], the callbacks of the current batch that have
    not settled, whether [Promise.all] was rejected, and the history. *)
Record St : Type := mkSt {
  next : Z;
  pending : list Z;
  rejected : bool;
  trace : list Ev
}.

Definition initial : St :=
  {| next := 0; pending := []; rejected := false; trace := [] |}.

Definition removeFrame (f : Z) (l : list Z) : list Z :=
  List.filter (fun g => negb (g =? f)) l.

Inductive step (total : floored) : St -> St -> Prop :=
| step_launch : forall s,
    (* the loop test holds and the previous [await Promise.all] is over:
       [Array.from] starts every callback of the batch in one turn *)
    int_lt_floored (next s) total = true ->
    pending s = [] ->
    rejected s = false ->
    step total s
      {| next := next s + Exporter.batchSize;
         pending := Exporter.batchFrames total (next s);
         rejected := false;
         trace := trace s ++ map Start (Exporter.batchFrames total (next s)) |}
| step_resolve : forall s f,
    In f (pending s) ->
    step total s
      {| next := next s;
         pending := removeFrame f (pending s);
         rejected := rejected s;
         trace := trace s ++ [Resolved f] |}
| step_fail : forall s f,
    In f (pending s) ->
    step total s
      {| next := next s;
         pending := removeFrame f (pending s);
         rejected := true;
         trace := trace s ++ [Failed f] |}.

Inductive reachable (total : floored) : St -> Prop :=
| reach_init : reachable total initial
| reach_step : forall s s', reachable total s -> step total s s' -> reachable total s'.

(** The index of the batch a frame belongs to. *)
Definition batchOf (frame : Z) : Z := frame / Exporter.batchSize.

Definition settles (e : Ev) (frame : Z) : Prop :=
  e = Resolved frame \/ e = Failed frame.

(** Batches run one after the other: when a capture starts, every frame
    of every earlier batch has been captured and written. *)
Definition sequential (tr : list Ev) : Prop :=
  forall before g after,
    tr = before ++ Start g :: after ->
    forall f, 0 <= f -> batchOf f < batchOf g -> In (Resolved f) before.

(** The captures of a batch run concurrently: when the first of them
    settles, all the captures of its batch have been started. *)
Definition fannedOut (total : floored) (tr : list Ev) : Prop :=
  forall before e f after,
    tr = before ++ e :: after ->
    settles e f ->
    forall g, 0 <= g -> int_lt_floored g total = true -> batchOf g = batchOf f ->
      In (Start g) before.

(** The invariant of the capture phase. *)
Record Inv (total : floored) (s : St) : Prop := mkInv {
  inv_next : exists k, 0 <= k /\ next s = Exporter.batchSize * k;
  inv_pending : forall f, In f (pending s) ->
    next s - Exporter.batchSize <= f < next s /\ 0 <= f /\ int_lt_floored f total = true;
  inv_size : (List.length (pending s) <= Z.to_nat Exporter.batchSize)%nat;
  inv_started : forall f, 0 <= f < next s -> int_lt_floored f total = true ->
    In (Start f) (trace s);
  inv_settled : forall f, 0 <= f < next s -> int_lt_floored f total = true ->
    In f (pending s) \/ In (Resolved f) (trace s) \/ In (Failed f) (trace s);
  inv_rejected : rejected s = false -> forall f, ~ In (Failed f) (trace s);
  inv_sequential : sequential (trace s);
  inv_fannedOut : fannedOut total (trace s)
}.

End Schedule.

(* ===================================================================== *)
(** ** The encoder session manager ([ffmpeg.ts]) *)
(* ===================================================================== *)

Module Encoder.

(** *** [fetchWithRetry] *)

Record Response : Type := mkResponse {
  ok : bool;
  status : Z;
  body : bytes
}.

Inductive FetchEvent : Type :=
| Fetch (url : string)
| Sleep (ms : Z).

(** The network: what the [k]-th call of [fetch] of one run, made for
    [url], settles with. *)
Definition Network : Type := nat -> string -> Thrown + Response.

Record FetchState : Type := mkFetchState {
  calls : nat;
  events : list FetchEvent
}.

(** The [try] block of one attempt: a rejected [fetch] or a response that
    is not [ok] is an error. *)
Definition attempt (net : Network) (url : string) (st : FetchState)
    : (Thrown + Response) * FetchState :=
  let st' := {| calls := S (calls st); events := events st ++ [Fetch url] |} in
  match net (calls st) url with
  | inl error => (inl error, st')
  | inr response =>
      if ok response then (inr response, st')
      else (inl (ErrorObj ("HTTP error! status: " ++ FrameNames.toString (status response))), st')
  end.

(** [setTimeout(resolve, 1000 * Math.pow(2, i))] *)
Definition backoff (i : nat) : Z := 1000 * 2 ^ Z.of_nat i.

(** The inner loop [for (let i = 0; i < retries; i++)], with
    [i = retries - remaining]. It yields the response, or the last error
    once the attempts on this URL are used up. *)
Fixpoint tryUrl (net : Network) (url : string) (retries remaining : nat)
    (lastError : option Thrown) (st : FetchState)
    : (Response + option Thrown) * FetchState :=
  match remaining with
  | O => (inr lastError, st)
  | S remaining' =>
      let i := (retries - remaining)%nat in
      match attempt net url st with
      | (inr response, st') => (inl response, st')
      | (inl error, st') =>
          let st'' :=
            if (i =? retries - 1)%nat then st'
            else {| calls := calls st'; events := events st' ++ [Sleep (backoff i)] |} in
          tryUrl net url retries remaining' (Some error) st''
      end
  end.

(** The outer loop [for (const url of urls)]. *)
Fixpoint tryUrls (net : Network) (urls : list string) (retries : nat)
    (lastError : option Thrown) (st : FetchState)
    : (Response + option Thrown) * FetchState :=
  match urls with
  | [] => (inr lastError, st)
  | url :: rest =>
      match tryUrl net url retries retries lastError st with
      | (inl response, st') => (inl response, st')
      | (inr lastError', st') => tryUrls net rest retries lastError' st'
      end
  end.

(** [lastError || fallback]: the last error unless it is [undefined] (no
    attempt was made) or another falsy value. *)
Definition orError (lastError : option Thrown) (fallback : Thrown) : Thrown :=
  match lastError with
  | Some error => if truthy error then error else fallback
  | None => fallback
  end.

Definition fetchWithRetry (net : Network) (urls : list string) (retries : nat)
    : (Thrown + Response) * FetchState :=
  match tryUrls net urls retries None {| calls := O; events := [] |} with
  | (inl response, st) => (inr response, st)
  | (inr lastError, st) =>
      (inl (orError lastError (ErrorObj "Failed to fetch after all retries")), st)
  end.

Definition defaultRetries : nat := 3.

Definition primary_core : string :=
  "https://cdn.jsdelivr.net/npm/@ffmpeg/core@0.12.6/dist/umd/ffmpeg-core.js".
Definition fallback_core : string :=
  "https://unpkg.com/@ffmpeg/core@0.12.6/dist/umd/ffmpeg-core.js".
Definition primary_wasm : string :=
  "https://cdn.jsdelivr.net/npm/@ffmpeg/core@0.12.6/dist/umd/ffmpeg-core.wasm".
Definition fallback_wasm : string :=
  "https://unpkg.com/@ffmpeg/core@0.12.6/dist/umd/ffmpeg-core.wasm".
Definition primary_worker : string :=
  "https://cdn.jsdelivr.net/npm/@ffmpeg/core@0.12.6/dist/umd/ffmpeg-core.worker.js".
Definition fallback_worker : string :=
  "https://unpkg.com/@ffmpeg/core@0.12.6/dist/umd/ffmpeg-core.worker.js".

(** Which attempts failed. *)
Definition attemptFails (net : Network) (k : nat) (url : string) : bool :=
  match net k url with
  | inl _ => true
  | inr response => negb (ok response)
  end.

(** The URL of the [k]-th attempt when nothing succeeds earlier. *)
Definition schedule (urls : list string) (retries : nat) : list string :=
  flat_map (fun url => repeat url retries) urls.

(** Every attempt of the schedule fails, the first one being the
    [k]-th call. *)
Fixpoint allFail (net : Network) (k : nat) (sched : list string) : bool :=
  match sched with
  | [] => true
  | url :: rest => attemptFails net k url && allFail net (S k) rest
  end.

(** What a failed attempt number [i] on [url] leaves in the history: the
    request, and the pause unless it was the last attempt on this URL. *)
Definition failedAttempt (url : string) (retries i : nat) : list FetchEvent :=
  Fetch url :: (if (i =? retries - 1)%nat then [] else [Sleep (backoff i)]).

(** The history of a run in which nothing succeeds. *)
Definition exhausted (urls : list string) (retries : nat) : list FetchEvent :=
  flat_map (fun url => flat_map (failedAttempt url retries) (seq 0 retries)) urls.

Definition fetches (l : list FetchEvent) : list string :=
  flat_map (fun e => match e with Fetch u => [u] | Sleep _ => [] end) l.

Definition sleeps (l : list FetchEvent) : list Z :=
  flat_map (fun e => match e with Sleep ms => [ms] | Fetch _ => [] end) l.

(** *** [getFFmpeg] *)

(** The identity of an [FFmpeg] object and of a promise. *)
Definition Handle : Type := nat.
Definition PromiseId : Type := nat.

Inductive PromiseState : Type :=
| Pending
| Fulfilled (h : Handle)
| Rejected (e : Thrown).

(** The module variables [ffmpeg], [isLoading] and [loadingPromise]. *)
Record Session : Type := mkSession {
  ffmpeg : option Handle;
  isLoading : bool;
  loadingPromise : option PromiseId
}.

(** The module variables together with the heap they point into: the
    promises, the [FFmpeg] objects whose [load] has completed, and the
    history of initialisation sequences. *)
Record Runtime : Type := mkRuntime {
  session : Session;
  promises : gmap PromiseId PromiseState;
  loaded : gset Handle;
  nextHandle : Handle;
  nextPromise : PromiseId;
  loadsStarted : nat;
  fetched : list FetchEvent
}.

Definition uninitialized : Session :=
  {| ffmpeg := None; isLoading := false; loadingPromise := None |}.

Definition boot : Runtime :=
  {| session := uninitialized; promises := ∅; loaded := ∅;
     nextHandle := O; nextPromise := O; loadsStarted := O; fetched := [] |}.

(** What the promise returned by a call of [getFFmpeg] is tied to: the
    value of [return ffmpeg], or the promise of [return loadingPromise]. *)
Inductive Returned : Type :=
| ResolvesWith (h : Handle)
| Follows (p : PromiseId).

(** The synchronous part of [getFFmpeg()], up to the first [await] of the
    loading function. *)
Definition getFFmpeg (rt : Runtime) : Returned * Runtime :=
  match ffmpeg (session rt) with
  | Some h => (ResolvesWith h, rt)
  | None =>
      match isLoading (session rt), loadingPromise (session rt) with
      | true, Some p => (Follows p, rt)
      | _, _ =>
          let h := nextHandle rt in
          let p := nextPromise rt in
          (Follows p,
           {| session := {| ffmpeg := Some h; isLoading := true; loadingPromise := Some p |};
              promises := <[p := Pending]> (promises rt);
              loaded := loaded rt;
              nextHandle := S h;
              nextPromise := S p;
              loadsStarted := S (loadsStarted rt);
              fetched := fetched rt |})
      end
  end.

(** The collaborators of one initialisation sequence. *)
Record LoadEnv : Type := mkLoadEnv {
  coreNet : Network;
  wasmNet : Network;
  workerNet : Network;
  blobError : option Thrown;
  loadError : option Thrown
}.

(** The [try] block of the loading function: the three fetches, the
    conversion to blob URLs and [ffmpeg.load]. The three [fetchWithRetry]
    run concurrently under [Promise.all], each on a network of its own, so
    that what one of them gets does not depend on the others. Their
    histories are listed by resource (core, WASM, worker), not by time, and
    when several of them fail the rejection taken is that of the first
    resource of the array: one of the orders in which they can settle. *)
Definition loadSequence (env : LoadEnv) : option Thrown * list FetchEvent :=
  let '(core, s1) := fetchWithRetry (coreNet env) [primary_core; fallback_core] defaultRetries in
  let '(wasm, s2) := fetchWithRetry (wasmNet env) [primary_wasm; fallback_wasm] defaultRetries in
  let '(worker, s3) := fetchWithRetry (workerNet env) [primary_worker; fallback_worker] defaultRetries in
  let evs := events s1 ++ events s2 ++ events s3 in
  match core, wasm, worker with
  | inl e, _, _ => (Some e, evs)
  | _, inl e, _ => (Some e, evs)
  | _, _, inl e => (Some e, evs)
  | inr _, inr _, inr _ =>
      match blobError env with
      | Some e => (Some e, evs)
      | None => (loadError env, evs)
      end
  end.

(** The error built in the [catch] block. *)
Definition initializationError (error : Thrown) : Thrown :=
  match error with
  | ErrorObj message => ErrorObj ("FFmpeg initialization failed: " ++ message)
  | NonError _ | Falsy _ =>
      ErrorObj "Failed to initialize video processing. Please try again later."
  end.

(** The rest of the loading function that was started for promise [p]:
    its [try], [catch] and [finally] blocks. *)
Definition completeLoad (env : LoadEnv) (p : PromiseId) (rt : Runtime) : Runtime :=
  let '(failure, evs) := loadSequence env in
  let failure :=
    match failure, ffmpeg (session rt) with
    | None, None => Some (ErrorObj "Cannot read properties of null (reading 'load')")
    | _, _ => failure
    end in
  match failure with
  | None =>
      let h := default O (ffmpeg (session rt)) in
      {| session := {| ffmpeg := ffmpeg (session rt); isLoading := false; loadingPromise := None |};
         promises := <[p := Fulfilled h]> (promises rt);
         loaded := {[ h ]} ∪ loaded rt;
         nextHandle := nextHandle rt;
         nextPromise := nextPromise rt;
         loadsStarted := loadsStarted rt;
         fetched := fetched rt ++ evs |}
  | Some error =>
      {| session := {| ffmpeg := None; isLoading := false; loadingPromise := None |};
         promises := <[p := Rejected (initializationError error)]> (promises rt);
         loaded := loaded rt;
         nextHandle := nextHandle rt;
         nextPromise := nextPromise rt;
         loadsStarted := loadsStarted rt;
         fetched := fetched rt ++ evs |}
  end.

(** What a caller that awaits the returned promise observes now. *)
Definition observe (r : Returned) (rt : Runtime) : PromiseState :=
  match r with
  | ResolvesWith h => Fulfilled h
  | Follows p => default Pending (promises rt !! p)
  end.

(** A handle is ready when its [load] has completed. *)
Definition ready (h : Handle) (rt : Runtime) : bool :=
  bool_decide (h ∈ loaded rt).

(** [n] further calls of [getFFmpeg], with what each one returns. *)
Fixpoint callers (n : nat) (rt : Runtime) : list Returned * Runtime :=
  match n with
  | O => ([], rt)
  | S n' =>
      let '(r, rt') := getFFmpeg rt in
      let '(rs, rt'') := callers n' rt' in
      (r :: rs, rt'')
  end.

(** The text of a thrown value. *)
Definition textOf (e : Thrown) : string :=
  match e with
  | ErrorObj message => message
  | NonError text | Falsy text => text
  end.

(** [wraps e cause]: the message of [e] contains the text of [cause]. *)
Definition wraps (e cause : Thrown) : bool :=
  match String.index 0 (textOf cause) (textOf e) with
  | Some _ => true
  | None => false
  end.

(** A network on which every request is refused. *)
Definition offline : Network := fun _ _ => inl (ErrorObj "Failed to fetch").

(** A network that answers every request. *)
Definition online : Network :=
  fun _ _ => inr {| ok := true; status := 200; body := [] |}.

(** Collaborators with which [ffmpeg.load] is rejected with a value that
    is not an [Error]. *)
Definition loadRejects : LoadEnv :=
  {| coreNet := online; wasmNet := online; workerNet := online;
     blobError := None; loadError := Some (NonError "worker crashed") |}.

(** Collaborators with which no resource can be fetched. *)
Definition noNetwork : LoadEnv :=
  {| coreNet := offline; wasmNet := offline; workerNet := offline;
     blobError := None; loadError := None |}.

End Encoder.

(* ===================================================================== *)
(** ** Reading a frame index back from a file name *)
(* ===================================================================== *)

Module FrameIndex.

Local Open Scope string_scope.

Definition isDigit (c : ascii) : bool :=
  ((48 <=? N_of_ascii c) && (N_of_ascii c <=? 57))%N.

Definition digitValue (c : ascii) : Z := Z.of_N (N_of_ascii c) - 48.

(** The decimal number at the beginning of a string, as the [%d] of the
    encoder's input pattern reads it. *)
Fixpoint readDigits (acc : Z) (s : string) : Z :=
  match s with
  | String c rest =>
      if isDigit c then readDigits (10 * acc + digitValue c) rest else acc
  | EmptyString => acc
  end.

Fixpoint dropChars (k : nat) (s : string) : string :=
  match k, s with
  | S k', String _ rest => dropChars k' rest
  | _, _ => s
  end.

(** The frame index that the pattern [frames/frame%06d.png] finds in a
    file name. *)
Definition frameIndexOf (name : string) : Z :=
  readDigits 0 (dropChars 12 name).

Fixpoint allDigits (s : string) : bool :=
  match s with
  | String c rest => isDigit c && allDigits rest
  | EmptyString => true
  end.

End FrameIndex.

(* ===================================================================== *)
(** ** The history of an export *)
(* ===================================================================== *)

Module ExportLog.

Import JsNum Exporter.

(** The request after the defaults are filled in. *)
Definition resolvedDuration (o : VideoExportOptions) : float := default 3%float (duration o).
Definition resolvedFps (o : VideoExportOptions) : float := default 30%float (fps o).
Definition resolvedWidth (o : VideoExportOptions) : Z := default 1920 (width o).
Definition resolvedHeight (o : VideoExportOptions) : Z := default 1080 (height o).
Definition resolvedQuality (o : VideoExportOptions) : Z := default 23 (quality o).
Definition resolvedAnimations (o : VideoExportOptions) : list Timeline.Animation :=
  default defaultAnimations (animations o).
Definition resolvedTotal (o : VideoExportOptions) : floored :=
  totalFrames (resolvedDuration o) (resolvedFps o).

(** The descriptor that [exportToVideo] builds for a frame. *)
Definition descriptor (o : VideoExportOptions) (frame : Z) : RenderFrame :=
  {| time := frameTime (resolvedTotal o) frame;
     frameWidth := resolvedWidth o;
     frameHeight := resolvedHeight o;
     frameAnimations := resolvedAnimations o |}.

(** Neither the rasteriser nor the write of a frame is rejected. *)
Definition frameOk (env : Env) (o : VideoExportOptions) (frame : Z) : bool :=
  match captureFrame env (descriptor o frame) with
  | inl _ => false
  | inr _ =>
      match writeFileError env (FrameNames.frameName frame) with
      | Some _ => false
      | None => true
      end
  end.

(** The calls of the encoder after the capture phase. *)
Definition isEncoderPass (e : Event) : bool :=
  match e with
  | Exec _ _ | ReadFile _ | DeleteDir _ | Delete _ => true
  | _ => false
  end.

Definition encoderPasses (l : list Event) : list Event := List.filter isEncoderPass l.

(** The steps of the capture phase. *)
Definition isFrameStep (e : Event) : bool :=
  match e with
  | CaptureFrame _ _ | WriteFile _ => true
  | _ => false
  end.

(** The world when the capture loop starts: the frame directory exists and
    the clone is in the document. *)
Definition prepared (w : World) : World :=
  {| fs := <["frames"%string := Dir]> (fs w);
     cloneAttached := true;
     log := (log w ++ [CreateDir "frames"]) ++ [AppendClone] |}.

(** The encoder pass that follows the capture loop inside the [try]. *)
Definition encodePass (env : Env) (o : VideoExportOptions) : M bytes :=
  ffmpeg_exec env (resolvedFps o) (resolvedQuality o) ;;;
  data <- ffmpeg_readFile env "output.mp4" ;;
  ffmpeg_deleteDir env "frames" ;;;
  ffmpeg_delete env "output.mp4" ;;;
  ret data.

(** The [finally] block. *)
Definition detachClone : M unit :=
  w <- getWorld ;;
  if cloneAttached w then (emit RemoveClone ;;; setClone false) else ret tt.

(** The capture loop of a request. *)
Definition captureAll (env : Env) (fuel : nat) (o : VideoExportOptions) : M unit :=
  captureLoop env fuel (resolvedTotal o) (resolvedWidth o) (resolvedHeight o)
    (resolvedAnimations o) 0.

(** A frame count for which the loop body never runs. *)
Definition noFrames (total : floored) : bool := negb (int_lt_floored 0 total).

End ExportLog.

(* ===================================================================== *)
(** ** What the capture phase has started *)
(* ===================================================================== *)

Module Started.

Import JsNum Schedule.

(** The frames whose capture has been started, in the order of the starts. *)
Definition starts (tr : list Ev) : list Z :=
  flat_map (fun e => match e with Start f => [f] | _ => [] end) tr.

(** The number of frames below the loop variable and below the total. *)
Definition startedUpTo (total : floored) (next : Z) : Z :=
  match total with
  | FInt n => Z.min next n
  | FInf false => next
  | _ => 0
  end.

End Started.

(* ===================================================================== *)
(** ** Directives that the timeline driver animates *)
(* ===================================================================== *)

Module Directives.

Import Timeline.

(** A directive for which the [switch] of [applyAnimations] has a case. *)
Definition animated (a : Animation) : bool :=
  match type a with
  | three_d => false
  | _ => true
  end.

(** A tween of the timeline whose whole extent lies in [0, total]. *)
Definition scheduledWithin (total : Q) (entry : Q * Tween) : Prop :=
  (0 <= fst entry)%Q /\ (0 < tweenDuration (snd entry))%Q /\
  (fst entry + tweenDuration (snd entry) <= total)%Q /\
  exists t, varsOf t = Some (vars (snd entry)).

Definition sameProp (p q : StyleProp) : bool :=
  match p, q with
  | PX, PX | PScale, PScale | PRotation, PRotation | POpacity, POpacity => true
  | _, _ => false
  end.

(** A property that a tween, or some tween of a timeline, animates. *)
Definition inVars (p : StyleProp) (vs : list (StyleProp * Q * Q)) : bool :=
  existsb (fun v => sameProp (fst (fst v)) p) vs.

Definition touched (p : StyleProp) (placed : list (Q * Tween)) : bool :=
  existsb (fun entry => inVars p (vars (snd entry))) placed.

Definition writesTransform (vs : list (StyleProp * Q * Q)) : bool :=
  inVars PX vs || inVars PScale vs || inVars PRotation vs.

Definition transformed (placed : list (Q * Tween)) : bool :=
  existsb (fun entry => writesTransform (vars (snd entry))) placed.

(** The value from which, and the value to which, the [switch] animates a
    property, whatever the directive kind. *)
Definition startValue (p : StyleProp) : Q :=
  match p with
  | PX => -(100)
  | PScale => 0
  | PRotation => -(180)
  | POpacity => 0
  end.

Definition endValue (p : StyleProp) : Q :=
  match p with
  | PX => 0
  | PScale => 1
  | PRotation => 0
  | POpacity => 1
  end.

(** A pass over the timeline that renders every tween, each at a ratio
    equal to [c]. *)
Definition rendersAt (step : Element -> Q * Tween -> Element) (c : Q)
    (placed : list (Q * Tween)) : Prop :=
  forall entry acc, In entry placed ->
    exists t ratio, varsOf t = Some (vars (snd entry)) /\ (ratio == c)%Q /\
                    step acc entry = renderVars ratio (vars (snd entry)) acc.

(** An element on which an earlier slide has left its offset. *)
Definition slidAway : Element :=
  {| styleTransform := Some {| offsetX := -(100); scaleXY := 1; rotationDeg := 0 |};
     styleOpacity := 0;
     cache := {| offsetX := -(100); scaleXY := 1; rotationDeg := 0 |} |}.

End Directives.

(* ===================================================================== *)
(** ** The capture of one frame ([captureFrame]) *)
(* ===================================================================== *)

Module Capture.

Import Exporter.

(** What the browser answers once the timeline driver has settled: the
    rasteriser of the 2D path ([html2canvas], then [canvas.toBlob] and
    [blob.arrayBuffer]), and the 3D compositing path
    ([AnimationRenderer.render3DFrame]). *)
Record Browser : Type := mkBrowser {
  rasterise : RenderFrame -> Thrown + bytes;
  render3DFrame : RenderFrame -> Thrown + bytes
}.

(** [a.type === '3d'] *)
Definition is3d (a : Timeline.Animation) : bool :=
  match Timeline.type a with
  | Timeline.three_d => true
  | _ => false
  end.

(** [captureFrame(frame)]: await [applyAnimations], then take the 3D path
    when some directive is ['3d'] and the 2D path otherwise; a failure is
    logged and thrown again. The promise of [applyAnimations] settles as
    [Timeline.settlement] tells, whatever the element is. *)
Definition captureFrame (browser : Browser) (frame : RenderFrame) : Thrown + bytes :=
  match Timeline.settlement (time frame) (frameAnimations frame) with
  | Some error => inl error
  | None =>
      if existsb is3d (frameAnimations frame)
      then render3DFrame browser frame
      else rasterise browser frame
  end.

(** The collaborators of an export whose frames are captured by
    [captureFrame] in the browser, the rest being those of [encoder]. *)
Definition withCapture (browser : Browser) (encoder : Env) : Env :=
  {| getFFmpeg := getFFmpeg encoder;
     createDirError := createDirError encoder;
     Exporter.captureFrame := captureFrame browser;
     writeFileError := writeFileError encoder;
     execResult := execResult encoder;
     readFileError := readFileError encoder;
     deleteDirError := deleteDirError encoder;
     deleteError := deleteError encoder |}.

(** A browser in which both paths deliver. *)
Definition rendering (raster : RenderFrame -> bytes) : Browser :=
  {| rasterise := fun frame => inr (raster frame);
     render3DFrame := fun frame => inr (raster frame) |}.

(** A request with an explicit list of directives. *)
Definition animatedRequest (duration fps : float)
    (animations : list Timeline.Animation) : VideoExportOptions :=
  {| duration := Some duration; fps := Some fps; width := None; height := None;
     quality := None; animations := Some animations |}.

End Capture.

(* ===================================================================== *)
(** ** Outcomes of single attempts and the time spent waiting *)
(* ===================================================================== *)

Module Retry.

Import Encoder.

(** What the [try] block of the [k]-th request, made for [url], yields. *)
Definition outcomeOf (net : Network) (k : nat) (url : string) : Thrown + Response :=
  fst (attempt net url {| calls := k; events := [] |}).

(** The milliseconds spent in [setTimeout]. *)
Definition totalSleep (l : list FetchEvent) : Z :=
  fold_right Z.add 0 (sleeps l).

(** A network on which every request is rejected with [undefined]. *)
Definition silent : Network := fun _ _ => inl (Falsy "undefined").

(** A network that answers [503] to the first [k0] requests and [200] to
    the later ones. *)
Definition flaky (k0 : nat) : Network :=
  fun k _ =>
    if (k <? k0)%nat
    then inr {| ok := false; status := 503; body := [] |}
    else inr {| ok := true; status := 200; body := [] |}.

End Retry.

(* ===================================================================== *)
(** ** The encoder session under every order of calls and completions *)
(* ===================================================================== *)

Module SessionMachine.

Import Encoder.

(** The module state together with the loading functions that have been
    started and have not finished, named by their promises. *)
Record Config : Type := mkConfig {
  runtime : Runtime;
  inflight : list PromiseId
}.

(** A call of [getFFmpeg] reaches [isLoading = true] and starts a loading
    function. *)
Definition startsLoad (rt : Runtime) : bool :=
  match ffmpeg (session rt) with
  | Some _ => false
  | None =>
      match isLoading (session rt), loadingPromise (session rt) with
      | true, Some _ => false
      | _, _ => true
      end
  end.

Inductive step : Config -> Config -> Prop :=
| step_call : forall c,
    step c {| runtime := (getFFmpeg (runtime c)).2;
              inflight := if startsLoad (runtime c)
                          then inflight c ++ [nextPromise (runtime c)]
                          else inflight c |}
| step_settle : forall c env p,
    In p (inflight c) ->
    step c {| runtime := completeLoad env p (runtime c);
              inflight := List.remove Nat.eq_dec p (inflight c) |}.

Inductive reachable : Config -> Prop :=
| reach_boot : reachable {| runtime := boot; inflight := [] |}
| reach_step : forall c c', reachable c -> step c c' -> reachable c'.

(** No loading function runs: the session is uninitialised or ready. *)
Definition idle (rt : Runtime) : Prop :=
  isLoading (session rt) = false /\
  loadingPromise (session rt) = None /\
  forall h, ffmpeg (session rt) = Some h -> h ∈ loaded rt.

(** The loading function of promise [p] runs. *)
Definition loading (rt : Runtime) (p : PromiseId) : Prop :=
  exists h,
    session rt = {| ffmpeg := Some h; isLoading := true; loadingPromise := Some p |} /\
    (h ∉ loaded rt) /\
    promises rt !! p = Some Pending.

Definition Consistent (c : Config) : Prop :=
  (forall h, h ∈ loaded (runtime c) -> (h < nextHandle (runtime c))%nat) /\
  (forall h, ffmpeg (session (runtime c)) = Some h -> (h < nextHandle (runtime c))%nat) /\
  match inflight c with
  | [] => idle (runtime c)
  | [p] => loading (runtime c) p
  | _ => False
  end.

End SessionMachine.

(* ===================================================================== *)
(** ** The callers ([ExportControls], [VideoExportControls]) *)
(* ===================================================================== *)

Module ExportControls.

Import Exporter.

Record QualityPreset : Type := mkQualityPreset {
  label : string;
  presetWidth : Z;
  presetHeight : Z
}.

Definition QUALITY_PRESETS : list QualityPreset :=
  [ {| label := "4K"; presetWidth := 3840; presetHeight := 2160 |};
    {| label := "2K"; presetWidth := 2560; presetHeight := 1440 |};
    {| label := "1080p"; presetWidth := 1920; presetHeight := 1080 |};
    {| label := "720p"; presetWidth := 1280; presetHeight := 720 |} ].

Record AnimationPreset : Type := mkAnimationPreset {
  animationLabel : string;
  presetAnimations : list Timeline.Animation
}.

Definition directive (t : Timeline.AnimType) (duration : Q) (delay : option Q)
    : Timeline.Animation :=
  {| Timeline.type := t; Timeline.duration := Some duration;
     Timeline.delay := delay; Timeline.easing := None |}.

Definition ANIMATION_PRESETS : list AnimationPreset :=
  [ {| animationLabel := "Simple Fade";
       presetAnimations := [directive Timeline.fade 1 None] |};
    {| animationLabel := "Slide & Fade";
       presetAnimations := [directive Timeline.slide 1 None;
                            directive Timeline.fade (4 # 5) (Some (1 # 5))] |};
    {| animationLabel := "Zoom In";
       presetAnimations := [directive Timeline.zoom (6 # 5) None] |};
    {| animationLabel := "Rotate";
       presetAnimations := [directive Timeline.rotate (3 # 2) None] |} ].

(** The state [videoSettings]. *)
Record VideoSettings : Type := mkVideoSettings {
  duration : float;
  fps : float;
  quality : string;
  width : Z;
  height : Z;
  animationPreset : string
}.

(** [QUALITY_PRESETS.find(p => p.label === videoSettings.quality)
     || QUALITY_PRESETS[2]] *)
Definition chosenPreset (s : VideoSettings) : QualityPreset :=
  match List.find (fun p => String.eqb (label p) (quality s)) QUALITY_PRESETS with
  | Some p => p
  | None => nth 2 QUALITY_PRESETS {| label := ""; presetWidth := 0; presetHeight := 0 |}
  end.

(** [ANIMATION_PRESETS.find(p => p.label === videoSettings.animationPreset)
     ?.animations] *)
Definition chosenAnimations (s : VideoSettings) : option (list Timeline.Animation) :=
  option_map presetAnimations
    (List.find (fun p => String.eqb (animationLabel p) (animationPreset s))
       ANIMATION_PRESETS).

(** The options that [handleExport] of [VideoExportControls] passes to
    [exportToVideo]: its settings, which have no directives. *)
Definition handleExportOptions (duration fps : float) (width height : Z)
    : VideoExportOptions :=
  {| Exporter.duration := Some duration;
     Exporter.fps := Some fps;
     Exporter.width := Some width;
     Exporter.height := Some height;
     Exporter.quality := None;
     Exporter.animations := None |}.

(** The options that [exportAsVideo] passes to [exportToVideo]. *)
Definition exportOptions (s : VideoSettings) : VideoExportOptions :=
  {| Exporter.duration := Some (duration s);
     Exporter.fps := Some (fps s);
     Exporter.width := Some (presetWidth (chosenPreset s));
     Exporter.height := Some (presetHeight (chosenPreset s));
     Exporter.quality := None;
     Exporter.animations := chosenAnimations s |}.

End ExportControls.

(* ===================================================================== *)
(** ** Chart suggestions (the data processors bundled in [ffmpeg.ts]) *)
(* ===================================================================== *)

Module Charts.

Local Open Scope string_scope.
Local Open Scope nat_scope.

(** An entry of the extracted data: [{ name: string; value: number }]. *)
Record Entity : Type := mkEntity { name : string; value : float }.

(** [String.prototype.includes]. *)
Definition includes (s needle : string) : bool :=
  match String.index 0 needle s with Some _ => true | None => false end.

(** [Array.prototype.includes] on an array of strings. *)
Definition arrayIncludes (l : list string) (x : string) : bool :=
  existsb (String.eqb x) l.

(** [findRelationships]: the three arguments are the lengths of the
    arrays that the language library returns for the three patterns. *)
Definition findRelationships (comparisons temporal hierarchical : nat) : list string :=
  let relationships := [] in
  let relationships :=
    if 0 <? comparisons then (relationships ++ ["comparison"])%list else relationships in
  let relationships :=
    if 0 <? temporal then (relationships ++ ["temporal"])%list else relationships in
  let relationships :=
    if 0 <? hierarchical then (relationships ++ ["hierarchical"])%list else relationships in
  relationships.

(** [suggestVisualization]. *)
Definition suggestVisualization (text : string) (entities : list Entity)
    (relationships : list string) : string :=
  if arrayIncludes relationships "temporal" then "line"
  else if arrayIncludes relationships "hierarchical" then "treemap"
  else if arrayIncludes relationships "comparison" then
    (if 4 <? length entities then "bar" else "pie")
  else if length entities <=? 5 then "pie"
  else if length entities <=? 10 then "bar"
  else "treemap".

Section Suggestions.

(** [String.prototype.toLowerCase], left to the runtime. *)
Variable toLowerCase : string -> string.

Definition hasComparison (context : string) : bool :=
  includes context "versus" || includes context "vs" || includes context "compared".

Definition hasOverlap (context : string) : bool :=
  includes context "both" || includes context "also".

(** The charts pushed by the three tests of [suggestVisualizations],
    before the final test for an empty array. *)
Definition pushedCharts (input : string) (data : list Entity) : list string :=
  let context := toLowerCase input in
  let suggestedCharts := [] in
  let suggestedCharts :=
    if length data <=? 3 then (suggestedCharts ++ ["pie"])%list else suggestedCharts in
  let suggestedCharts :=
    if hasComparison context || (3 <? length data)
    then (suggestedCharts ++ ["bar"])%list else suggestedCharts in
  let suggestedCharts :=
    if hasOverlap context || (5 <? length data)
    then (suggestedCharts ++ ["treemap"])%list else suggestedCharts in
  suggestedCharts.

(** The theme chosen by [suggestVisualizations]. *)
Definition suggestedTheme (input : string) : string :=
  let context := toLowerCase input in
  if includes context "nature" || includes context "environment" then "Forest"
  else if includes context "water" || includes context "sea" then "Ocean"
  else if includes context "modern" || includes context "tech" then "Cyberpunk"
  else if includes context "soft" || includes context "gentle" then "Aurora"
  else if hasComparison context then "Sunset"
  else "Modern".

(** [suggestVisualizations]: the pair [(suggestedCharts, suggestedTheme)]. *)
Definition suggestVisualizations (input : string) (data : list Entity)
    : list string * string :=
  let suggestedCharts := pushedCharts input data in
  let suggestedCharts :=
    if (length suggestedCharts =? 0)%nat then (suggestedCharts ++ ["pie"])%list
    else suggestedCharts in
  (suggestedCharts, suggestedTheme input).

End Suggestions.

End Charts.

(* ===================================================================== *)
(** * Verified properties *)
(* ===================================================================== *)

(* ===================================================================== *)
(** ** Facts about frame file names *)
(* ===================================================================== *)

Module FrameNamesFacts.

Import FrameNames.
Local Open Scope string_scope.

Lemma app_nil_l (b : string) : "" ++ b = b.
Proof. reflexivity. Qed.

Lemma app_cons (c : ascii) (a b : string) : String c a ++ b = String c (a ++ b).
Proof. reflexivity. Qed.

Lemma string_app_assoc (a b c : string) : (a ++ b) ++ c = a ++ (b ++ c).
Proof.
  induction a as [|ch a IH]; [reflexivity|].
  now rewrite !app_cons, IH.
Qed.

Lemma string_length_app (a b : string) :
  String.length (a ++ b) = (String.length a + String.length b)%nat.
Proof.
  induction a as [|ch a IH]; [reflexivity|].
  rewrite app_cons. simpl. now rewrite IH.
Qed.

Lemma repeatChar_snoc (c : ascii) (k : nat) :
  repeatChar c k ++ String c "" = String c (repeatChar c k).
Proof.
  induction k as [|k IH]; [reflexivity|].
  simpl repeatChar. now rewrite app_cons, IH.
Qed.

Lemma fixedDigits_zero (k : nat) : fixedDigits k 0 = repeatChar "0" k.
Proof.
  induction k as [|k IH]; simpl; [reflexivity|].
  change (0 / 10)%Z with 0%Z. rewrite IH. apply repeatChar_snoc.
Qed.

Lemma fixedDigits_length (k : nat) (n : Z) : String.length (fixedDigits k n) = k.
Proof.
  revert n; induction k as [|k IH]; intro n; simpl; [reflexivity|].
  rewrite string_length_app, IH. simpl. lia.
Qed.

(** The accumulator of [toStringAux] only collects the low digits. *)
Lemma toStringAux_acc (fuel : nat) : forall n acc,
  toStringAux fuel n acc = toStringAux fuel n "" ++ acc.
Proof.
  induction fuel as [|fuel IH]; intros n acc; simpl.
  - reflexivity.
  - destruct (n / 10 =? 0)%Z; [reflexivity|].
    rewrite IH. rewrite (IH _ (String _ "")).
    now rewrite string_app_assoc.
Qed.

(** With enough fuel, padding the digits of [n] to width [k] gives the
    fixed-width rendering. *)
Lemma padded_toStringAux (k : nat) : forall fuel n,
  (0 <= n < 2 ^ (Z.of_nat fuel + 1))%Z ->
  (n < 10 ^ Z.of_nat (S k))%Z ->
  let s := toStringAux fuel n "" in
  (String.length s <= S k)%nat /\
  repeatChar "0" (S k - String.length s) ++ s = fixedDigits (S k) n.
Proof.
  induction k as [|k IH]; intros fuel n Hfuel Hn.
  - (* one digit *)
    assert (Hd : (n / 10 = 0)%Z) by (apply Z.div_small; lia).
    cbv zeta. destruct fuel as [|fuel]; simpl; rewrite ?Hd; simpl; auto.
  - cbv zeta.
    destruct (Z.eq_dec (n / 10) 0) as [Hd|Hd].
    + assert (Hs : toStringAux fuel n "" = String (digitChar (n mod 10)) "").
      { destruct fuel; simpl; [reflexivity|]. now rewrite Hd. }
      rewrite Hs. split; [simpl; lia|].
      change (fixedDigits (S (S k)) n)
        with (fixedDigits (S k) (n / 10) ++ String (digitChar (n mod 10)) "").
      rewrite Hd, fixedDigits_zero. reflexivity.
    + destruct fuel as [|fuel].
      { exfalso. apply Hd. apply Z.div_small. simpl in Hfuel. lia. }
      assert (Hs : toStringAux (S fuel) n ""
                   = toStringAux fuel (n / 10) "" ++ String (digitChar (n mod 10)) "").
      { simpl. apply Z.eqb_neq in Hd. rewrite Hd. apply toStringAux_acc. }
      rewrite Hs.
      assert (Hfuel' : (0 <= n / 10 < 2 ^ (Z.of_nat fuel + 1))%Z).
      { split; [apply Z.div_pos; lia|].
        apply Z.div_lt_upper_bound; [lia|].
        replace (Z.of_nat (S fuel) + 1)%Z with (Z.succ (Z.of_nat fuel + 1))%Z in Hfuel by lia.
        rewrite Z.pow_succ_r in Hfuel by lia. lia. }
      assert (Hn' : (n / 10 < 10 ^ Z.of_nat (S k))%Z).
      { apply Z.div_lt_upper_bound; [lia|].
        replace (Z.of_nat (S (S k))) with (Z.succ (Z.of_nat (S k))) in Hn by lia.
        rewrite Z.pow_succ_r in Hn by lia. lia. }
      destruct (IH fuel (n / 10)%Z Hfuel' Hn') as [Hlen Heq].
      rewrite string_length_app. simpl String.length. split; [lia|].
      change (fixedDigits (S (S k)) n)
        with (fixedDigits (S k) (n / 10) ++ String (digitChar (n mod 10)) "").
      rewrite <- Heq, string_app_assoc.
      replace (S (S k) - (String.length (toStringAux fuel (n / 10) "") + 1))%nat
        with (S k - String.length (toStringAux fuel (n / 10) ""))%nat by lia.
      reflexivity.
Qed.

Lemma padStart_toString (k : nat) (n : Z) :
  (0 <= n < 10 ^ Z.of_nat (S k))%Z ->
  padStart (S k) "0" (toString n) = fixedDigits (S k) n.
Proof.
  intros Hn. unfold padStart, toString.
  apply padded_toStringAux; [|lia].
  split; [lia|].
  destruct (Z.eq_dec n 0) as [->|Hz]; [simpl; lia|].
  rewrite Z2Nat.id by apply Z.log2_nonneg.
  replace (Z.log2 n + 1)%Z with (Z.succ (Z.log2 n)) by lia.
  apply Z.log2_spec. lia.
Qed.

(** *** The lexicographic order *)

Lemma ascii_compare_refl (c : ascii) : Ascii.compare c c = Eq.
Proof. unfold Ascii.compare. apply N.compare_refl. Qed.

Lemma compare_app_prefix (p a b : string) :
  String.compare (p ++ a) (p ++ b) = String.compare a b.
Proof.
  induction p as [|c p IH]; simpl; [reflexivity|].
  now rewrite ascii_compare_refl.
Qed.

Lemma compare_app_lt (a : string) : forall b x y,
  String.length a = String.length b ->
  String.compare a b = Lt ->
  String.compare (a ++ x) (b ++ y) = Lt.
Proof.
  induction a as [|c a IH]; intros [|d b] x y Hlen Hlt; simpl in *; try discriminate.
  destruct (Ascii.compare c d); try discriminate; [|reflexivity].
  apply IH; [lia | assumption].
Qed.

Lemma digitChar_lt (a b : Z) :
  (0 <= a < b)%Z -> (b < 10)%Z ->
  Ascii.compare (digitChar a) (digitChar b) = Lt.
Proof.
  intros Hab Hb. unfold Ascii.compare, digitChar.
  rewrite !N_ascii_embedding by lia.
  apply N.compare_lt_iff. lia.
Qed.

Lemma fixedDigits_lt (k : nat) : forall i j,
  (0 <= i < j)%Z -> (j < 10 ^ Z.of_nat k)%Z ->
  String.compare (fixedDigits k i) (fixedDigits k j) = Lt.
Proof.
  induction k as [|k IH]; intros i j Hij Hj.
  - simpl in Hj. lia.
  - simpl.
    assert (Hle : (i / 10 <= j / 10)%Z) by (apply Z.div_le_mono; lia).
    destruct (Z.eq_dec (i / 10) (j / 10)) as [He|Hne].
    + rewrite He, compare_app_prefix. simpl.
      assert (Hm : (0 <= i mod 10 < j mod 10)%Z).
      { pose proof (Z.div_mod i 10 ltac:(lia)). pose proof (Z.div_mod j 10 ltac:(lia)).
        pose proof (Z.mod_pos_bound i 10 ltac:(lia)). lia. }
      rewrite digitChar_lt; [reflexivity | lia |].
      pose proof (Z.mod_pos_bound j 10 ltac:(lia)). lia.
    + apply compare_app_lt; [now rewrite !fixedDigits_length|].
      apply IH; [split; [apply Z.div_pos; lia | lia]|].
      apply Z.div_lt_upper_bound; [lia|].
      replace (Z.of_nat (S k)) with (Z.succ (Z.of_nat k)) in Hj by lia.
      rewrite Z.pow_succ_r in Hj by lia. lia.
Qed.

Lemma frameName_fixed (n : Z) :
  (0 <= n < 1000000)%Z ->
  frameName n = "frames/frame" ++ fixedDigits 6 n ++ ".png".
Proof.
  intros Hn. unfold frameName. now rewrite padStart_toString by (simpl; lia).
Qed.

(** C7 (as amended): for frame indices [i < j] below one million, the
    file name of frame [i] is smaller than the file name of frame [j] in
    the lexicographic order on strings, so lexical and numeric order of
    the six-digit names coincide. *)
Theorem frameName_order_below_million (i j : Z) :
  (0 <= i)%Z -> (i < j)%Z -> (j < 1000000)%Z ->
  str_lt (frameName i) (frameName j) = true.
Proof.
  intros Hi Hij Hj. unfold str_lt, String.ltb.
  rewrite !frameName_fixed by lia.
  rewrite compare_app_prefix.
  rewrite (compare_app_lt _ _ ".png" ".png"); [reflexivity | |].
  - now rewrite !fixedDigits_length.
  - apply fixedDigits_lt; [lia | simpl; lia].
Qed.

Lemma frameName_order_below_million_witness :
  str_lt (frameName 9) (frameName 10) = true.
Proof. apply (frameName_order_below_million 9 10); lia. Defined.

(** C7, as stated, fails: an export of 40000 seconds at 30 frames per
    second has 1200000 frames; its frames 999999 and 1000000 are named in
    the opposite lexical order, because the second name has seven digits. *)
Lemma frameName_order_counterexample :
  Exporter.totalFrames 40000 30 = JsNum.FInt 1200000 /\
  frameName 999999 = "frames/frame999999.png" /\
  frameName 1000000 = "frames/frame1000000.png" /\
  str_lt (frameName 999999) (frameName 1000000) = false /\
  str_lt (frameName 1000000) (frameName 999999) = true.
Proof. vm_compute. repeat split. Qed.

End FrameNamesFacts.

(* ===================================================================== *)
(** ** Facts about the frame pipeline orchestrator *)
(* ===================================================================== *)

Module ExporterFacts.

Import JsNum Exporter.

Lemma capturedTimes_app (l1 l2 : list Event) :
  capturedTimes (l1 ++ l2) = capturedTimes l1 ++ capturedTimes l2.
Proof. apply flat_map_app. Qed.

Lemma writtenFiles_app (l1 l2 : list Event) :
  writtenFiles (l1 ++ l2) = writtenFiles l1 ++ writtenFiles l2.
Proof. apply flat_map_app. Qed.

Lemma map_seq_from {A} (len : nat) : forall (f : nat -> A) (start : nat),
  map f (seq start len) = map (fun j => f (start + j)%nat) (seq 0 len).
Proof.
  induction len as [|len IH]; intros f start; [reflexivity|].
  simpl. rewrite Nat.add_0_r. f_equal.
  rewrite (IH f (S start)), (IH (fun j => f (start + j)%nat) 1%nat).
  apply map_ext. intro j. f_equal. lia.
Qed.

Lemma framesFrom_app (i : Z) (a b : nat) :
  framesFrom i (a + b) = framesFrom i a ++ framesFrom (i + Z.of_nat a) b.
Proof.
  unfold framesFrom. rewrite seq_app, map_app. f_equal.
  rewrite map_seq_from. apply map_ext. intro j. lia.
Qed.

Lemma framesFrom_zero (c : nat) : framesFrom 0 c = map Z.of_nat (seq 0 c).
Proof. unfold framesFrom. apply map_ext. intro j. lia. Qed.

Lemma framesFrom_bounds (i : Z) (c : nat) (f : Z) :
  In f (framesFrom i c) <-> (i <= f < i + Z.of_nat c)%Z.
Proof.
  unfold framesFrom. rewrite in_map_iff. split.
  - intros (j & <- & Hj). apply in_seq in Hj. lia.
  - intros Hf. exists (Z.to_nat (f - i)). split; [lia|]. apply in_seq. lia.
Qed.

Lemma range_bounds (n f : Z) : In f (range n) <-> (0 <= f < n)%Z.
Proof.
  unfold range. rewrite <- framesFrom_zero, framesFrom_bounds. lia.
Qed.

Lemma range_NoDup (n : Z) : List.NoDup (range n).
Proof.
  unfold range. apply Finite.Injective_map_NoDup; [|apply seq_NoDup].
  intros a b. apply Nat2Z.inj.
Qed.

Section WithEnv.

Variable env : Env.
Variable total : floored.
Variables (width height : Z) (anims : list Timeline.Animation).

Lemma capturedTimes_captureEvents (frames : list Z) :
  capturedTimes (captureEvents total width height anims frames) = timed total frames.
Proof.
  induction frames as [|f rest IH]; [reflexivity|].
  simpl. now rewrite IH.
Qed.

Lemma writtenFiles_captureEvents (frames : list Z) :
  writtenFiles (captureEvents total width height anims frames) = [].
Proof. induction frames as [|f rest IH]; [reflexivity | exact IH]. Qed.

Lemma startBatch_spec (frames : list Z) : forall w,
  startBatch total width height anims frames w
  = (Returned tt,
     {| fs := fs w; cloneAttached := cloneAttached w;
        log := log w ++ captureEvents total width height anims frames |}).
Proof.
  induction frames as [|f rest IH]; intro w.
  - simpl. rewrite app_nil_r. now destruct w.
  - simpl. unfold bind, startCapture, emit. rewrite IH. simpl.
    now rewrite <- app_assoc.
Qed.

Lemma writeCaptured_spec (frame : Z) (w : World) :
  let '(r, w') := writeCaptured env total width height anims frame w in
  capturedTimes (log w') = capturedTimes (log w) /\
  cloneAttached w' = cloneAttached w /\
  match r with
  | Returned name =>
      name = FrameNames.frameName frame /\
      writtenFiles (log w') = writtenFiles (log w) ++ [FrameNames.frameName frame]
  | Threw _ => writtenFiles (log w') = writtenFiles (log w)
               \/ writtenFiles (log w') = writtenFiles (log w) ++ [FrameNames.frameName frame]
  | OutOfFuel => False
  end.
Proof.
  unfold writeCaptured, ffmpeg_writeFile, bind, emit, orThrow, setFs, ret, throw.
  destruct (captureFrame env _) as [err|data]; simpl; [auto|].
  destruct (writeFileError env _) as [err|]; simpl;
    rewrite ?capturedTimes_app, ?writtenFiles_app; simpl;
    rewrite ?app_nil_r; auto.
Qed.

Lemma settleBatch_spec (frames : list Z) : forall w,
  let '(r, w') := settleBatch env total width height anims frames w in
  capturedTimes (log w') = capturedTimes (log w) /\
  cloneAttached w' = cloneAttached w /\
  match r with
  | Returned names =>
      writtenFiles (log w') = writtenFiles (log w) ++ map FrameNames.frameName frames
  | Threw _ => True
  | OutOfFuel => False
  end.
Proof.
  induction frames as [|frame rest IH]; intro w.
  - simpl. rewrite !app_nil_r. auto.
  - simpl.
    pose proof (writeCaptured_spec frame w) as H1.
    destruct (writeCaptured env total width height anims frame w) as [r1 w1].
    destruct H1 as (Hc1 & Ha1 & Hr1).
    pose proof (IH w1) as H2.
    destruct (settleBatch env total width height anims rest w1) as [r2 w2].
    destruct H2 as (Hc2 & Ha2 & Hr2).
    destruct r1 as [name|e|]; [|simpl; intuition congruence|contradiction].
    destruct Hr1 as [_ Hw1].
    destruct r2 as [names|e|]; [|intuition congruence|contradiction].
    repeat split; [congruence | congruence |].
    rewrite Hr2, Hw1, <- app_assoc. reflexivity.
Qed.

Lemma runBatch_spec (frames : list Z) : forall w,
  let '(r, w') := runBatch env total width height anims frames w in
  capturedTimes (log w') = capturedTimes (log w) ++ timed total frames /\
  cloneAttached w' = cloneAttached w /\
  match r with
  | Returned names =>
      writtenFiles (log w') = writtenFiles (log w) ++ map FrameNames.frameName frames
  | Threw _ => True
  | OutOfFuel => False
  end.
Proof.
  intro w. unfold runBatch, bind. rewrite startBatch_spec.
  match goal with
  | |- context [settleBatch env total width height anims frames ?w0] =>
      pose proof (settleBatch_spec frames w0) as H;
      destruct (settleBatch env total width height anims frames w0) as [r w']
  end.
  simpl in H. rewrite capturedTimes_app, writtenFiles_app, capturedTimes_captureEvents,
    writtenFiles_captureEvents, app_nil_r in H.
  exact H.
Qed.

End WithEnv.

Section Loop.

Variable env : Env.
Variable n : Z.
Variables (width height : Z) (anims : list Timeline.Animation).

(** The capture loop for a finite frame count: it captures the frames
    [i, i+1, ...] in order, each with its normalised time, stops early only
    when a batch is rejected, and needs one unit of fuel for each batch. *)
Lemma captureLoop_spec (fuel : nat) : forall i w,
  (0 <= i)%Z ->
  let '(r, w') := captureLoop env fuel (FInt n) width height anims i w in
  exists c : nat,
    (c <= Z.to_nat (n - i))%nat /\
    capturedTimes (log w') = capturedTimes (log w) ++ timed (FInt n) (framesFrom i c) /\
    cloneAttached w' = cloneAttached w /\
    match r with
    | Returned _ =>
        c = Z.to_nat (n - i) /\
        writtenFiles (log w') =
          writtenFiles (log w) ++ map FrameNames.frameName (framesFrom i c)
    | Threw _ => True
    | OutOfFuel => (Z.of_nat fuel * batchSize < n - i)%Z
    end.
Proof.
  induction fuel as [|fuel IH]; intros i w Hi.
  - simpl. destruct (Z.ltb_spec i n) as [Hlt|Hge].
    + exists O. simpl. rewrite !app_nil_r. repeat split; try lia.
    + exists O. simpl. rewrite !app_nil_r. repeat split; try lia.
  - simpl. destruct (Z.ltb_spec i n) as [Hlt|Hge].
    + unfold bind.
      pose proof (runBatch_spec env (FInt n) width height anims
                    (batchFrames (FInt n) i) w) as Hb.
      destruct (runBatch env (FInt n) width height anims (batchFrames (FInt n) i) w)
        as [rb wb].
      destruct Hb as (Hcb & Hab & Hrb).
      unfold batchFrames, batchLength, batchSize in *.
      destruct rb as [names|e|]; [| |contradiction].
      * specialize (IH (i + 5)%Z wb ltac:(lia)).
        destruct (captureLoop env fuel (FInt n) width height anims (i + 5) wb)
          as [r w'].
        destruct IH as (c & Hc & Hcap & Hatt & Hr).
        exists (Z.to_nat (Z.min 5 (n - i)) + c)%nat.
        assert (Hjoin : framesFrom i (Z.to_nat (Z.min 5 (n - i)) + c)
                        = framesFrom i (Z.to_nat (Z.min 5 (n - i))) ++ framesFrom (i + 5) c).
        { rewrite framesFrom_app.
          destruct (Z.le_gt_cases 5 (n - i)) as [Hfull|Hlast].
          - rewrite Z.min_l by lia. reflexivity.
          - assert (c = O) by lia. subst c. reflexivity. }
        split; [lia|]. split.
        { rewrite Hcap, Hcb, Hjoin. unfold timed. now rewrite map_app, <- app_assoc. }
        split; [congruence|].
        destruct r as [[]|e|].
        -- destruct Hr as [Hc' Hw]. split; [lia|].
           rewrite Hw, Hrb, Hjoin, map_app, <- app_assoc. reflexivity.
        -- exact I.
        -- unfold batchSize in Hr. lia.
      * exists (Z.to_nat (Z.min 5 (n - i))). split; [lia|]. auto.
    + exists O. simpl. rewrite !app_nil_r. repeat split; try lia.
Qed.

End Loop.

Lemma tryCatch_rethrow {A} (m : M A) (w : World) :
  tryCatch m (fun error => throw error) w = m w.
Proof. unfold tryCatch, throw. destruct (m w) as [[a|e|] w']; reflexivity. Qed.

Lemma lookup_after_deleteDir (m : gmap string Node) (path : string) :
  filter (fun kv : string * Node => inDirectory path kv.1 = false) m !! path = None.
Proof.
  apply map_lookup_filter_None. right. intros x _. simpl.
  unfold inDirectory. rewrite String.eqb_refl. discriminate.
Qed.

Lemma exportPost_early (n : Z) (w : World) (e : Thrown) (w' : World) :
  capturedTimes (log w') = capturedTimes (log w) ->
  exportPost n w (Threw e) w'.
Proof.
  intros Hlog. exists O. simpl. rewrite app_nil_r. auto with lia.
Qed.

Lemma exportPost_late (n : Z) (w : World) (e : Thrown) (w' : World) (c : nat) :
  (c <= Z.to_nat n)%nat ->
  capturedTimes (log w') = capturedTimes (log w) ++ timed (FInt n) (framesFrom 0 c) ->
  exportPost n w (Threw e) w'.
Proof. intros Hc Hlog. exists c. auto. Qed.

(** A failure after the capture loop: the clone is removed and the
    captured frames are those of the loop. *)
Ltac fails_after_capture :=
  match goal with
  | Hatt : cloneAttached _ = true, Hc : (?c <= Z.to_nat _)%nat |- _ =>
      rewrite Hatt; simpl; apply (exportPost_late _ _ _ _ c Hc); simpl;
      rewrite !capturedTimes_app; simpl; now rewrite !app_nil_r
  end.

Lemma exportToVideo_spec (env : Env) (fuel : nat) (options : VideoExportOptions)
    (n : Z) (w : World) :
  totalFrames (default 3%float (duration options)) (default 30%float (fps options)) = FInt n ->
  exportPost n w (exportToVideo env fuel options w).1 (exportToVideo env fuel options w).2.
Proof.
  intros Htotal. unfold exportToVideo. rewrite tryCatch_rethrow.
  destruct (getFFmpeg env) as [err|[|]];
    [apply exportPost_early; reflexivity | | apply exportPost_early; reflexivity].
  rewrite Htotal.
  unfold bind at 1. unfold ffmpeg_createDir, bind, emit, orThrow, setFs, ret, throw.
  simpl.
  destruct (createDirError env "frames") as [err|]; simpl.
  { apply exportPost_early. simpl. rewrite capturedTimes_app. simpl. apply app_nil_r. }
  unfold tryFinally, bind, setClone, getWorld. simpl.
  match goal with
  | |- context [captureLoop env fuel (FInt n) ?wd ?ht ?an 0 ?w0] =>
      pose proof (captureLoop_spec env n wd ht an fuel 0 w0 ltac:(lia)) as Hloop;
      destruct (captureLoop env fuel (FInt n) wd ht an 0 w0) as [rl wl]
  end.
  destruct Hloop as (c & Hc & Hcap & Hatt & Hr).
  simpl in Hcap, Hatt.
  rewrite !capturedTimes_app in Hcap. simpl in Hcap. rewrite !app_nil_r in Hcap.
  rewrite Z.sub_0_r in *.
  destruct rl as [[]|e|]; simpl.
  - destruct Hr as [Hcn Hw].
    simpl in Hw. rewrite !writtenFiles_app in Hw. simpl in Hw. rewrite !app_nil_r in Hw.
    unfold ffmpeg_exec, ffmpeg_readFile, ffmpeg_deleteDir, ffmpeg_delete,
      bind, emit, orThrow, setFs, ret, throw, getWorld. simpl.
    destruct (execResult env) as [err|video]; simpl.
    { fails_after_capture. }
    destruct (readFileError env "output.mp4") as [err|]; simpl.
    { fails_after_capture. }
    rewrite lookup_insert_eq. simpl.
    destruct (deleteDirError env "frames") as [err|]; simpl.
    { fails_after_capture. }
    destruct (deleteError env "output.mp4") as [err|]; simpl.
    { fails_after_capture. }
    rewrite Hatt. simpl. exists c. simpl.
    rewrite !capturedTimes_app, !writtenFiles_app. simpl. rewrite !app_nil_r.
    repeat split; auto.
    + rewrite lookup_delete_ne by discriminate. apply lookup_after_deleteDir.
    + apply lookup_delete_eq.
  - fails_after_capture.
  - exists c. auto.
Qed.

(** [Math.floor(duration * fps)] is computed on binary64 values: the
    product is rounded before the floor is taken. *)
Lemma Math_floor_examples :
  totalFrames 3 30 = FInt 90 /\
  totalFrames 0.57 100 = FInt 56 /\
  totalFrames 0.7 10 = FInt 7 /\
  totalFrames 2.5 29.97 = FInt 74 /\
  totalFrames 1e308 10 = FInf false.
Proof. vm_compute. repeat split. Qed.
(** With no option set the export has 3 seconds at 30 frames per second. *)
Lemma default_request_frames :
  totalFrames (default 3%float (duration noOptions)) (default 30%float (fps noOptions))
  = FInt 90.
Proof. vm_compute. reflexivity. Qed.

Lemma capturedFrames_timed (total : floored) (frames : list Z) :
  map fst (timed total frames) = frames.
Proof.
  unfold timed. rewrite map_map. simpl. apply map_id.
Qed.

(** *** Termination with healthy collaborators *)

Lemma settleBatch_healthy (video : bytes) (raster : RenderFrame -> bytes)
    (total : floored) (width height : Z) (anims : list Timeline.Animation)
    (frames : list Z) : forall w,
  (settleBatch (healthy video raster) total width height anims frames w).1
  = Returned (map FrameNames.frameName frames).
Proof.
  induction frames as [|frame rest IH]; intro w; [reflexivity|].
  simpl. unfold writeCaptured, ffmpeg_writeFile, bind, emit, orThrow, setFs, ret.
  simpl.
  match goal with
  | |- context [settleBatch ?e ?t ?wd ?ht ?an rest ?w0] =>
      specialize (IH w0); destruct (settleBatch e t wd ht an rest w0) as [r2 w2]
  end.
  simpl in IH. subst r2. reflexivity.
Qed.

Lemma runBatch_healthy (video : bytes) (raster : RenderFrame -> bytes)
    (total : floored) (width height : Z) (anims : list Timeline.Animation)
    (frames : list Z) : forall w,
  (runBatch (healthy video raster) total width height anims frames w).1
  = Returned (map FrameNames.frameName frames).
Proof.
  intro w. unfold runBatch, bind. rewrite startBatch_spec.
  apply settleBatch_healthy.
Qed.

Lemma captureLoop_healthy (video : bytes) (raster : RenderFrame -> bytes)
    (n width height : Z) (anims : list Timeline.Animation) (fuel : nat) :
  forall i w,
    (n - i <= batchSize * Z.of_nat fuel)%Z ->
    (captureLoop (healthy video raster) fuel (FInt n) width height anims i w).1
    = Returned tt.
Proof.
  unfold batchSize.
  induction fuel as [|fuel IH]; intros i w Hfuel; simpl.
  - destruct (Z.ltb_spec i n); [lia | reflexivity].
  - destruct (Z.ltb_spec i n); [|reflexivity].
    unfold bind.
    pose proof (runBatch_healthy video raster (FInt n) width height anims
                  (batchFrames (FInt n) i) w) as Hb.
    destruct (runBatch _ _ _ _ _ _ w) as [rb wb]. simpl in Hb. subst rb.
    apply IH. unfold batchSize. lia.
Qed.

(** With healthy collaborators and one unit of fuel for each batch the
    export returns the video. *)
Lemma exportToVideo_healthy (video : bytes) (raster : RenderFrame -> bytes)
    (fuel : nat) (options : VideoExportOptions) (n : Z) (w : World) :
  totalFrames (default 3%float (duration options)) (default 30%float (fps options)) = FInt n ->
  (n <= batchSize * Z.of_nat fuel)%Z ->
  (exportToVideo (healthy video raster) fuel options w).1 = Returned video.
Proof.
  intros Htotal Hfuel. unfold exportToVideo. rewrite tryCatch_rethrow. simpl.
  rewrite Htotal.
  unfold bind at 1. unfold ffmpeg_createDir, bind, emit, orThrow, setFs, ret, throw.
  simpl. unfold tryFinally, bind, setClone, getWorld. simpl.
  match goal with
  | |- context [captureLoop ?e fuel (FInt n) ?wd ?ht ?an 0 ?w0] =>
      pose proof (captureLoop_spec e n wd ht an fuel 0 w0 ltac:(lia)) as Hloop;
      pose proof (captureLoop_healthy video raster n wd ht an fuel 0 w0 ltac:(lia)) as Hret;
      destruct (captureLoop e fuel (FInt n) wd ht an 0 w0) as [rl wl]
  end.
  simpl in Hret. subst rl.
  destruct Hloop as (c & _ & _ & Hatt & _). simpl in Hatt.
  unfold ffmpeg_exec, ffmpeg_readFile, ffmpeg_deleteDir, ffmpeg_delete,
    bind, emit, orThrow, setFs, ret, throw, getWorld. simpl.
  rewrite lookup_insert_eq. simpl. rewrite Hatt. reflexivity.
Qed.

(** *** Normalised times *)

Lemma frameTime_bounds (n f : Z) :
  (0 <= f < n)%Z ->
  (frameTime (FInt n) f == inject_Z f / inject_Z n)%Q /\
  (0 <= frameTime (FInt n) f)%Q /\ (frameTime (FInt n) f < 1)%Q.
Proof.
  intros Hf. simpl frameTime. split; [reflexivity|].
  assert (Hn : (inject_Z 0 < inject_Z n)%Q) by (rewrite <- Zlt_Qlt; lia).
  split.
  - apply Qle_shift_div_l; [exact Hn|]. rewrite Qmult_0_l.
    change 0%Q with (inject_Z 0). rewrite <- Zle_Qle. lia.
  - apply Qlt_shift_div_r; [exact Hn|]. rewrite Qmult_1_l.
    rewrite <- Zlt_Qlt. lia.
Qed.

(** *** Cleanup of the encoder's storage *)

Lemma frameName_not_frames (frame : Z) : FrameNames.frameName frame <> "frames"%string.
Proof.
  unfold FrameNames.frameName.
  change ("frames/frame" ++ ?x)%string with
    (String "f" (String "r" (String "a" (String "m" (String "e" (String "s"
      (String "/" ("frame" ++ x)%string))))))).
  discriminate.
Qed.

Section KeepsDirectory.

Variable env : Env.
Variable total : floored.
Variables (width height : Z) (anims : list Timeline.Animation).

Lemma writeCaptured_keeps (frame : Z) (w : World) :
  hasFrames w -> hasFrames (writeCaptured env total width height anims frame w).2.
Proof.
  unfold hasFrames, writeCaptured, ffmpeg_writeFile, bind, emit, orThrow, setFs, ret, throw.
  intros Hw.
  destruct (captureFrame env _) as [err|data]; simpl; [exact Hw|].
  destruct (writeFileError env _) as [err|]; simpl; [exact Hw|].
  rewrite lookup_insert_ne; [exact Hw | apply frameName_not_frames].
Qed.

Lemma settleBatch_keeps (frames : list Z) : forall w,
  hasFrames w -> hasFrames (settleBatch env total width height anims frames w).2.
Proof.
  induction frames as [|frame rest IH]; intros w Hw; [exact Hw|].
  simpl.
  pose proof (writeCaptured_keeps frame w Hw) as H1.
  destruct (writeCaptured env total width height anims frame w) as [[name|e|] w1];
    simpl in H1.
  - specialize (IH w1 H1).
    destruct (settleBatch env total width height anims rest w1) as [[names|e|] w2];
      exact IH.
  - exact (IH w1 H1).
  - exact H1.
Qed.

Lemma runBatch_keeps (frames : list Z) : forall w,
  hasFrames w -> hasFrames (runBatch env total width height anims frames w).2.
Proof.
  intros w Hw. unfold runBatch, bind. rewrite startBatch_spec.
  apply settleBatch_keeps. exact Hw.
Qed.

Lemma captureLoop_keeps (fuel : nat) : forall i w,
  hasFrames w -> hasFrames (captureLoop env fuel total width height anims i w).2.
Proof.
  induction fuel as [|fuel IH]; intros i w Hw; simpl.
  - destruct (int_lt_floored i total); exact Hw.
  - destruct (int_lt_floored i total); [|exact Hw].
    unfold bind.
    pose proof (runBatch_keeps (batchFrames total i) w Hw) as Hb.
    destruct (runBatch env total width height anims (batchFrames total i) w)
      as [[names|e|] wb]; simpl in Hb; [|exact Hb|exact Hb].
    apply IH. exact Hb.
Qed.

End KeepsDirectory.

(** Every failure after the frame directory was created leaves something
    behind in the encoder's storage: the frame directory, or the output
    file when only its removal fails. *)
Lemma exportToVideo_failure_residue (env : Env) (fuel : nat)
    (options : VideoExportOptions) (w w' : World) (e : Thrown) :
  getFFmpeg env = inr true ->
  createDirError env "frames" = None ->
  exportToVideo env fuel options w = (Threw e, w') ->
  fs w' !! "frames"%string = Some Dir \/ is_Some (fs w' !! "output.mp4"%string).
Proof.
  intros Hget Hdir. unfold exportToVideo. rewrite tryCatch_rethrow, Hget.
  unfold bind at 1. unfold ffmpeg_createDir, bind, emit, orThrow, setFs, ret, throw.
  simpl. rewrite Hdir. simpl.
  unfold tryFinally, bind, setClone, getWorld. simpl.
  match goal with
  | |- context [captureLoop env fuel ?t ?wd ?ht ?an 0 ?w0] =>
      pose proof (captureLoop_keeps env t wd ht an fuel 0 w0) as Hkeep;
      destruct (captureLoop env fuel t wd ht an 0 w0) as [rl wl]
  end.
  unfold hasFrames in Hkeep. simpl in Hkeep.
  specialize (Hkeep (lookup_insert_eq _ _ _)).
  destruct rl as [[]|e'|]; simpl.
  - unfold ffmpeg_exec, ffmpeg_readFile, ffmpeg_deleteDir, ffmpeg_delete,
      bind, emit, orThrow, setFs, ret, throw, getWorld. simpl.
    destruct (execResult env) as [err|video]; simpl.
    { destruct (cloneAttached wl); simpl; intros [= _ <-]; simpl; auto. }
    destruct (readFileError env "output.mp4") as [err|]; simpl.
    { destruct (cloneAttached wl); simpl; intros [= _ <-]; simpl; left;
        rewrite lookup_insert_ne by discriminate; exact Hkeep. }
    rewrite lookup_insert_eq. simpl.
    destruct (deleteDirError env "frames") as [err|]; simpl.
    { destruct (cloneAttached wl); simpl; intros [= _ <-]; simpl; left;
        rewrite lookup_insert_ne by discriminate; exact Hkeep. }
    destruct (deleteError env "output.mp4") as [err|]; simpl.
    { destruct (cloneAttached wl); simpl; intros [= _ <-]; simpl; right;
        eexists; (apply map_lookup_filter_Some_2; [apply lookup_insert_eq | reflexivity]). }
    destruct (cloneAttached wl); simpl; discriminate.
  - destruct (cloneAttached wl); simpl; intros [= _ <-]; simpl; auto.
  - discriminate.
Qed.

(** C2: what remains in the encoder's storage after an export in which
    the encode invocation is rejected: the call throws, the clone is
    removed, but the frame directory and the frame written into it stay. *)
Theorem exportToVideo_failure_leaves_frames :
  let '(r, w') := exportToVideo encodeFails 1 (request 1 1) emptyWorld in
  r = Threw (ErrorObj "Encoding failed") /\
  fs w' !! "frames"%string = Some Dir /\
  fs w' !! "frames/frame000000.png"%string = Some (File []) /\
  cloneAttached w' = false.
Proof. vm_compute. auto. Qed.

(** The same after a rejected capture. *)
Lemma exportToVideo_capture_failure_leaves_frames :
  let '(r, w') := exportToVideo captureFails 1 (request 1 1) emptyWorld in
  r = Threw (ErrorObj "Failed to create frame blob") /\
  fs w' !! "frames"%string = Some Dir /\
  cloneAttached w' = false.
Proof. vm_compute. auto. Qed.

(** On the path on which the export returns, both are removed. *)
Lemma exportToVideo_success_cleans_up (env : Env) (fuel : nat) (d f : float)
    (n : Z) (w w' : World) (data : bytes) :
  totalFrames d f = FInt n ->
  exportToVideo env fuel (request d f) w = (Returned data, w') ->
  fs w' !! "frames"%string = None /\ fs w' !! "output.mp4"%string = None.
Proof.
  intros Htotal Hrun.
  pose proof (exportToVideo_spec env fuel (request d f) n w Htotal) as Hspec.
  rewrite Hrun in Hspec. cbn [fst snd] in Hspec.
  destruct Hspec as (c & _ & _ & _ & _ & H1 & H2 & _). auto.
Qed.

End ExporterFacts.

(* ===================================================================== *)
(** ** Facts about the order of captures *)
(* ===================================================================== *)

Module ScheduleFacts.

Import JsNum Schedule.

Lemma int_lt_floored_mono (total : floored) (f g : Z) :
  (f <= g)%Z -> int_lt_floored g total = true -> int_lt_floored f total = true.
Proof.
  destruct total as [n|neg|]; simpl; intros Hfg Hg; try assumption.
  apply Z.ltb_lt in Hg. apply Z.ltb_lt. lia.
Qed.

Lemma batchLength_le (total : floored) (i : Z) :
  (Exporter.batchLength total i <= 5)%nat.
Proof.
  unfold Exporter.batchLength, Exporter.batchSize.
  destruct total as [n|[|]|]; simpl; lia.
Qed.

Lemma batchFrames_length (total : floored) (i : Z) :
  (List.length (Exporter.batchFrames total i) <= 5)%nat.
Proof.
  unfold Exporter.batchFrames, Exporter.framesFrom.
  rewrite length_map, length_seq. apply batchLength_le.
Qed.

(** The batch that starts at [i] consists of the frames of [i, i+5) that
    are below the total. *)
Lemma batchFrames_spec (total : floored) (i f : Z) :
  In f (Exporter.batchFrames total i) <->
  (i <= f < i + 5)%Z /\ int_lt_floored f total = true.
Proof.
  unfold Exporter.batchFrames. rewrite ExporterFacts.framesFrom_bounds.
  unfold Exporter.batchLength, Exporter.batchSize.
  destruct total as [n|[|]|]; simpl.
  - rewrite Z.ltb_lt. lia.
  - intuition (try discriminate; lia).
  - intuition lia.
  - intuition (try discriminate; lia).
Qed.

Lemma In_removeFrame (f g : Z) (l : list Z) :
  In g (removeFrame f l) <-> In g l /\ g <> f.
Proof.
  unfold removeFrame. rewrite filter_In, negb_true_iff, Z.eqb_neq. tauto.
Qed.

Lemma removeFrame_length (f : Z) (l : list Z) :
  (List.length (removeFrame f l) <= List.length l)%nat.
Proof. apply filter_length_le. Qed.

(** Where an event of an extended history lies. *)
Lemma split_extended {A} (tr : list A) : forall ext before e after,
  tr ++ ext = before ++ e :: after ->
  (exists after', tr = before ++ e :: after') \/
  (exists pre, before = tr ++ pre /\ ext = pre ++ e :: after).
Proof.
  induction tr as [|a tr IH]; intros ext before e after Heq.
  - right. exists before. auto.
  - destruct before as [|b before]; simpl in Heq; inversion Heq; subst.
    + left. exists tr. reflexivity.
    + destruct (IH _ _ _ _ H1) as [[after' ->]|[pre [-> ->]]].
      * left. exists after'. reflexivity.
      * right. exists pre. auto.
Qed.

Lemma split_singleton {A} (a e : A) (pre after : list A) :
  [a] = pre ++ e :: after -> pre = [] /\ e = a /\ after = [].
Proof.
  destruct pre as [|b pre]; simpl; intros Heq; inversion Heq; subst; auto.
  destruct pre; discriminate.
Qed.

Lemma sequential_settle (tr : list Ev) (e : Ev) (f : Z) :
  settles e f -> sequential tr -> sequential (tr ++ [e]).
Proof.
  intros Hs Hseq before g after Heq.
  apply split_extended in Heq. destruct Heq as [[after' ->]|[pre [-> Hext]]].
  - eapply Hseq. reflexivity.
  - apply split_singleton in Hext. destruct Hext as (_ & He & _).
    destruct Hs as [->| ->]; discriminate.
Qed.

Section Invariant.

Variable total : floored.

Lemma Inv_initial : Inv total initial.
Proof.
  constructor; simpl.
  - exists 0%Z. unfold Exporter.batchSize. lia.
  - intros f [].
  - lia.
  - intros f Hf. lia.
  - intros f Hf. lia.
  - intros _ f [].
  - intros before g after Heq. destruct before; discriminate.
  - intros before e f after Heq. destruct before; discriminate.
Qed.

(** A settlement, resolved or rejected, of a pending capture. *)
Lemma Inv_settle (s : St) (f : Z) (e : Ev) (flag : bool) :
  Inv total s ->
  In f (pending s) ->
  settles e f ->
  (flag = false -> rejected s = false /\ e = Resolved f) ->
  Inv total {| next := next s; pending := removeFrame f (pending s);
               rejected := flag; trace := trace s ++ [e] |}.
Proof.
  intros [Hnext Hpend Hsize Hstart Hsettled Hrej Hseq Hfan] Hin He Hflag.
  constructor; simpl.
  - exact Hnext.
  - intros g Hg. apply In_removeFrame in Hg. apply Hpend. tauto.
  - pose proof (removeFrame_length f (pending s)). lia.
  - intros g Hg Hgt. apply in_or_app. left. auto.
  - intros g Hg Hgt. destruct (Hsettled g Hg Hgt) as [Hp|[Hr|Hr]].
    + destruct (Z.eq_dec g f) as [->|Hne].
      * right. destruct He as [->| ->]; [left | right];
          apply in_or_app; right; left; reflexivity.
      * left. apply In_removeFrame. auto.
    + right. left. apply in_or_app. auto.
    + right. right. apply in_or_app. auto.
  - intros Hok g Hg. destruct (Hflag Hok) as [Hs ->].
    apply in_app_or in Hg. destruct Hg as [Hg|[Hg|[]]].
    + exact (Hrej Hs g Hg).
    + discriminate.
  - exact (sequential_settle _ _ f He Hseq).
  - intros before e' f' after Heq Hs g Hg Hgt Hb.
    apply split_extended in Heq. destruct Heq as [[after' Heq]|[pre [-> Hext]]].
    + eapply Hfan; eassumption.
    + apply split_singleton in Hext. destruct Hext as (-> & -> & _).
      rewrite app_nil_r.
      assert (f' = f) by (destruct He as [->| ->]; destruct Hs as [Hs|Hs]; congruence).
      subst f'.
      destruct (Hpend f Hin) as (Hr & _ & _).
      destruct Hnext as (k & Hk & Hnext).
      unfold batchOf, Exporter.batchSize in *.
      apply Hstart; [Z.div_mod_to_equations; lia | exact Hgt].
Qed.

(** The launch of the next batch. *)
Lemma Inv_launch (s : St) :
  Inv total s ->
  int_lt_floored (next s) total = true ->
  pending s = [] ->
  rejected s = false ->
  Inv total {| next := next s + Exporter.batchSize;
               pending := Exporter.batchFrames total (next s);
               rejected := false;
               trace := trace s ++ map Start (Exporter.batchFrames total (next s)) |}.
Proof.
  intros [Hnext Hpend Hsize Hstart Hsettled Hrej Hseq Hfan] Hlt Hempty Hok.
  destruct Hnext as (k & Hk & Hnext).
  unfold Exporter.batchSize in *.
  constructor; simpl.
  - exists (k + 1)%Z. unfold Exporter.batchSize. lia.
  - intros f Hf. apply batchFrames_spec in Hf. unfold Exporter.batchSize.
    destruct Hf as [Hr Hf]. repeat split; try lia; exact Hf.
  - unfold Exporter.batchSize. pose proof (batchFrames_length total (next s)). simpl. lia.
  - intros f Hf Hft. apply in_or_app.
    destruct (Z.lt_ge_cases f (next s)) as [Hold|Hnew].
    + left. apply Hstart; [lia | exact Hft].
    + right. apply in_map. apply batchFrames_spec.
      unfold Exporter.batchSize in Hf. split; [lia | exact Hft].
  - intros f Hf Hft.
    destruct (Z.lt_ge_cases f (next s)) as [Hold|Hnew].
    + destruct (Hsettled f ltac:(lia) Hft) as [Hp|[Hr|Hr]].
      * rewrite Hempty in Hp. contradiction.
      * right. left. apply in_or_app. auto.
      * right. right. apply in_or_app. auto.
    + left. apply batchFrames_spec.
      unfold Exporter.batchSize in Hf. split; [lia | exact Hft].
  - intros _ f Hf. apply in_app_or in Hf. destruct Hf as [Hf|Hf].
    + exact (Hrej Hok f Hf).
    + apply in_map_iff in Hf. destruct Hf as (g & Hg & _). discriminate.
  - intros before g after Heq f Hf Hfg.
    apply split_extended in Heq. destruct Heq as [[after' Heq]|[pre [-> Hext]]].
    + eapply Hseq; eassumption.
    + assert (Hg : In (Start g) (map Start (Exporter.batchFrames total (next s)))).
      { rewrite Hext. apply in_or_app. right. left. reflexivity. }
      apply in_map_iff in Hg. destruct Hg as (g' & Hg' & Hin). inversion Hg'; subst g'.
      apply batchFrames_spec in Hin. destruct Hin as [Hr _].
      unfold batchOf, Exporter.batchSize in Hfg.
      assert (Hfn : (f < next s)%Z) by (Z.div_mod_to_equations; lia).
      assert (Hft : int_lt_floored f total = true).
      { apply (int_lt_floored_mono total f (next s)); [lia | exact Hlt]. }
      apply in_or_app. left.
      destruct (Hsettled f ltac:(lia) Hft) as [Hp|[Hres|Hfail]].
      * rewrite Hempty in Hp. contradiction.
      * exact Hres.
      * exfalso. exact (Hrej Hok f Hfail).
  - intros before e f after Heq Hs g Hg Hgt Hb.
    apply split_extended in Heq. destruct Heq as [[after' Heq]|[pre [-> Hext]]].
    + eapply Hfan; eassumption.
    + assert (He : In e (map Start (Exporter.batchFrames total (next s)))).
      { rewrite Hext. apply in_or_app. right. left. reflexivity. }
      apply in_map_iff in He. destruct He as (g' & <- & _).
      destruct Hs as [Hs|Hs]; discriminate.
Qed.

Lemma Inv_step (s s' : St) : Inv total s -> step total s s' -> Inv total s'.
Proof.
  intros Hinv Hstep.
  destruct Hstep as [s Hlt Hempty Hok | s f Hin | s f Hin].
  - now apply Inv_launch.
  - apply Inv_settle; [exact Hinv | exact Hin | left; reflexivity | auto].
  - apply Inv_settle; [exact Hinv | exact Hin | right; reflexivity | discriminate].
Qed.

Lemma Inv_reachable (s : St) : reachable total s -> Inv total s.
Proof.
  induction 1 as [|s s' _ IH Hstep]; [apply Inv_initial | exact (Inv_step s s' IH Hstep)].
Qed.

End Invariant.

(** C4: in every state that the capture phase can reach, under every
    order in which the captures settle: a batch is the part of
    [i, i+5) below the total, so it never has more than 5 frames, and no
    more than 5 captures are in flight; all captures of a batch are
    started before the first of them settles; and a capture of a later
    batch is started only after every capture-and-write of every earlier
    batch has resolved. *)
Theorem batches_bounded_and_sequential (total : floored) (s : St) :
  reachable total s ->
  (forall i f, In f (Exporter.batchFrames total i) <->
     (i <= f < i + 5)%Z /\ int_lt_floored f total = true) /\
  (forall i, (List.length (Exporter.batchFrames total i) <= 5)%nat) /\
  (List.length (pending s) <= 5)%nat /\
  fannedOut total (trace s) /\
  sequential (trace s).
Proof.
  intros Hreach. apply Inv_reachable in Hreach.
  destruct Hreach as [_ _ Hsize _ _ _ Hseq Hfan].
  split; [intros i f; apply batchFrames_spec|].
  split; [intro i; apply batchFrames_length|].
  split; [exact Hsize|].
  split; assumption.
Qed.

Lemma batches_bounded_and_sequential_witness :
  let s := {| next := 5; pending := [0; 2; 4]%Z; rejected := false;
              trace := [Start 0; Start 1; Start 2; Start 3; Start 4;
                        Resolved 3; Resolved 1]%Z |} in
  reachable (FInt 7) s /\ sequential (trace s).
Proof.
  assert (Hreach : reachable (FInt 7)
            {| next := 5; pending := [0; 2; 4]%Z; rejected := false;
               trace := [Start 0; Start 1; Start 2; Start 3; Start 4;
                         Resolved 3; Resolved 1]%Z |}).
  { eapply reach_step; [eapply reach_step; [eapply reach_step; [apply reach_init|]|]|].
    - apply step_launch; reflexivity.
    - apply (step_resolve _ _ 3%Z). simpl. auto.
    - apply (step_resolve (FInt 7)
               {| next := 5; pending := [0; 1; 2; 4]%Z; rejected := false;
                  trace := [Start 0; Start 1; Start 2; Start 3; Start 4; Resolved 3]%Z |}
               1%Z).
      simpl. auto. }
  split; [exact Hreach|].
  apply (batches_bounded_and_sequential (FInt 7) _ Hreach).
Defined.

End ScheduleFacts.

(* ===================================================================== *)
(** ** Facts about the animation timeline driver *)
(* ===================================================================== *)

Module TimelineFacts.

Import Timeline Directives.
Local Open Scope Q_scope.

Lemma orDefault_nonzero (v : option Q) (d : Q) :
  ~ d == 0 -> ~ orDefault v d == 0.
Proof.
  intros Hd. unfold orDefault. destruct v as [q|]; [|exact Hd].
  destruct (Qeq_bool q 0) eqn:E; [exact Hd|].
  now apply Qeq_bool_neq.
Qed.

Lemma style_eq_refl (s : Style) : style_eq s s.
Proof. unfold style_eq. repeat split; reflexivity. Qed.

Lemma wellTimed_positive (a : Animation) :
  wellTimed a -> 0 < orDefault (duration a) 1 /\ 0 <= orDefault (delay a) 0.
Proof.
  intros [Hdur Hdel]. split; [|exact Hdel].
  pose proof (orDefault_nonzero (duration a) 1 ltac:(discriminate)) as Hnz.
  apply Qle_lt_or_eq in Hdur. destruct Hdur as [H|H]; [exact H|].
  exfalso. apply Hnz. symmetry. exact H.
Qed.

(** *** The timeline that the [forEach] builds *)

Lemma tweenOf_animated (a : Animation) :
  animated a = false -> tweenOf a = None.
Proof.
  unfold animated, tweenOf. destruct (type a); simpl; congruence.
Qed.

Lemma tweenOf_some (a : Animation) :
  animated a = true ->
  exists tw, tweenOf a = Some tw /\
    varsOf (type a) = Some (vars tw) /\
    tweenDuration tw = orDefault (duration a) 1 /\
    tweenDelay tw = orDefault (delay a) 0.
Proof.
  unfold animated, tweenOf. destruct (type a); simpl; intros H;
    try discriminate; eexists; repeat split.
Qed.

Lemma place_filter (anims : list Animation) : forall cursor,
  place cursor (List.filter animated anims) = place cursor anims.
Proof.
  induction anims as [|a rest IH]; intro cursor; [reflexivity|].
  simpl. destruct (animated a) eqn:Ha.
  - simpl. destruct (tweenOf a) as [tw|]; [|apply IH]. now rewrite IH.
  - rewrite (tweenOf_animated a Ha). apply IH.
Qed.

Lemma scheduledWithin_later (total total' : Q) (entry : Q * Tween) :
  total <= total' -> scheduledWithin total entry -> scheduledWithin total' entry.
Proof.
  intros Hle (H0 & Hd & Hend & Hv). repeat split; try assumption. Lqa.lra.
Qed.

(** Every tween of the timeline lies between 0 and the total duration. *)
Lemma place_scheduled (anims : list Animation) : forall cursor,
  Forall wellTimed anims ->
  0 <= cursor ->
  cursor <= snd (place cursor anims) /\
  Forall (scheduledWithin (snd (place cursor anims))) (fst (place cursor anims)).
Proof.
  induction anims as [|a rest IH]; intros cursor Hall Hc.
  - simpl. split; [Lqa.lra | constructor].
  - inversion Hall as [|a' rest' Ha Hrest]; subst.
    simpl. destruct (animated a) eqn:Han.
    + destruct (tweenOf_some a Han) as (tw & Htw & Hvars & Hdur & Hdel).
      destruct (wellTimed_positive a Ha) as [Hpos Hnn].
      rewrite Htw.
      specialize (IH (cursor + tweenDelay tw + tweenDuration tw) Hrest).
      rewrite Hdur, Hdel in *.
      destruct (place (cursor + orDefault (delay a) 0 + orDefault (duration a) 1) rest)
        as [placed total] eqn:Hplace.
      simpl in *. destruct (IH ltac:(Lqa.lra)) as [Hle Hforall].
      split; [Lqa.lra|]. constructor; [|exact Hforall].
      unfold scheduledWithin. simpl. rewrite Hdur.
      repeat split; try Lqa.lra. exists (type a). exact Hvars.
    + rewrite (tweenOf_animated a Han). apply IH; assumption.
Qed.

Lemma place_nonempty (anims : list Animation) : forall cursor,
  existsb animated anims = true -> fst (place cursor anims) <> [].
Proof.
  induction anims as [|a rest IH]; intros cursor Hex; [discriminate|].
  simpl in *. destruct (animated a) eqn:Han.
  - destruct (tweenOf_some a Han) as (tw & Htw & _). rewrite Htw.
    destruct (place _ rest). simpl. discriminate.
  - rewrite (tweenOf_animated a Han). apply IH. exact Hex.
Qed.

Lemma place_empty (anims : list Animation) : forall cursor,
  existsb animated anims = false -> place cursor anims = ([], cursor).
Proof.
  induction anims as [|a rest IH]; intros cursor Hex; [reflexivity|].
  simpl in *. apply orb_false_iff in Hex. destruct Hex as [Ha Hrest].
  rewrite (tweenOf_animated a Ha). apply IH. exact Hrest.
Qed.

(** A timeline with a tween has a positive duration. *)
Lemma place_positive (anims : list Animation) :
  Forall wellTimed anims ->
  existsb animated anims = true ->
  0 < snd (place 0 anims).
Proof.
  intros Hall Hex.
  destruct (place_scheduled anims 0 Hall ltac:(Lqa.lra)) as [_ Hsched].
  pose proof (place_nonempty anims 0 Hex) as Hne.
  destruct (place 0 anims) as [placed total]. simpl in *.
  destruct placed as [|entry rest]; [congruence|].
  inversion Hsched as [|e l (H0 & Hd & Hend & _) _]; subst. Lqa.lra.
Qed.

(** *** How the promise settles *)

Lemma settlement_empty (progress : Q) (anims : list Animation) :
  existsb animated anims = false -> settlement progress anims = None.
Proof.
  intros Hex. unfold settlement. rewrite (place_empty anims 0 Hex).
  assert (H : Qle_bool 0 (progress * 0) = true).
  { apply Qle_bool_iff. Lqa.lra. }
  rewrite H. reflexivity.
Qed.

Lemma settlement_end (anims : list Animation) : settlement 1 anims = None.
Proof.
  unfold settlement. destruct (place 0 anims) as [placed total].
  assert (H : Qle_bool total (1 * total) = true).
  { apply Qle_bool_iff. Lqa.lra. }
  rewrite H. reflexivity.
Qed.

(** Before the end of a timeline with a tween the promise is rejected. *)
Lemma settlement_before_end (progress : Q) (anims : list Animation) :
  Forall wellTimed anims ->
  existsb animated anims = true ->
  progress < 1 ->
  settlement progress anims = Some timelineUpdateError.
Proof.
  intros Hall Hex Hp. pose proof (place_positive anims Hall Hex) as Hpos.
  unfold settlement. destruct (place 0 anims) as [placed total]. simpl in Hpos.
  destruct (Qle_bool total (progress * total)) eqn:E; [|reflexivity].
  apply Qle_bool_iff in E. exfalso.
  assert (H : progress * total < 1 * total).
  { apply Qmult_lt_compat_r; assumption. }
  Lqa.lra.
Qed.

Lemma applyAnimations_settlement (parseEase : string -> Q -> Q) (element : Element)
    (progress : Q) (anims : list Animation) :
  fst (applyAnimations parseEase element progress anims) = settlement progress anims.
Proof.
  unfold applyAnimations. destruct (place 0 anims). reflexivity.
Qed.

(** *** What a tween writes *)

Lemma varsOf_values (t : AnimType) (vs : list (StyleProp * Q * Q))
    (p : StyleProp) (from to : Q) :
  varsOf t = Some vs -> In (p, from, to) vs ->
  inVars p vs = true /\ from = startValue p /\ to = endValue p.
Proof.
  destruct t; intros [= <-]; simpl;
    intuition (try discriminate;
               match goal with H : (_, _, _) = (_, _, _) |- _ => inversion H; subst end;
               reflexivity).
Qed.

Lemma varsOf_opacity (t : AnimType) (vs : list (StyleProp * Q * Q)) :
  varsOf t = Some vs -> inVars POpacity vs = true.
Proof. destruct t; intros [= <-]; reflexivity. Qed.

Lemma renderVars_held (t : AnimType) (vs : list (StyleProp * Q * Q)) (ratio : Q)
    (e : Element) (p : StyleProp) :
  varsOf t = Some vs ->
  held p (renderVars ratio vs e)
  = if inVars p vs then startValue p + (endValue p - startValue p) * ratio
    else held p e.
Proof. destruct t; intros [= <-]; destruct p; reflexivity. Qed.

Lemma renderVars_transform (t : AnimType) (vs : list (StyleProp * Q * Q)) (ratio : Q)
    (e : Element) :
  varsOf t = Some vs ->
  styleTransform (renderVars ratio vs e)
  = if writesTransform vs then Some (cache (renderVars ratio vs e))
    else styleTransform e.
Proof. destruct t; intros [= <-]; reflexivity. Qed.

Lemma renderVars_cache (t : AnimType) (vs : list (StyleProp * Q * Q)) (ratio : Q)
    (e : Element) :
  varsOf t = Some vs -> writesTransform vs = false ->
  cache (renderVars ratio vs e) = cache e.
Proof. destruct t; intros [= <-]; simpl; intros H; try discriminate; reflexivity. Qed.

Section Folded.

Variable step : Element -> Q * Tween -> Element.
Variable c : Q.

Lemma rendersAt_tail (entry : Q * Tween) (rest : list (Q * Tween)) :
  rendersAt step c (entry :: rest) -> rendersAt step c rest.
Proof. intros H e acc Hin. apply H. now right. Qed.

Lemma pass_held (placed : list (Q * Tween)) : forall e p,
  rendersAt step c placed ->
  (touched p placed = true ->
   held p (fold_left step placed e) == startValue p + (endValue p - startValue p) * c) /\
  (touched p placed = false -> held p (fold_left step placed e) = held p e).
Proof.
  induction placed as [|entry rest IH]; intros e p Hr.
  - simpl. split; [discriminate | reflexivity].
  - destruct (Hr entry e ltac:(now left)) as (t & ratio & Hv & Hratio & Hstep).
    destruct (IH (step e entry) p (rendersAt_tail _ _ Hr)) as [IHt IHu].
    pose proof (renderVars_held t _ ratio e p Hv) as Hheld.
    simpl. destruct (touched p rest) eqn:Hrest.
    + rewrite orb_true_r. split; [intros _; apply IHt; reflexivity | discriminate].
    + rewrite orb_false_r. rewrite (IHu eq_refl), Hstep, Hheld.
      destruct (inVars p (vars (snd entry))).
      * split; [intros _; now rewrite Hratio | discriminate].
      * split; [discriminate | reflexivity].
Qed.

Lemma pass_cache (placed : list (Q * Tween)) : forall e,
  rendersAt step c placed -> transformed placed = false ->
  cache (fold_left step placed e) = cache e.
Proof.
  induction placed as [|entry rest IH]; intros e Hr Hnone; [reflexivity|].
  destruct (Hr entry e ltac:(now left)) as (t & ratio & Hv & _ & Hstep).
  simpl in *. apply orb_false_iff in Hnone. destruct Hnone as [Hw Hrest].
  rewrite (IH (step e entry) (rendersAt_tail _ _ Hr) Hrest), Hstep.
  apply (renderVars_cache t); assumption.
Qed.

Lemma pass_transform (placed : list (Q * Tween)) : forall e,
  rendersAt step c placed ->
  styleTransform (fold_left step placed e)
  = if transformed placed then Some (cache (fold_left step placed e))
    else styleTransform e.
Proof.
  induction placed as [|entry rest IH]; intros e Hr; [reflexivity|].
  destruct (Hr entry e ltac:(now left)) as (t & ratio & Hv & _ & Hstep).
  pose proof (renderVars_transform t _ ratio e Hv) as Htr.
  pose proof (IH (step e entry) (rendersAt_tail _ _ Hr)) as IH'.
  simpl. rewrite IH'. destruct (transformed rest) eqn:Hrest.
  - now rewrite orb_true_r.
  - rewrite orb_false_r, Hstep, Htr.
    destruct (writesTransform (vars (snd entry))) eqn:Hw; [|reflexivity].
    f_equal. symmetry. rewrite <- Hstep.
    apply pass_cache; [exact (rendersAt_tail _ _ Hr) | assumption].
Qed.

End Folded.

Lemma presentation_held (e : Element) (p : StyleProp) :
  styleTransform e = Some (cache e) \/ p = POpacity ->
  propOf p (presentation e) = held p e.
Proof.
  intros [H| ->]; [|reflexivity].
  unfold presentation. rewrite H. destruct p; reflexivity.
Qed.

Lemma inVars_writes (p : StyleProp) (vs : list (StyleProp * Q * Q)) :
  inVars p vs = true -> p <> POpacity -> writesTransform vs = true.
Proof.
  unfold writesTransform. intros H Hp.
  destruct p; try congruence; rewrite H; rewrite ?orb_true_r; reflexivity.
Qed.

Lemma touched_transformed (p : StyleProp) (placed : list (Q * Tween)) :
  touched p placed = true -> p <> POpacity -> transformed placed = true.
Proof.
  unfold touched, transformed. rewrite !existsb_exists.
  intros (entry & Hin & Hv) Hp. exists entry. split; [exact Hin|].
  now apply (inVars_writes p).
Qed.

Section Endpoints.

Variable parseEase : string -> Q -> Q.

(** Every ease of the animation library starts at 0 and ends at 1. *)
Hypothesis ease_start : forall name, parseEase name 0 == 0.
Hypothesis ease_end : forall name, parseEase name 1 == 1.

Lemma firstRender_rendersAt (total : Q) (placed : list (Q * Tween)) :
  Forall (scheduledWithin total) placed -> rendersAt (firstRender parseEase) 0 placed.
Proof.
  intros Hall [start tw] acc Hin.
  destruct (proj1 (List.Forall_forall _ _) Hall _ Hin) as (_ & _ & _ & t & Ht).
  exists t, (parseEase (tweenEase tw) 0). split; [exact Ht|].
  split; [apply ease_start | reflexivity].
Qed.

Lemma seek_start (total : Q) (placed : list (Q * Tween)) (e : Element) :
  seek parseEase (0 * total) placed e = e.
Proof.
  unfold seek.
  assert (H : Qeq_bool (0 * total) 0 = true) by (apply Qeq_bool_iff; Lqa.lra).
  now rewrite H.
Qed.

Lemma seek_end (total : Q) (placed : list (Q * Tween)) (e : Element) :
  0 < total ->
  seek parseEase (1 * total) placed e = fold_left (renderAt parseEase (1 * total)) placed e.
Proof.
  intros Hpos. unfold seek.
  destruct (Qeq_bool (1 * total) 0) eqn:E; [|reflexivity].
  apply Qeq_bool_iff in E. Lqa.lra.
Qed.

Lemma ratioAt_finished (total : Q) (entry : Q * Tween) :
  scheduledWithin total entry ->
  ratioAt parseEase (1 * total) (fst entry) (snd entry) == 1.
Proof.
  intros (H0 & Hd & Hend & _). unfold ratioAt.
  destruct (Qle_bool (1 * total - fst entry) 0) eqn:E.
  - apply Qle_bool_iff in E. Lqa.lra.
  - destruct (Qle_bool (tweenDuration (snd entry)) (1 * total - fst entry)) eqn:E2;
      [apply ease_end|].
    exfalso.
    assert (H : tweenDuration (snd entry) <= 1 * total - fst entry) by Lqa.lra.
    apply Qle_bool_iff in H. congruence.
Qed.

Lemma renderAt_rendersAt (total : Q) (placed : list (Q * Tween)) :
  Forall (scheduledWithin total) placed -> rendersAt (renderAt parseEase (1 * total)) 1 placed.
Proof.
  intros Hall [start tw] acc Hin.
  pose proof (proj1 (List.Forall_forall _ _) Hall _ Hin) as Hs.
  pose proof (ratioAt_finished total (start, tw) Hs) as Hratio.
  destruct Hs as (H0 & Hd & Hend & t & Ht). simpl in *.
  exists t, (ratioAt parseEase (1 * total) start tw). split; [exact Ht|].
  split; [exact Hratio|].
  assert (H : Qle_bool start (1 * total) = true) by (apply Qle_bool_iff; Lqa.lra).
  now rewrite H.
Qed.

(** The element right after the call at progress 0: every property that
    some directive animates is at its start value, the other properties
    are as the reset left them, and the transform is written exactly when
    a directive animates one of its components. *)
Lemma applyAnimations_at_start (element : Element) (anims : list Animation) :
  Forall wellTimed anims ->
  let placed := fst (place 0 anims) in
  let e0 := snd (applyAnimations parseEase element 0 anims) in
  (forall p, touched p placed = true -> held p e0 == startValue p) /\
  (forall p, touched p placed = false -> held p e0 = held p (reset element)) /\
  styleTransform e0 = if transformed placed then Some (cache e0) else None.
Proof.
  intros Hall.
  destruct (place_scheduled anims 0 Hall ltac:(Lqa.lra)) as [_ Hsched].
  unfold applyAnimations. destruct (place 0 anims) as [placed total].
  cbn [fst snd] in *. rewrite seek_start. unfold immediateRender.
  pose proof (firstRender_rendersAt total placed Hsched) as Hr.
  split; [|split].
  - intros p Hp. destruct (pass_held (firstRender parseEase) 0 placed (reset element) p Hr) as [H _].
    rewrite (H Hp). Lqa.lra.
  - intros p Hp. destruct (pass_held (firstRender parseEase) 0 placed (reset element) p Hr) as [_ H].
    exact (H Hp).
  - apply (pass_transform (firstRender parseEase) 0 placed (reset element) Hr).
Qed.

(** The same at progress 1, with the end values. *)
Lemma applyAnimations_at_end (element : Element) (anims : list Animation) :
  Forall wellTimed anims ->
  let placed := fst (place 0 anims) in
  let e1 := snd (applyAnimations parseEase element 1 anims) in
  (forall p, touched p placed = true -> held p e1 == endValue p) /\
  (forall p, touched p placed = false -> held p e1 = held p (reset element)) /\
  styleTransform e1 = if transformed placed then Some (cache e1) else None.
Proof.
  intros Hall.
  destruct (place_scheduled anims 0 Hall ltac:(Lqa.lra)) as [_ Hsched].
  destruct (existsb animated anims) eqn:Hex.
  - pose proof (place_positive anims Hall Hex) as Hpos.
    unfold applyAnimations. destruct (place 0 anims) as [placed total].
    cbn [fst snd] in *. rewrite (seek_end total placed _ Hpos). unfold immediateRender.
    pose proof (firstRender_rendersAt total placed Hsched) as Hr0.
    pose proof (renderAt_rendersAt total placed Hsched) as Hr1.
    set (e' := fold_left (firstRender parseEase) placed (reset element)).
    split; [|split].
    + intros p Hp. destruct (pass_held (renderAt parseEase (1 * total)) 1 placed e' p Hr1) as [H _].
      rewrite (H Hp). Lqa.lra.
    + intros p Hp.
      destruct (pass_held (renderAt parseEase (1 * total)) 1 placed e' p Hr1) as [_ H].
      rewrite (H Hp). unfold e'.
      destruct (pass_held (firstRender parseEase) 0 placed (reset element) p Hr0) as [_ H'].
      exact (H' Hp).
    + rewrite (pass_transform (renderAt parseEase (1 * total)) 1 placed e' Hr1).
      destruct (transformed placed) eqn:Htr; [reflexivity|].
      unfold e'. rewrite (pass_transform (firstRender parseEase) 0 placed (reset element) Hr0), Htr.
      reflexivity.
  - unfold applyAnimations. rewrite (place_empty anims 0 Hex). cbn [fst snd].
    unfold seek. simpl. destruct (Qeq_bool (1 * 0) 0); simpl; repeat split; intros; discriminate.
Qed.

Lemma neutral_end (p : StyleProp) : propOf p neutral = endValue p.
Proof. destruct p; reflexivity. Qed.

Lemma held_reset (element : Element) (p : StyleProp) :
  untransformed element -> held p (reset element) == propOf p neutral.
Proof. intros (Hx & Hs & Hr). destruct p; simpl; try assumption. reflexivity. Qed.

(** What is seen of an element that had no transform, given what the call
    left: the properties that some directive animates are at the [value]
    shown, the others are those of the neutral presentation. *)
Lemma presentation_after (element e : Element) (placed : list (Q * Tween))
    (value : StyleProp -> Q) (p : StyleProp) :
  untransformed element ->
  (forall q, touched q placed = true -> held q e == value q) ->
  (forall q, touched q placed = false -> held q e = held q (reset element)) ->
  styleTransform e = (if transformed placed then Some (cache e) else None) ->
  propOf p (presentation e) == if touched p placed then value p else propOf p neutral.
Proof.
  intros Hun Ht Hu Htr.
  destruct (transformed placed) eqn:Hplaced.
  - rewrite (presentation_held e p (or_introl Htr)).
    destruct (touched p placed) eqn:Hp; [now apply Ht|].
    rewrite (Hu p Hp). now apply held_reset.
  - assert (Hno : forall q, q <> POpacity -> touched q placed = false).
    { intros q Hq. destruct (touched q placed) eqn:Hp; [|reflexivity].
      rewrite (touched_transformed q placed Hp Hq) in Hplaced. discriminate. }
    destruct p.
    1-3: rewrite Hno by discriminate; unfold presentation; rewrite Htr; reflexivity.
    rewrite (presentation_held e POpacity (or_intror eq_refl)).
    destruct (touched POpacity placed) eqn:Hp; [now apply Ht|].
    rewrite (Hu _ Hp). reflexivity.
Qed.

(** At progress 1 every list of directives leaves an element that had no
    transform in the neutral presentation. *)
Lemma presentation_at_end (element : Element) (anims : list Animation) :
  Forall wellTimed anims ->
  untransformed element ->
  style_eq (presentation (snd (applyAnimations parseEase element 1 anims))) neutral.
Proof.
  intros Hall Hun.
  destruct (applyAnimations_at_end element anims Hall) as (Ht & Hu & Htr).
  assert (H : forall p,
             propOf p (presentation (snd (applyAnimations parseEase element 1 anims)))
             == propOf p neutral).
  { intros p.
    rewrite (presentation_after element _ (fst (place 0 anims)) endValue p Hun Ht Hu Htr).
    rewrite neutral_end. now destruct (touched p (fst (place 0 anims))). }
  unfold style_eq.
  exact (conj (H PX) (conj (H PScale) (conj (H PRotation) (H POpacity)))).
Qed.

Lemma single_placed (a : Animation) :
  animated a = true ->
  exists tw, varsOf (type a) = Some (vars tw) /\
    fst (place 0 [a]) = [(0 + orDefault (delay a) 0, tw)].
Proof.
  intros Han. destruct (tweenOf_some a Han) as (tw & Htw & Hv & _ & Hdel).
  exists tw. split; [exact Hv|]. simpl. rewrite Htw, Hdel. reflexivity.
Qed.

Lemma unanimated_call (element : Element) (progress : Q) (anims : list Animation) :
  existsb animated anims = false ->
  applyAnimations parseEase element progress anims = (None, reset element).
Proof.
  intros Hex. unfold applyAnimations.
  rewrite (settlement_empty progress anims Hex), (place_empty anims 0 Hex).
  unfold seek. simpl. now destruct (Qeq_bool (progress * 0) 0).
Qed.

(** C8: for every directive kind, applying a directive at progress 0
    leaves the element in the directive's from-state and at progress 1 in
    its to-state: every property of the [fromTo] call of the kind has its
    start value at 0 and its end value at 1 (fade: opacity 0 to 1; slide:
    horizontal offset -100 to 0 with the opacity; zoom: scale 0 to 1 with
    the opacity; rotate: rotation -180 to 0 with the opacity), whatever
    the element was before; on an element that had no transform the whole
    presentation is the from-state, then the to-state. The promise of the
    call at progress 0 is rejected all the same, that of the call at
    progress 1 is resolved. A ['3d'] directive is not animated: the call
    only resets the element, at every progress. *)
Theorem applyAnimations_endpoints (element : Element) (a : Animation) :
  wellTimed a ->
  let '(r0, e0) := applyAnimations parseEase element 0 [a] in
  let '(r1, e1) := applyAnimations parseEase element 1 [a] in
  (forall vs p from to,
     varsOf (type a) = Some vs -> In (p, from, to) vs ->
     propOf p (presentation e0) == from /\ propOf p (presentation e1) == to) /\
  (untransformed element ->
     style_eq (presentation e0) (fromState (type a)) /\
     style_eq (presentation e1) (toState (type a))) /\
  (type a <> three_d -> r0 = Some timelineUpdateError /\ r1 = None) /\
  (type a = three_d ->
     forall progress,
       applyAnimations parseEase element progress [a] = (None, reset element)).
Proof.
  intros Hw.
  assert (Hall : Forall wellTimed [a]) by (constructor; [exact Hw | constructor]).
  pose proof (applyAnimations_at_start element [a] Hall) as H0.
  pose proof (applyAnimations_at_end element [a] Hall) as H1.
  pose proof (applyAnimations_settlement parseEase element 0 [a]) as Hs0.
  pose proof (applyAnimations_settlement parseEase element 1 [a]) as Hs1.
  pose proof (presentation_at_end element [a] Hall) as Hend.
  destruct (applyAnimations parseEase element 0 [a]) as [r0 e0].
  destruct (applyAnimations parseEase element 1 [a]) as [r1 e1].
  cbn [fst snd] in *. cbv zeta in H0, H1.
  destruct H0 as (Ht0 & Hu0 & Htr0). destruct H1 as (Ht1 & Hu1 & Htr1).
  split; [|split; [|split]].
  - intros vs p from to Hv Hin.
    assert (Han : animated a = true).
    { unfold animated. destruct (type a); try reflexivity. discriminate. }
    destruct (single_placed a Han) as (tw & Hvars & Hplaced).
    rewrite Hplaced in *. rewrite Hv in Hvars. injection Hvars as ->.
    destruct (varsOf_values (type a) (vars tw) p from to Hv Hin) as (Hp & -> & ->).
    assert (Htouched : touched p [(0 + orDefault (delay a) 0, tw)] = true).
    { simpl. now rewrite Hp. }
    assert (Hshown : forall e,
               styleTransform e
               = (if transformed [(0 + orDefault (delay a) 0, tw)]
                  then Some (cache e) else None) ->
               propOf p (presentation e) = held p e).
    { intros e He. apply presentation_held.
      destruct p; try (right; reflexivity); left;
        rewrite He, (touched_transformed _ _ Htouched ltac:(discriminate)); reflexivity. }
    rewrite (Hshown e0 Htr0), (Hshown e1 Htr1).
    split; [apply Ht0 | apply Ht1]; exact Htouched.
  - intros Hun. split; [|exact (Hend Hun)].
    assert (H : forall p,
               propOf p (presentation e0)
               == if touched p (fst (place 0 [a])) then startValue p
                  else propOf p neutral).
    { intros p. now apply (presentation_after element e0 _ startValue p Hun). }
    pose proof (H PX) as Hx. pose proof (H PScale) as Hsc.
    pose proof (H PRotation) as Hro. pose proof (H POpacity) as Hop.
    clear -Hx Hsc Hro Hop.
    unfold style_eq. destruct a as [ty d dl ea]. destruct ty; simpl in *; auto.
  - intros Hty.
    assert (Han : existsb animated [a] = true).
    { simpl. unfold animated. destruct (type a); try reflexivity. congruence. }
    rewrite Hs0, Hs1. split; [|apply settlement_end].
    apply settlement_before_end; [exact Hall | exact Han | reflexivity].
  - intros Hty progress. apply unanimated_call.
    simpl. unfold animated. now rewrite Hty.
Qed.

End Endpoints.

Lemma power2_inOut_start : power2_inOut 0 == 0.
Proof. reflexivity. Qed.

Lemma power2_inOut_end : power2_inOut 1 == 1.
Proof. reflexivity. Qed.

Lemma applyAnimations_endpoints_witness :
  let a := {| type := zoom; duration := Some (6 # 5); delay := Some (1 # 5);
              easing := None |} in
  let '(r0, e0) := applyAnimations (fun _ => power2_inOut) slidAway 0 [a] in
  let '(r1, e1) := applyAnimations (fun _ => power2_inOut) slidAway 1 [a] in
  (scale (presentation e0) == 0 /\ scale (presentation e1) == 1) /\
  r0 = Some timelineUpdateError /\ r1 = None.
Proof.
  pose proof (applyAnimations_endpoints (fun _ => power2_inOut)
                (fun _ => power2_inOut_start) (fun _ => power2_inOut_end) slidAway
                {| type := zoom; duration := Some (6 # 5); delay := Some (1 # 5);
                   easing := None |}) as H.
  cbv zeta.
  destruct (applyAnimations _ slidAway 0 _) as [r0 e0].
  destruct (applyAnimations _ slidAway 1 _) as [r1 e1].
  destruct H as (Hvars & _ & Hsettle & _).
  - split; vm_compute; discriminate.
  - split; [|apply Hsettle; discriminate].
    apply (Hvars [(PScale, 0, 1); (POpacity, 0, 1)] PScale 0 1);
      [reflexivity | left; reflexivity].
Defined.

End TimelineFacts.

(* ===================================================================== *)
(** ** Facts about the encoder session manager *)
(* ===================================================================== *)

Module EncoderFacts.

Import Encoder.

(** *** [fetchWithRetry] *)

Lemma fetches_app (l1 l2 : list FetchEvent) :
  fetches (l1 ++ l2) = fetches l1 ++ fetches l2.
Proof. apply flat_map_app. Qed.

Lemma sleeps_app (l1 l2 : list FetchEvent) :
  sleeps (l1 ++ l2) = sleeps l1 ++ sleeps l2.
Proof. apply flat_map_app. Qed.

Lemma allFail_app (net : Network) (l1 l2 : list string) : forall k,
  allFail net k (l1 ++ l2) = allFail net k l1 && allFail net (k + List.length l1) l2.
Proof.
  induction l1 as [|u l1 IH]; intro k; simpl.
  - now rewrite Nat.add_0_r.
  - rewrite IH, andb_assoc. do 2 f_equal. lia.
Qed.

Lemma attempt_spec (net : Network) (url : string) (st : FetchState) :
  let '(r, st') := attempt net url st in
  calls st' = S (calls st) /\
  events st' = events st ++ [Fetch url] /\
  attemptFails net (calls st) url = match r with inl _ => true | inr _ => false end.
Proof.
  unfold attempt, attemptFails.
  destruct (net (calls st) url) as [e|resp]; simpl; auto.
  destruct (ok resp); simpl; auto.
Qed.

Section OneUrl.

Variables (net : Network) (url : string) (retries : nat).

Lemma tryUrl_spec (remaining : nat) : forall lastError st,
  (remaining <= retries)%nat ->
  let '(r, st') := tryUrl net url retries remaining lastError st in
  match r with
  | inl _ =>
      allFail net (calls st) (repeat url remaining) = false /\
      exists j, (j < remaining)%nat /\
        events st' = events st
          ++ flat_map (failedAttempt url retries) (seq (retries - remaining) j)
          ++ [Fetch url]
  | inr _ =>
      allFail net (calls st) (repeat url remaining) = true /\
      calls st' = (calls st + remaining)%nat /\
      events st' = events st
        ++ flat_map (failedAttempt url retries) (seq (retries - remaining) remaining)
  end.
Proof.
  induction remaining as [|remaining IH]; intros lastError st Hle.
  - simpl. rewrite app_nil_r. auto with arith.
  - cbn [tryUrl].
    pose proof (attempt_spec net url st) as Ha.
    destruct (attempt net url st) as [[error|response] st1].
    + destruct Ha as (Hc & He & Hf).
      set (st2 := if (retries - S remaining =? retries - 1)%nat then st1
                  else {| calls := calls st1;
                          events := events st1 ++ [Sleep (backoff (retries - S remaining))] |}).
      assert (Hc2 : calls st2 = S (calls st)).
      { subst st2. destruct (_ =? _)%nat; simpl; congruence. }
      assert (He2 : events st2 = events st
                      ++ failedAttempt url retries (retries - S remaining)).
      { subst st2. unfold failedAttempt. destruct (_ =? _)%nat; simpl.
        - exact He.
        - rewrite He, <- app_assoc. reflexivity. }
      assert (Hseq : forall j, seq (retries - S remaining) (S j)
                = (retries - S remaining)%nat :: seq (retries - remaining) j).
      { intro j. simpl. do 2 f_equal. lia. }
      specialize (IH (Some error) st2 ltac:(lia)).
      destruct (tryUrl net url retries remaining (Some error) st2) as [[resp|last] st'].
      * destruct IH as (Hall & j & Hj & Hev). rewrite Hc2 in Hall. split.
        { simpl. now rewrite Hf, Hall. }
        exists (S j). split; [lia|].
        rewrite Hev, He2, Hseq. cbn [flat_map]. now rewrite <- !app_assoc.
      * destruct IH as (Hall & Hcalls & Hev). rewrite Hc2 in Hall, Hcalls. split.
        { simpl. now rewrite Hf, Hall. }
        split; [lia|].
        rewrite Hev, He2, Hseq. cbn [flat_map]. now rewrite <- !app_assoc.
    + destruct Ha as (Hc & He & Hf). split.
      { simpl. now rewrite Hf. }
      exists O. split; [lia|]. simpl. exact He.
Qed.

End OneUrl.

Lemma schedule_cons (url : string) (urls : list string) (retries : nat) :
  schedule (url :: urls) retries = repeat url retries ++ schedule urls retries.
Proof. reflexivity. Qed.

Lemma exhausted_cons (url : string) (urls : list string) (retries : nat) :
  exhausted (url :: urls) retries
  = flat_map (failedAttempt url retries) (seq 0 retries) ++ exhausted urls retries.
Proof. reflexivity. Qed.

Lemma exhausted_app (pre post : list string) (retries : nat) :
  exhausted (pre ++ post) retries = exhausted pre retries ++ exhausted post retries.
Proof. apply flat_map_app. Qed.

Lemma schedule_app (pre post : list string) (retries : nat) :
  schedule (pre ++ post) retries = schedule pre retries ++ schedule post retries.
Proof. apply flat_map_app. Qed.

Section AllUrls.

Variables (net : Network) (retries : nat).

Lemma tryUrls_spec (urls : list string) : forall lastError st,
  let '(r, st') := tryUrls net urls retries lastError st in
  match r with
  | inl _ =>
      allFail net (calls st) (schedule urls retries) = false /\
      exists pre url post j,
        urls = pre ++ url :: post /\ (j < retries)%nat /\
        events st' = events st ++ exhausted pre retries
          ++ flat_map (failedAttempt url retries) (seq 0 j) ++ [Fetch url]
  | inr _ =>
      allFail net (calls st) (schedule urls retries) = true /\
      events st' = events st ++ exhausted urls retries
  end.
Proof.
  induction urls as [|url rest IH]; intros lastError st.
  - simpl. rewrite app_nil_r. auto.
  - cbn [tryUrls].
    pose proof (tryUrl_spec net url retries retries lastError st (le_n _)) as H1.
    rewrite Nat.sub_diag in H1.
    destruct (tryUrl net url retries retries lastError st) as [[resp|last] st1].
    + destruct H1 as (Hall & j & Hj & Hev).
      rewrite schedule_cons, allFail_app, Hall. split; [reflexivity|].
      exists [], url, rest, j. repeat split; [exact Hj|]. exact Hev.
    + destruct H1 as (Hall & Hcalls & Hev).
      specialize (IH last st1).
      rewrite schedule_cons, allFail_app, Hall, repeat_length, <- Hcalls.
      destruct (tryUrls net rest retries last st1) as [[resp|last'] st'].
      * destruct IH as (Hall' & pre & u & post & j & -> & Hj & Hev').
        split; [exact Hall'|].
        exists (url :: pre), u, post, j. repeat split; [exact Hj|].
        rewrite Hev', Hev, exhausted_cons, <- !app_assoc. reflexivity.
      * destruct IH as (Hall' & Hev'). split; [exact Hall'|].
        rewrite Hev', Hev, exhausted_cons, <- !app_assoc. reflexivity.
Qed.

End AllUrls.

Lemma fetches_failed (url : string) (retries j : nat) : forall i,
  fetches (flat_map (failedAttempt url retries) (seq i j)) = repeat url j.
Proof.
  induction j as [|j IH]; intro i; [reflexivity|].
  cbn [seq flat_map]. rewrite fetches_app, IH.
  unfold failedAttempt. destruct (_ =? _)%nat; reflexivity.
Qed.

Lemma fetches_exhausted (urls : list string) (retries : nat) :
  fetches (exhausted urls retries) = schedule urls retries.
Proof.
  induction urls as [|url rest IH]; [reflexivity|].
  now rewrite exhausted_cons, schedule_cons, fetches_app, fetches_failed, IH.
Qed.

Lemma sleeps_failed (url : string) (retries j : nat) (ms : Z) : forall i,
  (i + j <= retries)%nat ->
  In ms (sleeps (flat_map (failedAttempt url retries) (seq i j))) ->
  exists k, (k + 1 < retries)%nat /\ ms = backoff k.
Proof.
  induction j as [|j IH]; intros i Hle Hin; [contradiction|].
  cbn [seq flat_map] in Hin. rewrite sleeps_app in Hin.
  apply in_app_or in Hin. destruct Hin as [Hin|Hin].
  - unfold failedAttempt in Hin.
    destruct (Nat.eqb_spec i (retries - 1)) as [He|Hne]; simpl in Hin.
    + contradiction.
    + destruct Hin as [<-|[]]. exists i. split; [lia | reflexivity].
  - apply (IH (S i)); [lia | exact Hin].
Qed.

Lemma sleeps_exhausted (urls : list string) (retries : nat) (ms : Z) :
  In ms (sleeps (exhausted urls retries)) ->
  exists k, (k + 1 < retries)%nat /\ ms = backoff k.
Proof.
  induction urls as [|url rest IH]; [contradiction|].
  rewrite exhausted_cons, sleeps_app. intros Hin.
  apply in_app_or in Hin. destruct Hin as [Hin|Hin]; [|auto].
  apply (sleeps_failed url retries retries ms 0); [lia | exact Hin].
Qed.

(** The retry policy for any number of attempts per URL. *)
Lemma fetchWithRetry_spec (net : Network) (urls : list string) (retries : nat) :
  let '(r, st) := fetchWithRetry net urls retries in
  (exists rest, schedule urls retries = fetches (events st) ++ rest) /\
  (forall ms, In ms (sleeps (events st)) ->
     exists k, (k + 1 < retries)%nat /\ ms = backoff k) /\
  ((exists e, r = inl e) <-> allFail net 0 (schedule urls retries) = true) /\
  ((exists e, r = inl e) -> events st = exhausted urls retries).
Proof.
  unfold fetchWithRetry.
  pose proof (tryUrls_spec net retries urls None {| calls := 0; events := [] |}) as H.
  destruct (tryUrls net urls retries None _) as [[resp|last] st].
  - destruct H as (Hall & pre & url & post & j & -> & Hj & Hev).
    simpl in Hev, Hall. split; [|split; [|split]].
    + rewrite Hev, !fetches_app, fetches_exhausted, fetches_failed.
      rewrite schedule_app, schedule_cons.
      exists (repeat url (retries - S j) ++ schedule post retries).
      rewrite <- !app_assoc. f_equal.
      change (fetches [Fetch url]) with (repeat url 1).
      rewrite !app_assoc. f_equal.
      rewrite <- !repeat_app. f_equal. lia.
    + intros ms Hin. rewrite Hev, !sleeps_app in Hin.
      apply in_app_or in Hin. destruct Hin as [Hin|Hin];
        [now apply (sleeps_exhausted pre)|].
      apply in_app_or in Hin. destruct Hin as [Hin|[]].
      apply (sleeps_failed url retries j ms 0); [lia | exact Hin].
    + split; [intros [e He]; discriminate | congruence].
    + intros [e He]. discriminate.
  - destruct H as (Hall & Hev). simpl in Hev, Hall. split; [|split; [|split]].
    + exists []. now rewrite Hev, fetches_exhausted, app_nil_r.
    + intros ms Hin. rewrite Hev in Hin. now apply (sleeps_exhausted urls).
    + split; [intros _; exact Hall | intros _; eauto].
    + intros _. exact Hev.
Qed.

(** C5 (as amended): for every resource [fetchWithRetry] requests the
    URLs in the order given, each up to three times before it moves to the
    next one; between two attempts on the same URL it waits 1 s and then
    2 s (there is no wait after the third attempt, so no 4 s delay); it
    fails exactly when every attempt on every URL has failed, and then all
    of them have been made. *)
Theorem fetchWithRetry_policy (net : Network) (urls : list string) :
  let '(r, st) := fetchWithRetry net urls defaultRetries in
  (exists rest, schedule urls defaultRetries = fetches (events st) ++ rest) /\
  (forall ms, In ms (sleeps (events st)) -> ms = 1000%Z \/ ms = 2000%Z) /\
  ((exists e, r = inl e) <-> allFail net 0 (schedule urls defaultRetries) = true) /\
  ((exists e, r = inl e) -> events st = exhausted urls defaultRetries).
Proof.
  pose proof (fetchWithRetry_spec net urls defaultRetries) as H.
  destruct (fetchWithRetry net urls defaultRetries) as [r st].
  destruct H as (Hord & Hsl & Hiff & Hex).
  repeat split; try assumption; try apply Hiff.
  intros ms Hin. destruct (Hsl ms Hin) as (k & Hk & ->).
  unfold defaultRetries in Hk.
  destruct k as [|[|k]]; [left; reflexivity | right; reflexivity | lia].
Qed.

(** C5, as stated, fails: in the history of a fetch that exhausts both
    CDNs the pauses are 1 s and 2 s for each URL, and a pause of 4 s never
    occurs. *)
Lemma fetchWithRetry_backoff_counterexample :
  let st := (fetchWithRetry offline [primary_core; fallback_core] defaultRetries).2 in
  events st =
    [Fetch primary_core; Sleep 1000; Fetch primary_core; Sleep 2000; Fetch primary_core;
     Fetch fallback_core; Sleep 1000; Fetch fallback_core; Sleep 2000; Fetch fallback_core] /\
  ~ In 4000%Z (sleeps (events st)).
Proof.
  split; [reflexivity|]. vm_compute. intuition discriminate.
Qed.

End EncoderFacts.

Module SessionFacts.

Import Encoder.
Local Open Scope nat_scope.

(** *** [getFFmpeg] *)

(** While the module variable [ffmpeg] is set, a call returns it at once
    and changes nothing: no second initialisation sequence starts. *)
Lemma getFFmpeg_when_set (rt : Runtime) (h : Handle) :
  ffmpeg (session rt) = Some h ->
  getFFmpeg rt = (ResolvesWith h, rt).
Proof. intros Hset. unfold getFFmpeg. now rewrite Hset. Qed.

Lemma callers_when_set (n : nat) (rt : Runtime) (h : Handle) :
  ffmpeg (session rt) = Some h ->
  callers n rt = (repeat (ResolvesWith h) n, rt).
Proof.
  intros Hset. induction n as [|n IH]; [reflexivity|].
  simpl. now rewrite (getFFmpeg_when_set rt h Hset), IH.
Qed.

(** A first call on an uninitialised session starts the only
    initialisation sequence and returns its pending promise. *)
Lemma getFFmpeg_first (rt : Runtime) :
  session rt = uninitialized ->
  let '(r, rt') := getFFmpeg rt in
  r = Follows (nextPromise rt) /\
  session rt' = {| ffmpeg := Some (nextHandle rt); isLoading := true;
                   loadingPromise := Some (nextPromise rt) |} /\
  promises rt' !! nextPromise rt = Some Pending /\
  loaded rt' = loaded rt /\
  loadsStarted rt' = S (loadsStarted rt) /\
  nextPromise rt' = S (nextPromise rt) /\
  nextHandle rt' = S (nextHandle rt).
Proof.
  intros Hs. unfold getFFmpeg. rewrite Hs. simpl.
  repeat split. apply lookup_insert_eq.
Qed.

(** C3: a second caller that arrives while the load is in flight. The
    first call returns the pending promise of the load; the second call
    does not share it: it is answered at once with the [FFmpeg] object
    whose [load] has not completed. Only one initialisation sequence was
    started. *)
Theorem getFFmpeg_concurrent_caller_not_ready :
  let '(r1, rt1) := getFFmpeg boot in
  let '(r2, rt2) := getFFmpeg rt1 in
  r1 = Follows 0 /\ observe r1 rt2 = Pending /\
  r2 = ResolvesWith 0 /\ observe r2 rt2 = Fulfilled 0 /\
  ready 0 rt2 = false /\
  loadsStarted rt2 = 1.
Proof. vm_compute. repeat split. Qed.

(** When that load fails afterwards, the first caller sees the rejection
    and the second one keeps its fulfilled promise of an encoder that was
    never loaded. *)
Lemma getFFmpeg_concurrent_caller_after_failure :
  let '(r1, rt1) := getFFmpeg boot in
  let '(r2, rt2) := getFFmpeg rt1 in
  let rt3 := completeLoad noNetwork 0 rt2 in
  observe r1 rt3 = Rejected (ErrorObj "FFmpeg initialization failed: Failed to fetch") /\
  observe r2 rt3 = Fulfilled 0 /\
  ready 0 rt3 = false.
Proof. vm_compute. repeat split. Qed.

(** Any number of callers during the load: one sequence, and each of them
    is answered with the object that is not ready. *)
Lemma getFFmpeg_single_sequence (n : nat) :
  let '(r1, rt1) := getFFmpeg boot in
  let '(rs, rt2) := callers n rt1 in
  rs = repeat (ResolvesWith 0) n /\ loadsStarted rt2 = 1 /\ ready 0 rt2 = false.
Proof.
  destruct (getFFmpeg boot) as [r1 rt1] eqn:E1.
  vm_compute in E1. inversion E1; subst r1 rt1; clear E1.
  rewrite (callers_when_set n _ 0) by reflexivity. repeat split.
Qed.

(** *** Failure of the load *)

Lemma substring_app_tail (p m : string) :
  substring (String.length p) (String.length m) (p ++ m) = m.
Proof.
  induction p as [|c p IH].
  - change (EmptyString ++ m)%string with m. simpl String.length.
    induction m as [|d m IHm]; simpl; [reflexivity | now rewrite IHm].
  - change (String c p ++ m)%string with (String c (p ++ m)%string).
    simpl. exact IH.
Qed.

Lemma index_app_tail (p m : string) : String.index 0 m (p ++ m) <> None.
Proof.
  intros Hnone. destruct m as [|d m].
  - apply index_correct4 in Hnone. lia.
  - apply (index_correct3 0 (String.length p) _ _ Hnone); [discriminate | lia |].
    apply substring_app_tail.
Qed.

Lemma initializationError_wraps (message : string) :
  wraps (initializationError (ErrorObj message)) (ErrorObj message) = true.
Proof.
  unfold wraps. simpl textOf.
  destruct (String.index 0 message _) eqn:E; [reflexivity|].
  exfalso. exact (index_app_tail _ _ E).
Qed.

(** C6 (as amended): if the initialisation sequence fails, whatever the
    cause, the encoder object is dropped, the session is uninitialised
    again with no shared attempt left, and the promise of the call is
    rejected with an error built from the cause: its message wraps the
    message of the cause when the cause is an [Error], and is a fixed text
    otherwise. The next call starts a fresh initialisation sequence. *)
Theorem getFFmpeg_failure_resets (env : LoadEnv) (rt : Runtime)
    (cause : Thrown) (evs : list FetchEvent) :
  session rt = uninitialized ->
  loadSequence env = (Some cause, evs) ->
  let '(r, rt1) := getFFmpeg rt in
  let rt2 := completeLoad env (nextPromise rt) rt1 in
  r = Follows (nextPromise rt) /\
  session rt2 = uninitialized /\
  observe r rt2 = Rejected (initializationError cause) /\
  (forall message, cause = ErrorObj message ->
     initializationError cause = ErrorObj ("FFmpeg initialization failed: " ++ message) /\
     wraps (initializationError cause) cause = true) /\
  (instanceofError cause = false ->
     initializationError cause
     = ErrorObj "Failed to initialize video processing. Please try again later.") /\
  let '(r', rt3) := getFFmpeg rt2 in
  r' = Follows (S (nextPromise rt)) /\
  observe r' rt3 = Pending /\
  ffmpeg (session rt3) = Some (S (nextHandle rt)) /\
  loadsStarted rt3 = S (S (loadsStarted rt)).
Proof.
  intros Hs Hload.
  unfold getFFmpeg at 1. rewrite Hs. simpl.
  unfold completeLoad. rewrite Hload. simpl.
  split; [reflexivity|]. split; [reflexivity|].
  split; [now rewrite lookup_insert_eq|].
  split.
  { intros message ->. split; [reflexivity | apply initializationError_wraps]. }
  split.
  { destruct cause; [discriminate | reflexivity | reflexivity]. }
  repeat split. now rewrite lookup_insert_eq.
Qed.

Lemma getFFmpeg_failure_resets_witness :
  let rt2 := completeLoad noNetwork 0 (getFFmpeg boot).2 in
  session rt2 = uninitialized /\
  observe (Follows 0) rt2
  = Rejected (ErrorObj "FFmpeg initialization failed: Failed to fetch") /\
  loadsStarted (getFFmpeg rt2).2 = 2.
Proof.
  pose proof (getFFmpeg_failure_resets noNetwork boot (ErrorObj "Failed to fetch")
                (loadSequence noNetwork).2 eq_refl eq_refl) as H.
  cbv beta iota zeta delta [getFFmpeg boot session uninitialized ffmpeg isLoading
    loadingPromise nextPromise nextHandle] in H.
  destruct H as (_ & Hsession & Hobs & _ & _ & H3).
  split; [exact Hsession|]. split; [exact Hobs|].
  vm_compute. reflexivity.
Defined.

(** C6, as stated, fails: when the load is rejected with a value that is
    not an [Error], the error of the call does not carry the cause. *)
Lemma initializationError_counterexample :
  let rt2 := completeLoad loadRejects 0 (getFFmpeg boot).2 in
  loadSequence loadRejects = (Some (NonError "worker crashed"), (loadSequence loadRejects).2) /\
  observe (Follows 0) rt2
  = Rejected (ErrorObj "Failed to initialize video processing. Please try again later.") /\
  wraps (ErrorObj "Failed to initialize video processing. Please try again later.")
        (NonError "worker crashed") = false.
Proof. vm_compute. repeat split. Qed.

End SessionFacts.

(* ===================================================================== *)
(** ** Facts about the export with the capture function of the source *)
(* ===================================================================== *)

Module PipelineFacts.

Import JsNum Exporter ExportLog ExporterFacts.

Lemma encoderPasses_app (l1 l2 : list Event) :
  encoderPasses (l1 ++ l2) = encoderPasses l1 ++ encoderPasses l2.
Proof. unfold encoderPasses. apply List.filter_app. Qed.

(** [exportToVideo] once the encoder is acquired and the frame directory
    created: the loop and the encoder pass inside [try], then [finally]. *)
Lemma exportToVideo_anatomy (env : Env) (fuel : nat) (o : VideoExportOptions) (w : World) :
  getFFmpeg env = inr true ->
  createDirError env "frames" = None ->
  exportToVideo env fuel o w
  = tryFinally (captureAll env fuel o ;;; encodePass env o) detachClone (prepared w).
Proof.
  intros Hget Hdir. unfold exportToVideo. rewrite tryCatch_rethrow, Hget.
  unfold bind at 1. unfold ffmpeg_createDir, bind, emit, orThrow, setFs, ret, throw.
  simpl. rewrite Hdir. reflexivity.
Qed.

(** Before that point nothing is captured and the world keeps its clone
    flag and its encoder history. *)
Lemma exportToVideo_early (env : Env) (fuel : nat) (o : VideoExportOptions) (w : World) :
  getFFmpeg env <> inr true \/ createDirError env "frames" <> None ->
  exists e w',
    exportToVideo env fuel o w = (Threw e, w') /\
    cloneAttached w' = cloneAttached w /\
    encoderPasses (log w') = encoderPasses (log w) /\
    capturedTimes (log w') = capturedTimes (log w).
Proof.
  intros Hearly. unfold exportToVideo. rewrite tryCatch_rethrow.
  destruct (getFFmpeg env) as [err|[|]] eqn:Hget.
  - eexists _, _. repeat split.
  - destruct Hearly as [H|H]; [congruence|].
    unfold bind at 1. unfold ffmpeg_createDir, bind, emit, orThrow, setFs, ret, throw.
    simpl. destruct (createDirError env "frames") as [err|]; [|congruence].
    simpl. eexists _, _. split; [reflexivity|]. simpl.
    rewrite encoderPasses_app, capturedTimes_app. simpl. now rewrite !app_nil_r.
  - eexists _, _. repeat split.
Qed.

Section Trace.

Variable env : Env.
Variable o : VideoExportOptions.

Lemma frameSteps_app (l1 l2 : list Event) :
  forallb isFrameStep (l1 ++ l2) = forallb isFrameStep l1 && forallb isFrameStep l2.
Proof. apply forallb_app. Qed.

Lemma frameSteps_captureEvents (total : floored) (w h : Z)
    (anims : list Timeline.Animation) (frames : list Z) :
  forallb isFrameStep (captureEvents total w h anims frames) = true.
Proof. induction frames as [|f rest IH]; [reflexivity | exact IH]. Qed.

Lemma frameSteps_no_pass (l : list Event) :
  forallb isFrameStep l = true -> encoderPasses l = [].
Proof.
  induction l as [|e rest IH]; [reflexivity|].
  simpl. intros H. apply andb_true_iff in H. destruct H as [He Hrest].
  unfold encoderPasses in *. simpl. destruct e; try discriminate; simpl; auto.
Qed.

Lemma writeCaptured_trace (frame : Z) (w : World) :
  let '(r, w') := writeCaptured env (resolvedTotal o) (resolvedWidth o)
                    (resolvedHeight o) (resolvedAnimations o) frame w in
  (exists added, log w' = log w ++ added /\ forallb isFrameStep added = true) /\
  match r with
  | Returned _ => frameOk env o frame = true
  | Threw _ => frameOk env o frame = false
  | OutOfFuel => False
  end.
Proof.
  unfold writeCaptured, ffmpeg_writeFile, bind, emit, orThrow, setFs, ret, throw,
    frameOk, descriptor, renderFrame.
  destruct (captureFrame env _) as [err|data]; simpl.
  - split; [|reflexivity]. exists []. now rewrite app_nil_r.
  - destruct (writeFileError env _) as [err|]; simpl; (split; [|reflexivity]);
      eexists; split; reflexivity.
Qed.

Lemma settleBatch_trace (frames : list Z) : forall w,
  let '(r, w') := settleBatch env (resolvedTotal o) (resolvedWidth o)
                    (resolvedHeight o) (resolvedAnimations o) frames w in
  (exists added, log w' = log w ++ added /\ forallb isFrameStep added = true) /\
  match r with
  | Returned _ => forall f, In f frames -> frameOk env o f = true
  | Threw _ => exists f, In f frames /\ frameOk env o f = false
  | OutOfFuel => False
  end.
Proof.
  induction frames as [|frame rest IH]; intro w.
  - simpl. split; [exists []; now rewrite app_nil_r | intros f []].
  - simpl.
    pose proof (writeCaptured_trace frame w) as H1.
    destruct (writeCaptured env _ _ _ _ frame w) as [r1 w1].
    destruct H1 as ((a1 & Hl1 & Hs1) & Hr1).
    pose proof (IH w1) as H2.
    destruct (settleBatch env _ _ _ _ rest w1) as [r2 w2].
    destruct H2 as ((a2 & Hl2 & Hs2) & Hr2).
    assert (Hadded : exists added,
               log w2 = log w ++ added /\ forallb isFrameStep added = true).
    { exists (a1 ++ a2). rewrite Hl2, Hl1, <- app_assoc, frameSteps_app, Hs1, Hs2. auto. }
    destruct r1 as [name|e|]; [| |contradiction].
    + destruct r2 as [names|e|]; [| |contradiction].
      * split; [exact Hadded|]. intros f [<-|Hf]; auto.
      * split; [exact Hadded|]. destruct Hr2 as (f & Hf & Hbad). exists f. split; [now right | exact Hbad].
    + simpl. split; [exact Hadded|]. exists frame. split; [now left | exact Hr1].
Qed.

Lemma runBatch_trace (frames : list Z) : forall w,
  let '(r, w') := runBatch env (resolvedTotal o) (resolvedWidth o)
                    (resolvedHeight o) (resolvedAnimations o) frames w in
  (exists added, log w' = log w ++ added /\ forallb isFrameStep added = true) /\
  match r with
  | Returned _ => forall f, In f frames -> frameOk env o f = true
  | Threw _ => exists f, In f frames /\ frameOk env o f = false
  | OutOfFuel => False
  end.
Proof.
  intro w. unfold runBatch, bind. rewrite startBatch_spec.
  match goal with
  | |- context [settleBatch env ?t ?wd ?ht ?an frames ?w0] =>
      pose proof (settleBatch_trace frames w0) as H;
      destruct (settleBatch env t wd ht an frames w0) as [r w']
  end.
  destruct H as ((added & Hl & Hs) & Hr). split; [|exact Hr].
  simpl in Hl. eexists. split; [rewrite Hl, <- app_assoc; reflexivity|].
  now rewrite frameSteps_app, frameSteps_captureEvents, Hs.
Qed.

Variable n : Z.
Hypothesis total_n : resolvedTotal o = FInt n.

Lemma captureLoop_trace (fuel : nat) : forall i w,
  (0 <= i)%Z ->
  let '(r, w') := captureLoop env fuel (resolvedTotal o) (resolvedWidth o)
                    (resolvedHeight o) (resolvedAnimations o) i w in
  (exists added, log w' = log w ++ added /\ forallb isFrameStep added = true) /\
  match r with
  | Returned _ => forall f, (i <= f < n)%Z -> frameOk env o f = true
  | Threw _ => exists f, (i <= f < n)%Z /\ frameOk env o f = false
  | OutOfFuel => (Z.of_nat fuel * batchSize < n - i)%Z
  end.
Proof.
  rewrite total_n.
  induction fuel as [|fuel IH]; intros i w Hi; simpl.
  - destruct (Z.ltb_spec i n) as [Hlt|Hge].
    + split; [exists []; now rewrite app_nil_r | lia].
    + split; [exists []; now rewrite app_nil_r | intros f Hf; lia].
  - destruct (Z.ltb_spec i n) as [Hlt|Hge].
    + unfold bind.
      pose proof (runBatch_trace (batchFrames (FInt n) i) w) as Hb.
      rewrite total_n in Hb.
      destruct (runBatch env (FInt n) _ _ _ (batchFrames (FInt n) i) w) as [rb wb].
      destruct Hb as ((ab & Hlb & Hsb) & Hrb).
      unfold batchFrames, batchLength, batchSize in *.
      destruct rb as [names|e|]; [| |contradiction].
      * specialize (IH (i + 5)%Z wb ltac:(lia)).
        destruct (captureLoop env fuel (FInt n) _ _ _ (i + 5) wb) as [r w'].
        destruct IH as ((a & Hl & Hs) & Hr). split.
        { exists (ab ++ a). rewrite Hl, Hlb, <- app_assoc, frameSteps_app, Hsb, Hs. auto. }
        destruct r as [[]|e|].
        -- intros f Hf. destruct (Z.lt_ge_cases f (i + 5)) as [Hin|Hout].
           ++ apply Hrb. apply framesFrom_bounds. lia.
           ++ apply Hr. lia.
        -- destruct Hr as (f & Hf & Hbad). exists f. split; [lia | exact Hbad].
        -- unfold batchSize in Hr. lia.
      * split; [eauto|]. destruct Hrb as (f & Hf & Hbad).
        apply framesFrom_bounds in Hf. exists f. split; [lia | exact Hbad].
    + split; [exists []; now rewrite app_nil_r | intros f Hf; lia].
Qed.

End Trace.

Lemma encodePass_spec (env : Env) (o : VideoExportOptions) (w : World) :
  let '(r, w') := encodePass env o w in
  cloneAttached w' = cloneAttached w /\
  capturedTimes (log w') = capturedTimes (log w) /\
  match r with
  | Returned data =>
      execResult env = inr data /\
      log w' = log w ++ [Exec (resolvedFps o) (resolvedQuality o); ReadFile "output.mp4";
                         DeleteDir "frames"; Delete "output.mp4"]
  | Threw _ => True
  | OutOfFuel => False
  end.
Proof.
  unfold encodePass, ffmpeg_exec, ffmpeg_readFile, ffmpeg_deleteDir, ffmpeg_delete,
    bind, emit, orThrow, setFs, ret, throw, getWorld. simpl.
  destruct (execResult env) as [err|video]; simpl.
  { rewrite capturedTimes_app. simpl. rewrite app_nil_r. auto. }
  destruct (readFileError env "output.mp4") as [err|]; simpl.
  { rewrite !capturedTimes_app. simpl. rewrite !app_nil_r. auto. }
  rewrite lookup_insert_eq. simpl.
  destruct (deleteDirError env "frames") as [err|]; simpl.
  { rewrite !capturedTimes_app. simpl. rewrite !app_nil_r. auto. }
  destruct (deleteError env "output.mp4") as [err|]; simpl;
    rewrite !capturedTimes_app; simpl; rewrite !app_nil_r; repeat split.
  now rewrite <- !app_assoc.
Qed.

Lemma captureLoop_clone (env : Env) (total : floored) (width height : Z)
    (anims : list Timeline.Animation) (fuel : nat) : forall i w,
  cloneAttached (captureLoop env fuel total width height anims i w).2 = cloneAttached w.
Proof.
  induction fuel as [|fuel IH]; intros i w; simpl.
  - destruct (int_lt_floored i total); reflexivity.
  - destruct (int_lt_floored i total); [|reflexivity].
    unfold bind.
    pose proof (runBatch_spec env total width height anims (batchFrames total i) w) as Hb.
    destruct (runBatch env total width height anims (batchFrames total i) w) as [rb wb].
    destruct Hb as (_ & Hatt & _).
    destruct rb as [names|e|]; simpl; try exact Hatt.
    rewrite IH. exact Hatt.
Qed.

(** The pieces of a run that got past the creation of the directory. *)
Lemma exportToVideo_run (env : Env) (fuel : nat) (o : VideoExportOptions) (w : World) :
  getFFmpeg env = inr true ->
  createDirError env "frames" = None ->
  let '(rl, wl) := captureAll env fuel o (prepared w) in
  cloneAttached wl = true /\
  match rl with
  | Returned _ =>
      let '(re, we) := encodePass env o wl in
      exportToVideo env fuel o w
      = (re, {| fs := fs we; cloneAttached := false; log := log we ++ [RemoveClone] |})
  | Threw e =>
      exportToVideo env fuel o w
      = (Threw e, {| fs := fs wl; cloneAttached := false; log := log wl ++ [RemoveClone] |})
  | OutOfFuel => exportToVideo env fuel o w = (OutOfFuel, wl)
  end.
Proof.
  intros Hget Hdir. rewrite (exportToVideo_anatomy env fuel o w Hget Hdir).
  unfold tryFinally, bind, detachClone, getWorld, emit, setClone, ret.
  pose proof (captureLoop_clone env (resolvedTotal o) (resolvedWidth o) (resolvedHeight o)
                (resolvedAnimations o) fuel 0 (prepared w)) as Hatt.
  unfold captureAll.
  destruct (captureLoop env fuel _ _ _ _ 0 (prepared w)) as [rl wl].
  simpl in Hatt. split; [exact Hatt|].
  destruct rl as [[]|e|]; [| |reflexivity].
  - pose proof (encodePass_spec env o wl) as He.
    cbv beta iota.
    destruct (encodePass env o wl) as [re we].
    destruct He as (Hatt' & _ & Hre). rewrite Hatt in Hatt'.
    destruct re as [data|e|]; [| |contradiction];
      unfold bind; cbv beta iota; rewrite Hatt'; reflexivity.
  - unfold bind. cbv beta iota. rewrite Hatt. reflexivity.
Qed.

Lemma not_early (env : Env) :
  {getFFmpeg env = inr true /\ createDirError env "frames" = None}
  + {getFFmpeg env <> inr true \/ createDirError env "frames" <> None}.
Proof.
  destruct (getFFmpeg env) as [e|[|]]; [right; left; discriminate | | right; left; discriminate].
  destruct (createDirError env "frames"); [right; right; discriminate | left; auto].
Qed.

Lemma captureLoop_passes (env : Env) (o : VideoExportOptions) (n : Z)
    (fuel : nat) (w : World) :
  resolvedTotal o = FInt n ->
  encoderPasses (log (captureAll env fuel o w).2) = encoderPasses (log w).
Proof.
  intros Htotal.
  pose proof (captureLoop_trace env o n Htotal fuel 0 w ltac:(lia)) as Hloop.
  unfold captureAll.
  destruct (captureLoop env fuel _ _ _ _ 0 w) as [rl wl].
  destruct Hloop as ((added & Hl & Hs) & _). simpl.
  rewrite Hl, encoderPasses_app, (frameSteps_no_pass added Hs). apply app_nil_r.
Qed.

(** *** The frame count *)

(** [Math.floor] is the floor of the exact value of its argument. *)
Lemma Math_floor_rational (x : float) (n : Z) :
  Math_floor x = FInt n -> exists q, rational x = Some q /\ n = Qfloor q.
Proof.
  unfold Math_floor, rational.
  destruct (Prim2SF x) as [s|s| |s m e]; try discriminate.
  - intros [= <-]. exists 0%Q. split; reflexivity.
  - intros [= <-]. eexists. split; [reflexivity|].
    destruct e as [|p|p].
    + simpl. now rewrite Z.mul_1_r, Z.div_1_r.
    + cbn [Qfloor inject_Z]. now rewrite Z.div_1_r.
    + cbn [Qfloor]. now rewrite Pos2Z.inj_pow.
Qed.

(** *** The phases of an export *)

Lemma writtenFiles_prepared (w : World) :
  writtenFiles (log (prepared w)) = writtenFiles (log w) /\
  capturedTimes (log (prepared w)) = capturedTimes (log w).
Proof.
  unfold prepared. simpl. rewrite !writtenFiles_app, !capturedTimes_app. simpl.
  now rewrite !app_nil_r.
Qed.

(** The encoder pass captures and writes no frame, whatever its outcome. *)
Lemma encodePass_frames (env : Env) (o : VideoExportOptions) (w : World) :
  capturedTimes (log (encodePass env o w).2) = capturedTimes (log w) /\
  writtenFiles (log (encodePass env o w).2) = writtenFiles (log w).
Proof.
  unfold encodePass, ffmpeg_exec, ffmpeg_readFile, ffmpeg_deleteDir, ffmpeg_delete,
    bind, emit, orThrow, setFs, ret, throw, getWorld. simpl.
  destruct (execResult env) as [err|video]; simpl.
  { rewrite capturedTimes_app, writtenFiles_app. simpl. now rewrite !app_nil_r. }
  destruct (readFileError env "output.mp4") as [err|]; simpl.
  { rewrite !capturedTimes_app, !writtenFiles_app. simpl. now rewrite !app_nil_r. }
  rewrite lookup_insert_eq. simpl.
  destruct (deleteDirError env "frames") as [err|]; simpl.
  { rewrite !capturedTimes_app, !writtenFiles_app. simpl. now rewrite !app_nil_r. }
  destruct (deleteError env "output.mp4") as [err|]; simpl;
    rewrite !capturedTimes_app, !writtenFiles_app; simpl; now rewrite !app_nil_r.
Qed.

(** What an export that got past the creation of the directory has
    captured and written is what its capture loop has, and a failure of
    the loop is the failure of the export. *)
Lemma exportToVideo_frames (env : Env) (fuel : nat) (o : VideoExportOptions) (w : World) :
  getFFmpeg env = inr true ->
  createDirError env "frames" = None ->
  let '(rl, wl) := captureAll env fuel o (prepared w) in
  let '(r, w') := exportToVideo env fuel o w in
  capturedTimes (log w') = capturedTimes (log wl) /\
  writtenFiles (log w') = writtenFiles (log wl) /\
  (forall e, rl = Threw e -> r = Threw e).
Proof.
  intros Hget Hdir.
  pose proof (exportToVideo_run env fuel o w Hget Hdir) as Hrun.
  destruct (captureAll env fuel o (prepared w)) as [rl wl].
  destruct Hrun as [_ Hrun].
  destruct rl as [[]|e|].
  - pose proof (encodePass_frames env o wl) as [Hc Hw].
    destruct (encodePass env o wl) as [re we]. rewrite Hrun. simpl in *.
    rewrite capturedTimes_app, writtenFiles_app. simpl. rewrite !app_nil_r.
    repeat split; try assumption. discriminate.
  - rewrite Hrun. simpl. rewrite capturedTimes_app, writtenFiles_app. simpl.
    rewrite !app_nil_r. repeat split. now intros e' [= <-].
  - rewrite Hrun. repeat split. discriminate.
Qed.

(** *** Requests with an animated directive *)

Lemma frame_before_end (n f : Z) :
  (0 <= f < n)%Z -> (frameTime (FInt n) f < 1)%Q.
Proof. intros Hf. now destruct (frameTime_bounds n f Hf) as (_ & _ & H). Qed.

(** With an animated directive the capture of every frame is rejected
    with the error of [timeline.update()]: no frame is at progress 1. *)
Lemma captureFrame_rejected (browser : Capture.Browser) (n w h f : Z)
    (anims : list Timeline.Animation) :
  Forall Timeline.wellTimed anims ->
  existsb Directives.animated anims = true ->
  (0 <= f < n)%Z ->
  Capture.captureFrame browser (renderFrame (FInt n) w h anims f)
  = inl Timeline.timelineUpdateError.
Proof.
  intros Hall Hex Hf. unfold Capture.captureFrame. cbn [time frameAnimations renderFrame].
  now rewrite (TimelineFacts.settlement_before_end _ anims Hall Hex (frame_before_end n f Hf)).
Qed.

(** Without one the promise of the driver is resolved and the frame is
    what the browser delivers. *)
Lemma captureFrame_delivered (browser : Capture.Browser) (frame : RenderFrame) :
  existsb Directives.animated (frameAnimations frame) = false ->
  Capture.captureFrame browser frame
  = if existsb Capture.is3d (frameAnimations frame)
    then Capture.render3DFrame browser frame
    else Capture.rasterise browser frame.
Proof.
  intros Hex. unfold Capture.captureFrame.
  now rewrite (TimelineFacts.settlement_empty _ _ Hex).
Qed.

Section Rejected.

Variable env : Env.
Variable total : floored.
Variables (width height : Z) (anims : list Timeline.Animation).
Variable err : Thrown.

Lemma settleBatch_rejected (frames : list Z) : forall w,
  (forall f, In f frames ->
     captureFrame env (renderFrame total width height anims f) = inl err) ->
  settleBatch env total width height anims frames w
  = (match frames with [] => Returned [] | _ => Threw err end, w).
Proof.
  induction frames as [|frame rest IH]; intros w Hall; [reflexivity|].
  simpl. unfold writeCaptured. rewrite (Hall frame ltac:(now left)). unfold throw.
  rewrite (IH w ltac:(intros f Hf; apply Hall; now right)). reflexivity.
Qed.

Lemma runBatch_rejected (frames : list Z) (w : World) :
  frames <> [] ->
  (forall f, In f frames ->
     captureFrame env (renderFrame total width height anims f) = inl err) ->
  runBatch env total width height anims frames w
  = (Threw err,
     {| fs := fs w; cloneAttached := cloneAttached w;
        log := log w ++ captureEvents total width height anims frames |}).
Proof.
  intros Hne Hall. unfold runBatch, bind. rewrite startBatch_spec.
  rewrite (settleBatch_rejected frames _ Hall).
  destruct frames; [congruence | reflexivity].
Qed.

End Rejected.

Lemma batchFrames_first (n : Z) :
  (1 <= n)%Z -> exists rest, batchFrames (FInt n) 0 = 0%Z :: rest.
Proof.
  intros Hn. unfold batchFrames, batchLength, batchSize, framesFrom.
  destruct (Z.to_nat (Z.min 5 (n - 0))) as [|k] eqn:E; [lia|].
  simpl. eexists. reflexivity.
Qed.

(** An export of at least one frame whose request has an animated
    directive: the captures of the first batch are started, all of them
    are rejected, no frame is written and the call throws the error of
    [timeline.update()]. *)
Lemma animated_export_rejected (browser : Capture.Browser) (encoder : Env)
    (fuel : nat) (o : VideoExportOptions) (n : Z) (w : World) :
  resolvedTotal o = FInt n ->
  (1 <= n)%Z ->
  (1 <= fuel)%nat ->
  getFFmpeg encoder = inr true ->
  createDirError encoder "frames" = None ->
  Forall Timeline.wellTimed (resolvedAnimations o) ->
  existsb Directives.animated (resolvedAnimations o) = true ->
  let '(r, w') := exportToVideo (Capture.withCapture browser encoder) fuel o w in
  r = Threw Timeline.timelineUpdateError /\
  capturedFrames (log w') = capturedFrames (log w) ++ batchFrames (FInt n) 0 /\
  writtenFiles (log w') = writtenFiles (log w).
Proof.
  intros Htotal Hn Hfuel Hget Hdir Hall Hex.
  pose proof (exportToVideo_frames (Capture.withCapture browser encoder) fuel o w Hget Hdir)
    as Hframes.
  assert (Hloop : captureAll (Capture.withCapture browser encoder) fuel o (prepared w)
                  = (Threw Timeline.timelineUpdateError,
                     {| fs := fs (prepared w); cloneAttached := cloneAttached (prepared w);
                        log := log (prepared w)
                               ++ captureEvents (FInt n) (resolvedWidth o) (resolvedHeight o)
                                    (resolvedAnimations o) (batchFrames (FInt n) 0) |})).
  { unfold captureAll. rewrite Htotal. destruct fuel as [|fuel]; [lia|].
    cbn [captureLoop int_lt_floored].
    replace (0 <? n)%Z with true by (symmetry; apply Z.ltb_lt; lia).
    unfold bind.
    rewrite (runBatch_rejected (Capture.withCapture browser encoder) (FInt n)
               (resolvedWidth o) (resolvedHeight o) (resolvedAnimations o)
               Timeline.timelineUpdateError (batchFrames (FInt n) 0) (prepared w)).
    - reflexivity.
    - destruct (batchFrames_first n Hn) as (rest & ->). discriminate.
    - intros f Hf. apply ScheduleFacts.batchFrames_spec in Hf.
      destruct Hf as [Hf Hlt]. cbn [int_lt_floored] in Hlt. apply Z.ltb_lt in Hlt.
      apply (captureFrame_rejected browser n); [assumption | assumption | lia]. }
  rewrite Hloop in Hframes.
  destruct (exportToVideo (Capture.withCapture browser encoder) fuel o w) as [r w'].
  destruct Hframes as (Hc & Hw & Hr). cbn [log] in Hc, Hw.
  destruct (writtenFiles_prepared w) as [Hpw Hpc].
  split; [now apply Hr|]. split.
  - unfold capturedFrames. rewrite Hc, capturedTimes_app, Hpc, capturedTimes_captureEvents,
      map_app, capturedFrames_timed. reflexivity.
  - rewrite Hw, writtenFiles_app, Hpw, writtenFiles_captureEvents. apply app_nil_r.
Qed.

(** *** Requests whose frames are all captured and written *)

Lemma complete_capture (env : Env) (fuel : nat) (o : VideoExportOptions) (n : Z)
    (w : World) :
  resolvedTotal o = FInt n ->
  getFFmpeg env = inr true ->
  createDirError env "frames" = None ->
  (n <= batchSize * Z.of_nat fuel)%Z ->
  (forall f, (0 <= f < n)%Z -> frameOk env o f = true) ->
  let '(r, w') := exportToVideo env fuel o w in
  capturedTimes (log w') = capturedTimes (log w) ++ timed (FInt n) (range n) /\
  writtenFiles (log w') = writtenFiles (log w) ++ map FrameNames.frameName (range n).
Proof.
  intros Htotal Hget Hdir Hfuel Hok.
  pose proof (exportToVideo_frames env fuel o w Hget Hdir) as Hframes.
  pose proof (captureLoop_trace env o n Htotal fuel 0 (prepared w) ltac:(lia)) as Htrace.
  pose proof (captureLoop_spec env n (resolvedWidth o) (resolvedHeight o)
                (resolvedAnimations o) fuel 0 (prepared w) ltac:(lia)) as Hspec.
  unfold captureAll in Hframes. rewrite Htotal in Hframes, Htrace.
  destruct (captureLoop env fuel _ _ _ _ 0 (prepared w)) as [rl wl].
  destruct (exportToVideo env fuel o w) as [r w'].
  destruct Hframes as (Hc & Hw & _). destruct Htrace as [_ Htrace].
  destruct Hspec as (c & _ & Hcap & _ & Hr).
  destruct (writtenFiles_prepared w) as [Hpw Hpc].
  destruct rl as [[]|e|].
  - destruct Hr as [-> Hwl].
    rewrite Z.sub_0_r, framesFrom_zero in Hcap, Hwl. fold (range n) in Hcap, Hwl.
    split; congruence.
  - destruct Htrace as (f & Hf & Hbad). rewrite (Hok f Hf) in Hbad. discriminate.
  - unfold batchSize in *. lia.
Qed.

(** Once the loop runs, the captures of its first batch are started. *)
Lemma captureLoop_started (env : Env) (n width height : Z)
    (anims : list Timeline.Animation) (fuel : nat) (i : Z) (w : World) :
  (0 <= i < n)%Z ->
  exists rest,
    capturedTimes (log (captureLoop env (S fuel) (FInt n) width height anims i w).2)
    = capturedTimes (log w) ++ timed (FInt n) (batchFrames (FInt n) i) ++ rest.
Proof.
  intros Hi. cbn [captureLoop int_lt_floored].
  replace (i <? n)%Z with true by (symmetry; apply Z.ltb_lt; lia).
  unfold bind.
  pose proof (runBatch_spec env (FInt n) width height anims (batchFrames (FInt n) i) w)
    as Hb.
  destruct (runBatch env (FInt n) width height anims (batchFrames (FInt n) i) w)
    as [rb wb].
  destruct Hb as (Hcb & _ & Hrb).
  destruct rb as [names|e|]; [| |contradiction].
  - pose proof (captureLoop_spec env n width height anims fuel (i + batchSize) wb
                  ltac:(unfold batchSize; lia)) as Hspec.
    destruct (captureLoop env fuel (FInt n) width height anims (i + batchSize) wb)
      as [r w'].
    destruct Hspec as (c & _ & Hcap & _). eexists. cbn [snd].
    rewrite Hcap, Hcb, <- app_assoc. reflexivity.
  - exists []. cbn [snd]. now rewrite app_nil_r.
Qed.

Lemma first_capture (env : Env) (fuel : nat) (o : VideoExportOptions) (n : Z)
    (w : World) :
  resolvedTotal o = FInt n ->
  (1 <= n)%Z ->
  getFFmpeg env = inr true ->
  createDirError env "frames" = None ->
  (1 <= fuel)%nat ->
  exists rest,
    capturedTimes (log (exportToVideo env fuel o w).2)
    = capturedTimes (log w) ++ (0%Z, frameTime (FInt n) 0) :: rest.
Proof.
  intros Htotal Hn Hget Hdir Hfuel.
  pose proof (exportToVideo_frames env fuel o w Hget Hdir) as Hframes.
  destruct fuel as [|fuel]; [lia|].
  destruct (captureLoop_started env n (resolvedWidth o) (resolvedHeight o)
              (resolvedAnimations o) fuel 0 (prepared w) ltac:(lia)) as (rest & Hstart).
  unfold captureAll in Hframes. rewrite Htotal in Hframes.
  destruct (captureLoop env (S fuel) _ _ _ _ 0 (prepared w)) as [rl wl].
  destruct (exportToVideo env (S fuel) o w) as [r w'].
  destruct Hframes as (Hc & _ & _). cbn [snd] in *.
  destruct (writtenFiles_prepared w) as [_ Hpc].
  destruct (batchFrames_first n Hn) as (more & Hbatch).
  rewrite Hc, Hstart, Hpc, Hbatch. simpl. eexists. reflexivity.
Qed.

(** C1: [exportToVideo] computes [totalFrames = Math.floor(duration * fps)],
    the floor of the exact value of the binary64 product. For a request
    whose frames are all captured and written, the frame indices captured
    and written are exactly [0, 1, ..., totalFrames - 1], without gap or
    duplicate, whether or not the encoding that follows succeeds. But the
    capture of a frame is rejected as soon as the request has an animated
    directive, which it has by default: then an export of at least one
    frame starts the captures of its first batch only, writes no frame and
    throws the error of [timeline.update()]. *)
Theorem exportToVideo_frame_indices (browser : Capture.Browser) (encoder : Env)
    (fuel : nat) (o : VideoExportOptions) (n : Z) (w : World) :
  resolvedTotal o = FInt n ->
  getFFmpeg encoder = inr true ->
  createDirError encoder "frames" = None ->
  (n <= batchSize * Z.of_nat fuel)%Z ->
  Forall Timeline.wellTimed (resolvedAnimations o) ->
  let env := Capture.withCapture browser encoder in
  let '(r, w') := exportToVideo env fuel o w in
  (exists q,
     rational (resolvedDuration o * resolvedFps o)%float = Some q /\ n = Qfloor q) /\
  ((forall f, (0 <= f < n)%Z -> frameOk env o f = true) ->
   capturedFrames (log w') = capturedFrames (log w) ++ range n /\
   (exists written,
      writtenFiles (log w') = writtenFiles (log w) ++ written /\
      Permutation written (map FrameNames.frameName (range n))) /\
   List.NoDup (range n) /\
   (forall i, In i (range n) <-> (0 <= i < n)%Z)) /\
  (existsb Directives.animated (resolvedAnimations o) = true ->
   (1 <= n)%Z ->
   r = Threw Timeline.timelineUpdateError /\
   capturedFrames (log w') = capturedFrames (log w) ++ batchFrames (FInt n) 0 /\
   writtenFiles (log w') = writtenFiles (log w)).
Proof.
  intros Htotal Hget Hdir Hfuel Hall. cbv zeta.
  pose proof (complete_capture (Capture.withCapture browser encoder) fuel o n w
                Htotal Hget Hdir Hfuel) as Hdone.
  pose proof (fun Hn Hf =>
                animated_export_rejected browser encoder fuel o n w Htotal Hn Hf
                  Hget Hdir Hall) as Hrej.
  destruct (exportToVideo (Capture.withCapture browser encoder) fuel o w) as [r w'].
  split; [|split].
  - apply Math_floor_rational. exact Htotal.
  - intros Hok. destruct (Hdone Hok) as [Hc Hw]. split; [|split; [|split]].
    + unfold capturedFrames. rewrite Hc, map_app, capturedFrames_timed. reflexivity.
    + eexists. split; [exact Hw | apply Permutation_refl].
    + apply range_NoDup.
    + apply range_bounds.
  - intros Hex Hn. apply Hrej; [exact Hn | unfold batchSize in Hfuel; lia | exact Hex].
Qed.

Lemma exportToVideo_frame_indices_witness :
  let '(r, w') :=
    exportToVideo
      (Capture.withCapture (Capture.rendering (fun _ => [])) (noDelete [1%N] (fun _ => [])))
      2 (ExportControls.handleExportOptions 1 7 1920 1080) emptyWorld in
  r = Threw Timeline.timelineUpdateError /\
  capturedFrames (log w') = [0; 1; 2; 3; 4]%Z /\
  writtenFiles (log w') = [].
Proof.
  pose proof (exportToVideo_frame_indices (Capture.rendering (fun _ => []))
                (noDelete [1%N] (fun _ => [])) 2
                (ExportControls.handleExportOptions 1 7 1920 1080) 7 emptyWorld) as H.
  cbv zeta in H.
  destruct (exportToVideo _ 2 (ExportControls.handleExportOptions 1 7 1920 1080) emptyWorld)
    as [r w'].
  destruct H as (_ & _ & Hbug).
  - vm_compute. reflexivity.
  - reflexivity.
  - reflexivity.
  - vm_compute. discriminate.
  - repeat constructor; vm_compute; discriminate.
  - apply Hbug; [reflexivity | lia].
Defined.

(** With an empty list of directives and a browser that delivers, the
    same request has all its frames captured and written, also when the
    call fails afterwards (here at [ffmpeg.delete]). *)
Lemma frame_indices_without_directives :
  let '(r, w') :=
    exportToVideo
      (Capture.withCapture (Capture.rendering (fun _ => [])) (noDelete [1%N] (fun _ => [])))
      2 (Capture.animatedRequest 1 7 []) emptyWorld in
  r = Threw (ErrorObj "ffmpeg.delete is not a function") /\
  capturedFrames (log w') = [0; 1; 2; 3; 4; 5; 6]%Z /\
  writtenFiles (log w') = map FrameNames.frameName [0; 1; 2; 3; 4; 5; 6]%Z.
Proof. vm_compute. auto. Qed.

(** C10: in an export of [n >= 1] frames every capture has the normalised
    time [f / n] of its frame [f], which lies in the half-open interval
    [0, 1): no frame is captured at progress 1. As soon as the loop runs,
    the first frame is captured, at progress 0; and when every frame is
    captured and written the captures are those of the frames 0, ...,
    n - 1, the last one at [(n - 1) / n < 1]. *)
Theorem normalized_time_half_open (env : Env) (fuel : nat) (o : VideoExportOptions)
    (n : Z) (w : World) :
  resolvedTotal o = FInt n ->
  (1 <= n)%Z ->
  let '(r, w') := exportToVideo env fuel o w in
  exists times : list (Z * Q),
    capturedTimes (log w') = capturedTimes (log w) ++ times /\
    (forall i t, In (i, t) times ->
       (0 <= i < n)%Z /\ (t == inject_Z i / inject_Z n)%Q /\
       (0 <= t)%Q /\ (t < 1)%Q /\ ~ (t == 1)%Q) /\
    (getFFmpeg env = inr true -> createDirError env "frames" = None ->
     (1 <= fuel)%nat ->
     exists t0, In (0%Z, t0) times /\ (t0 == 0)%Q) /\
    (getFFmpeg env = inr true -> createDirError env "frames" = None ->
     (n <= batchSize * Z.of_nat fuel)%Z ->
     (forall f, (0 <= f < n)%Z -> frameOk env o f = true) ->
     times = timed (FInt n) (range n) /\
     exists tlast,
       In ((n - 1)%Z, tlast) times /\
       (tlast == inject_Z (n - 1) / inject_Z n)%Q /\ (tlast < 1)%Q).
Proof.
  intros Htotal Hn.
  pose proof (exportToVideo_spec env fuel o n w Htotal) as Hspec.
  pose proof (first_capture env fuel o n w Htotal Hn) as Hfirst.
  pose proof (complete_capture env fuel o n w Htotal) as Hdone.
  destruct (exportToVideo env fuel o w) as [r w']. cbn [fst snd] in *.
  destruct Hspec as (c & Hc & Hcap & _).
  exists (timed (FInt n) (framesFrom 0 c)). split; [exact Hcap|].
  split; [|split].
  - intros i t Hin. unfold timed in Hin. apply in_map_iff in Hin.
    destruct Hin as (i' & Heq & Hi'). inversion Heq; subst i' t; clear Heq.
    apply framesFrom_bounds in Hi'.
    assert (Hi : (0 <= i < n)%Z) by lia.
    destruct (frameTime_bounds n i Hi) as (He & H0 & H1).
    repeat split; try assumption; try lia.
    intro Hone. rewrite Hone in H1. now apply Qlt_irrefl in H1.
  - intros Hget Hdir Hfuel.
    destruct (Hfirst Hget Hdir Hfuel) as (rest & Hstart).
    rewrite Hcap in Hstart. apply app_inv_head in Hstart.
    exists (frameTime (FInt n) 0). split; [rewrite Hstart; now left|].
    now destruct (frameTime_bounds n 0 ltac:(lia)) as (He & _).
  - intros Hget Hdir Hfuel Hok.
    destruct (Hdone Hget Hdir Hfuel Hok) as [Hall _].
    rewrite Hcap in Hall. apply app_inv_head in Hall. split; [exact Hall|].
    exists (frameTime (FInt n) (n - 1)).
    destruct (frameTime_bounds n (n - 1) ltac:(lia)) as (He & _ & H1).
    split; [|split; assumption].
    rewrite Hall. unfold timed. apply in_map_iff. exists (n - 1)%Z.
    split; [reflexivity | apply range_bounds; lia].
Qed.

Lemma normalized_time_half_open_witness :
  capturedTimes
    (log (exportToVideo
            (Capture.withCapture (Capture.rendering (fun _ => []))
               (noDelete [1%N] (fun _ => [])))
            2 (Capture.animatedRequest 1 7 []) emptyWorld).2)
  = timed (FInt 7) (range 7).
Proof.
  pose proof (normalized_time_half_open
                (Capture.withCapture (Capture.rendering (fun _ => []))
                   (noDelete [1%N] (fun _ => [])))
                2 (Capture.animatedRequest 1 7 []) 7 emptyWorld) as H.
  destruct (exportToVideo _ 2 (Capture.animatedRequest 1 7 []) emptyWorld) as [r w'].
  destruct H as (times & Hcap & _ & _ & Hall).
  - vm_compute. reflexivity.
  - lia.
  - cbn [snd]. rewrite Hcap. simpl.
    apply Hall; [reflexivity | reflexivity | vm_compute; discriminate|].
    intros f Hf. unfold frameOk. simpl.
    rewrite captureFrame_delivered by reflexivity. reflexivity.
Defined.

End PipelineFacts.

(* ===================================================================== *)
(** * Further properties *)
(* ===================================================================== *)

(* ===================================================================== *)
(** ** Frame names determine the frame *)
(* ===================================================================== *)

Module FrameIndexFacts.

Import FrameNames FrameIndex FrameNamesFacts.
Local Open Scope string_scope.

Lemma isDigit_digitChar (d : Z) : (0 <= d < 10)%Z -> isDigit (digitChar d) = true.
Proof.
  intros Hd. unfold isDigit, digitChar. rewrite N_ascii_embedding by lia.
  apply andb_true_iff. split; apply N.leb_le; lia.
Qed.

Lemma digitValue_digitChar (d : Z) : (0 <= d < 10)%Z -> digitValue (digitChar d) = d.
Proof.
  intros Hd. unfold digitValue, digitChar. rewrite N_ascii_embedding by lia. lia.
Qed.

Lemma readDigits_app (a : string) : forall acc b,
  allDigits a = true -> readDigits acc (a ++ b) = readDigits (readDigits acc a) b.
Proof.
  induction a as [|c a IH]; intros acc b Hall; [reflexivity|].
  rewrite app_cons. simpl in *. apply andb_true_iff in Hall. destruct Hall as [Hc Ha].
  rewrite Hc. now apply IH.
Qed.

Lemma allDigits_app (a b : string) :
  allDigits (a ++ b) = allDigits a && allDigits b.
Proof.
  induction a as [|c a IH]; [reflexivity|].
  rewrite app_cons. simpl. now rewrite IH, andb_assoc.
Qed.

Lemma allDigits_zeros (k : nat) : allDigits (repeatChar "0" k) = true.
Proof. induction k as [|k IH]; [reflexivity | simpl; exact IH]. Qed.

Lemma readDigits_zeros (k : nat) : readDigits 0 (repeatChar "0" k) = 0%Z.
Proof. induction k as [|k IH]; [reflexivity | simpl; exact IH]. Qed.

(** The digits of a number read back as the number. *)
Lemma toStringAux_digits (fuel : nat) : forall n,
  (0 <= n < 2 ^ (Z.of_nat fuel + 1))%Z ->
  allDigits (toStringAux fuel n "") = true /\
  readDigits 0 (toStringAux fuel n "") = n.
Proof.
  induction fuel as [|fuel IH]; intros n Hn.
  - assert (Hsmall : (0 <= n < 10)%Z) by (simpl in Hn; lia).
    simpl. rewrite Z.mod_small by lia.
    rewrite isDigit_digitChar, digitValue_digitChar by lia. split; [reflexivity | lia].
  - simpl. destruct (Z.eqb_spec (n / 10) 0) as [Hd|Hd].
    + assert (Hsmall : (0 <= n < 10)%Z).
      { pose proof (Z.div_mod n 10 ltac:(lia)). pose proof (Z.mod_pos_bound n 10 ltac:(lia)). lia. }
      simpl. rewrite Z.mod_small by lia.
      rewrite isDigit_digitChar, digitValue_digitChar by lia. split; [reflexivity | lia].
    + rewrite toStringAux_acc.
      assert (Hn' : (0 <= n / 10 < 2 ^ (Z.of_nat fuel + 1))%Z).
      { split; [apply Z.div_pos; lia|].
        apply Z.div_lt_upper_bound; [lia|].
        replace (Z.of_nat (S fuel) + 1)%Z with (Z.succ (Z.of_nat fuel + 1))%Z in Hn by lia.
        rewrite Z.pow_succ_r in Hn by lia. lia. }
      destruct (IH _ Hn') as [Hall Hread].
      pose proof (Z.mod_pos_bound n 10 ltac:(lia)) as Hm.
      split.
      * rewrite allDigits_app, Hall. simpl. now rewrite isDigit_digitChar.
      * rewrite readDigits_app, Hread by exact Hall. simpl.
        rewrite isDigit_digitChar, digitValue_digitChar by lia.
        pose proof (Z.div_mod n 10 ltac:(lia)). lia.
Qed.

Lemma toString_digits (n : Z) :
  (0 <= n)%Z -> allDigits (toString n) = true /\ readDigits 0 (toString n) = n.
Proof.
  intros Hn. unfold toString. apply toStringAux_digits. split; [lia|].
  destruct (Z.eq_dec n 0) as [->|Hz]; [simpl; lia|].
  rewrite Z2Nat.id by apply Z.log2_nonneg.
  replace (Z.log2 n + 1)%Z with (Z.succ (Z.log2 n)) by lia.
  apply Z.log2_spec. lia.
Qed.

Lemma readDigits_padded (n : Z) (rest : string) :
  (0 <= n)%Z ->
  readDigits 0 (padStart 6 "0" (toString n) ++ "." ++ rest) = n.
Proof.
  intros Hn. unfold padStart.
  destruct (toString_digits n Hn) as [Hall Hread].
  rewrite (readDigits_app (repeatChar "0" _ ++ toString n))
    by (rewrite allDigits_app, allDigits_zeros; exact Hall).
  rewrite (readDigits_app (repeatChar "0" _)) by apply allDigits_zeros.
  rewrite readDigits_zeros, Hread.
  change ("." ++ rest) with (String "." rest). reflexivity.
Qed.

Lemma frameName_read_back (n : Z) : (0 <= n)%Z -> frameIndexOf (frameName n) = n.
Proof.
  intros Hn. unfold frameIndexOf, frameName.
  change (dropChars 12 ("frames/frame" ++ ?x)) with x.
  now apply (readDigits_padded n "png").
Qed.

(** X1: the frame index that the encoder's pattern reads back from the
    name of a frame is the frame, for every non-negative index whatever
    its number of digits; so two different frames never share a file. *)
Theorem frameName_round_trip (i j : Z) :
  (0 <= i)%Z -> (0 <= j)%Z ->
  frameIndexOf (frameName i) = i /\
  (frameName i = frameName j -> i = j).
Proof.
  intros Hi Hj. split; [now apply frameName_read_back|].
  intros Heq.
  rewrite <- (frameName_read_back i Hi), <- (frameName_read_back j Hj).
  now rewrite Heq.
Qed.

Lemma frameName_round_trip_witness :
  frameIndexOf (frameName 1234567) = 1234567%Z /\
  (frameName 1234567 = frameName 42 -> 1234567%Z = 42%Z).
Proof. apply (frameName_round_trip 1234567 42); lia. Defined.

End FrameIndexFacts.

(* ===================================================================== *)
(** ** The history of an export *)
(* ===================================================================== *)

Module ExportLogFacts.

Import JsNum Exporter ExportLog ExporterFacts PipelineFacts.

(** X2: the history of an export that returns, as far as it does not
    depend on the order in which the captures of a batch settle. The
    frame directory is created and the clone attached; then come only
    captures and writes of frames: the captures are those of the frames
    0, 1, ..., n-1, started in this order, and the files written are the
    files of these frames, each once; then the encoder is run once, with
    the frame rate and the quality of the request (30 and 23 by default),
    the output is read, the directory and the output are deleted, and the
    clone is removed. The bytes returned are the encoder's output. *)
Theorem exportToVideo_success_history (env : Env) (fuel : nat)
    (o : VideoExportOptions) (n : Z) (w w' : World) (data : bytes) :
  resolvedTotal o = FInt n ->
  exportToVideo env fuel o w = (Returned data, w') ->
  exists frames,
    log w' = log w ++ [CreateDir "frames"; AppendClone] ++ frames
             ++ [Exec (resolvedFps o) (resolvedQuality o); ReadFile "output.mp4";
                 DeleteDir "frames"; Delete "output.mp4"; RemoveClone] /\
    forallb isFrameStep frames = true /\
    capturedFrames frames = range n /\
    Permutation (writtenFiles frames) (map FrameNames.frameName (range n)) /\
    execResult env = inr data.
Proof.
  intros Htotal Hrun.
  destruct (not_early env) as [[Hget Hdir]|Hearly].
  2:{ destruct (exportToVideo_early env fuel o w Hearly) as (e & w0 & Heq & _). congruence. }
  pose proof (exportToVideo_run env fuel o w Hget Hdir) as Hanat.
  pose proof (captureLoop_trace env o n Htotal fuel 0 (prepared w) ltac:(lia)) as Hloop.
  pose proof (captureLoop_spec env n (resolvedWidth o) (resolvedHeight o)
                (resolvedAnimations o) fuel 0 (prepared w) ltac:(lia)) as Hspec.
  unfold captureAll in Hanat. rewrite Htotal in Hanat, Hloop.
  destruct (captureLoop env fuel _ _ _ _ 0 (prepared w)) as [rl wl].
  destruct Hanat as [_ Hanat]. destruct Hloop as [(frames & Hl & Hs) _].
  destruct Hspec as (c & _ & Hcap & _ & Hr).
  destruct rl as [[]|e|]; [|congruence|congruence].
  destruct Hr as [-> Hw].
  pose proof (encodePass_spec env o wl) as He.
  destruct (encodePass env o wl) as [re we].
  destruct He as (_ & _ & Hre).
  rewrite Hanat in Hrun. inversion Hrun; subst re w'; clear Hrun.
  destruct Hre as [Hexec Hle].
  rewrite Hl, capturedTimes_app in Hcap. apply app_inv_head in Hcap.
  rewrite Hl, writtenFiles_app in Hw. apply app_inv_head in Hw.
  rewrite Z.sub_0_r, framesFrom_zero in Hcap, Hw. fold (range n) in Hcap, Hw.
  exists frames. split; [|split; [exact Hs|split; [|split; [|exact Hexec]]]].
  - simpl. rewrite Hle, Hl. unfold prepared. simpl log.
    rewrite <- !app_assoc. reflexivity.
  - unfold capturedFrames. rewrite Hcap. apply capturedFrames_timed.
  - rewrite Hw. apply Permutation_refl.
Qed.

Lemma exportToVideo_success_history_witness :
  exists frames,
    log (exportToVideo (healthy [7%N] (fun _ => [])) 1 (request 1 2) emptyWorld).2
    = [CreateDir "frames"; AppendClone] ++ frames
      ++ [Exec 2 23; ReadFile "output.mp4"; DeleteDir "frames"; Delete "output.mp4";
          RemoveClone] /\
    capturedFrames frames = [0; 1]%Z.
Proof.
  destruct (exportToVideo_success_history (healthy [7%N] (fun _ => [])) 1
              (request 1 2) 2 emptyWorld
              (exportToVideo (healthy [7%N] (fun _ => [])) 1 (request 1 2) emptyWorld).2
              [7%N]) as (frames & Hlog & _ & Hcap & _).
  - vm_compute. reflexivity.
  - vm_compute. reflexivity.
  - exists frames. split; [exact Hlog | exact Hcap].
Defined.

(** X3: a frame that cannot be captured or written makes the export fail
    before the encoder is run: the call throws, and the history gains no
    encode, read or delete. *)
Theorem exportToVideo_aborts_before_encode (env : Env) (fuel : nat)
    (o : VideoExportOptions) (n f : Z) (w : World) :
  resolvedTotal o = FInt n ->
  (n <= batchSize * Z.of_nat fuel)%Z ->
  (0 <= f < n)%Z ->
  frameOk env o f = false ->
  exists e w',
    exportToVideo env fuel o w = (Threw e, w') /\
    encoderPasses (log w') = encoderPasses (log w).
Proof.
  intros Htotal Hfuel Hf Hbad.
  destruct (not_early env) as [[Hget Hdir]|Hearly].
  2:{ destruct (exportToVideo_early env fuel o w Hearly) as (e & w0 & Heq & _ & Hp & _).
      eauto. }
  pose proof (exportToVideo_run env fuel o w Hget Hdir) as Hanat.
  pose proof (captureLoop_trace env o n Htotal fuel 0 (prepared w) ltac:(lia)) as Hloop.
  unfold captureAll in Hanat.
  destruct (captureLoop env fuel _ _ _ _ 0 (prepared w)) as [rl wl].
  destruct Hanat as [_ Hanat]. destruct Hloop as [(added & Hl & Hs) Hloop].
  destruct rl as [[]|e|].
  - rewrite (Hloop f ltac:(lia)) in Hbad. discriminate.
  - eexists _, _. split; [exact Hanat|]. simpl.
    rewrite encoderPasses_app, Hl, encoderPasses_app, (frameSteps_no_pass added Hs).
    unfold prepared. simpl.
    rewrite !encoderPasses_app. simpl. now rewrite !app_nil_r.
  - unfold batchSize in *. lia.
Qed.

Lemma exportToVideo_aborts_before_encode_witness :
  exists e w',
    exportToVideo captureFails 1 (request 1 3) emptyWorld = (Threw e, w') /\
    encoderPasses (log w') = [].
Proof.
  apply (exportToVideo_aborts_before_encode captureFails 1 (request 1 3) 3 2 emptyWorld).
  - vm_compute. reflexivity.
  - vm_compute. discriminate.
  - lia.
  - reflexivity.
Defined.

(** X4: the clone never stays in the document: whenever the call returns
    or throws, whatever the collaborators do and whatever the frame count
    is, the clone is detached. *)
Theorem exportToVideo_detaches_clone (env : Env) (fuel : nat)
    (o : VideoExportOptions) (w w' : World) (r : Outcome bytes) :
  cloneAttached w = false ->
  exportToVideo env fuel o w = (r, w') ->
  r <> OutOfFuel ->
  cloneAttached w' = false.
Proof.
  intros Hw Hrun Hr.
  destruct (not_early env) as [[Hget Hdir]|Hearly].
  2:{ destruct (exportToVideo_early env fuel o w Hearly) as (e & w0 & Heq & Hatt & _).
      rewrite Heq in Hrun. inversion Hrun; subst. congruence. }
  pose proof (exportToVideo_run env fuel o w Hget Hdir) as Hanat.
  destruct (captureAll env fuel o (prepared w)) as [rl wl].
  destruct Hanat as [_ Hanat].
  destruct rl as [[]|e|].
  - destruct (encodePass env o wl) as [re we].
    rewrite Hanat in Hrun. inversion Hrun; subst. reflexivity.
  - rewrite Hanat in Hrun. inversion Hrun; subst. reflexivity.
  - rewrite Hanat in Hrun. inversion Hrun; subst. contradiction.
Qed.

Lemma exportToVideo_detaches_clone_witness :
  cloneAttached (exportToVideo encodeFails 1 (request 1 1) emptyWorld).2 = false.
Proof.
  apply (exportToVideo_detaches_clone encodeFails 1 (request 1 1) emptyWorld _
           (exportToVideo encodeFails 1 (request 1 1) emptyWorld).1).
  - reflexivity.
  - apply surjective_pairing.
  - vm_compute. discriminate.
Defined.

(** X5: for a finite frame count [n] the capture loop runs at most
    [n / 5] rounded up batches: with one unit of fuel for each of them the
    call returns or throws, whatever the collaborators do. *)
Theorem exportToVideo_terminates (env : Env) (fuel : nat)
    (o : VideoExportOptions) (n : Z) (w : World) :
  resolvedTotal o = FInt n ->
  (n <= batchSize * Z.of_nat fuel)%Z ->
  (exportToVideo env fuel o w).1 <> OutOfFuel.
Proof.
  intros Htotal Hfuel.
  destruct (not_early env) as [[Hget Hdir]|Hearly].
  2:{ destruct (exportToVideo_early env fuel o w Hearly) as (e & w0 & Heq & _).
      rewrite Heq. discriminate. }
  pose proof (exportToVideo_run env fuel o w Hget Hdir) as Hanat.
  pose proof (captureLoop_trace env o n Htotal fuel 0 (prepared w) ltac:(lia)) as Hloop.
  unfold captureAll in Hanat.
  destruct (captureLoop env fuel _ _ _ _ 0 (prepared w)) as [rl wl].
  destruct Hanat as [_ Hanat]. destruct Hloop as [_ Hloop].
  destruct rl as [[]|e|].
  - pose proof (encodePass_spec env o wl) as He.
    destruct (encodePass env o wl) as [re we]. rewrite Hanat. simpl.
    destruct He as (_ & _ & Hre). destruct re; [discriminate | discriminate | contradiction].
  - rewrite Hanat. discriminate.
  - unfold batchSize in *. lia.
Qed.

Lemma exportToVideo_terminates_witness :
  (exportToVideo captureFails 2 (request 1 7) emptyWorld).1 <> OutOfFuel.
Proof.
  apply (exportToVideo_terminates captureFails 2 (request 1 7) 7 emptyWorld).
  - vm_compute. reflexivity.
  - vm_compute. discriminate.
Defined.




(** X7: when the frame count is zero, negative or [NaN], the loop body
    never runs: no frame is captured, and with healthy collaborators the
    encoder is still run, on an empty frame directory. *)
Theorem exportToVideo_no_frames (video : bytes) (raster : RenderFrame -> bytes)
    (fuel : nat) (o : VideoExportOptions) (w : World) :
  noFrames (resolvedTotal o) = true ->
  let '(r, w') := exportToVideo (healthy video raster) fuel o w in
  r = Returned video /\
  log w' = log w ++ [CreateDir "frames"; AppendClone;
                     Exec (resolvedFps o) (resolvedQuality o); ReadFile "output.mp4";
                     DeleteDir "frames"; Delete "output.mp4"; RemoveClone].
Proof.
  intros Hnone. unfold noFrames in Hnone. apply negb_true_iff in Hnone.
  pose proof (exportToVideo_run (healthy video raster) fuel o w eq_refl eq_refl) as Hanat.
  unfold captureAll in Hanat.
  assert (Hloop : captureLoop (healthy video raster) fuel (resolvedTotal o) (resolvedWidth o)
                    (resolvedHeight o) (resolvedAnimations o) 0 (prepared w)
                  = (Returned tt, prepared w)).
  { destruct fuel; simpl; rewrite Hnone; reflexivity. }
  rewrite Hloop in Hanat. destruct Hanat as [_ Hanat].
  unfold encodePass, ffmpeg_exec, ffmpeg_readFile, ffmpeg_deleteDir, ffmpeg_delete,
    bind, emit, orThrow, setFs, ret, throw, getWorld in Hanat. simpl in Hanat.
  rewrite lookup_insert_eq in Hanat. simpl in Hanat.
  rewrite Hanat. split; [reflexivity|]. simpl. now rewrite <- !app_assoc.
Qed.

Lemma exportToVideo_no_frames_witness :
  (exportToVideo (healthy [9%N] (fun _ => [])) 0 (request nan 30) emptyWorld).1
  = Returned [9%N].
Proof.
  pose proof (exportToVideo_no_frames [9%N] (fun _ => []) 0 (request nan 30) emptyWorld
                eq_refl) as H.
  destruct (exportToVideo _ 0 (request nan 30) emptyWorld) as [r w'].
  exact (proj1 H).
Defined.

Lemma encodePass_needs_delete (env : Env) (o : VideoExportOptions) (w : World)
    (e : Thrown) :
  deleteError env "output.mp4" = Some e ->
  returned (encodePass env o w).1 = false.
Proof.
  intros Hdel.
  unfold encodePass, ffmpeg_exec, ffmpeg_readFile, ffmpeg_deleteDir, ffmpeg_delete,
    bind, emit, orThrow, setFs, ret, throw, getWorld. simpl.
  destruct (execResult env) as [err|video]; simpl; [reflexivity|].
  destruct (readFileError env "output.mp4") as [err|]; simpl; [reflexivity|].
  rewrite lookup_insert_eq. simpl.
  destruct (deleteDirError env "frames") as [err|]; simpl; [reflexivity|].
  rewrite Hdel. reflexivity.
Qed.

(** X28: the only path on which [exportToVideo] returns goes through
    [ffmpeg.delete('output.mp4')]: with an encoder that rejects this call
    no export returns a video, whatever the request and whatever else
    succeeds. *)
Theorem exportToVideo_needs_delete (env : Env) (fuel : nat) (o : VideoExportOptions)
    (w : World) (e : Thrown) :
  deleteError env "output.mp4" = Some e ->
  returned (exportToVideo env fuel o w).1 = false.
Proof.
  intros Hdel.
  destruct (not_early env) as [[Hget Hdir]|Hearly].
  2:{ destruct (exportToVideo_early env fuel o w Hearly) as (e' & w0 & Heq & _).
      now rewrite Heq. }
  pose proof (exportToVideo_run env fuel o w Hget Hdir) as Hrun.
  destruct (captureAll env fuel o (prepared w)) as [rl wl].
  destruct Hrun as [_ Hrun].
  destruct rl as [[]|e'|].
  - pose proof (encodePass_needs_delete env o wl e Hdel) as Hne.
    destruct (encodePass env o wl) as [re we]. rewrite Hrun. exact Hne.
  - now rewrite Hrun.
  - now rewrite Hrun.
Qed.

Lemma exportToVideo_needs_delete_witness :
  returned (exportToVideo (noDelete [7%N] (fun _ => [])) 1 (request 1 2) emptyWorld).1
  = false.
Proof.
  apply (exportToVideo_needs_delete (noDelete [7%N] (fun _ => [])) 1 (request 1 2)
           emptyWorld (ErrorObj "ffmpeg.delete is not a function")).
  reflexivity.
Defined.

End ExportLogFacts.

(* ===================================================================== *)
(** ** More on the order of captures *)
(* ===================================================================== *)

Module StartedFacts.

Import JsNum Schedule Started ScheduleFacts.

Lemma starts_app (l1 l2 : list Ev) : starts (l1 ++ l2) = starts l1 ++ starts l2.
Proof. apply flat_map_app. Qed.

Lemma starts_map_Start (frames : list Z) : starts (map Start frames) = frames.
Proof.
  induction frames as [|f rest IH]; [reflexivity|]. simpl. now rewrite IH.
Qed.

(** Where an event of an extended history lies, with what follows it. *)
Lemma split_extended_tail {A} (tr : list A) : forall ext before e after,
  tr ++ ext = before ++ e :: after ->
  (exists after', tr = before ++ e :: after' /\ after = after' ++ ext) \/
  (exists pre, before = tr ++ pre /\ ext = pre ++ e :: after).
Proof.
  induction tr as [|a tr IH]; intros ext before e after Heq.
  - right. exists before. auto.
  - destruct before as [|b before]; simpl in Heq; inversion Heq; subst.
    + left. exists tr. auto.
    + destruct (IH _ _ _ _ H1) as [(after' & -> & ->)|(pre & -> & ->)].
      * left. exists after'. auto.
      * right. exists pre. auto.
Qed.

Section Reachable.

Variable total : floored.

(** X8: under every order of completion the captures are started in the
    order of the frames, from frame 0 on, without a gap and none twice. *)
Theorem starts_are_consecutive (s : St) :
  reachable total s ->
  (0 <= next s)%Z /\
  starts (trace s) = Exporter.framesFrom 0 (Z.to_nat (startedUpTo total (next s))) /\
  List.NoDup (starts (trace s)).
Proof.
  intros Hreach.
  assert (H : (0 <= next s)%Z /\
              starts (trace s)
              = Exporter.framesFrom 0 (Z.to_nat (startedUpTo total (next s)))).
  { induction Hreach as [|s s' _ IH Hstep]; [split; [simpl; lia | ]|].
    - simpl. destruct total as [n|[|]|]; simpl; try reflexivity.
      replace (Z.to_nat (Z.min 0 n)) with O by lia. reflexivity.
    - destruct IH as [Hn IH].
      destruct Hstep as [s Hlt Hempty Hok | s f Hin | s f Hin]; simpl.
      + unfold Exporter.batchSize. split; [lia|].
        rewrite starts_app, starts_map_Start, IH.
        unfold Exporter.batchFrames, Exporter.batchLength, Exporter.batchSize, startedUpTo.
        destruct total as [n|[|]|]; simpl in Hlt; try discriminate.
        * apply Z.ltb_lt in Hlt.
          replace (Z.to_nat (Z.min (next s + 5) n))
            with (Z.to_nat (Z.min (next s) n) + Z.to_nat (Z.min 5 (n - next s)))%nat by lia.
          rewrite ExporterFacts.framesFrom_app. do 2 f_equal. lia.
        * replace (Z.to_nat (next s + 5)) with (Z.to_nat (next s) + Z.to_nat 5)%nat by lia.
          rewrite ExporterFacts.framesFrom_app. do 2 f_equal. lia.
      + split; [exact Hn|]. rewrite starts_app. simpl. now rewrite app_nil_r.
      + split; [exact Hn|]. rewrite starts_app. simpl. now rewrite app_nil_r. }
  destruct H as [Hn Hs]. repeat split; try assumption.
  rewrite Hs, ExporterFacts.framesFrom_zero.
  apply Finite.Injective_map_NoDup; [|apply seq_NoDup].
  intros a b. apply Nat2Z.inj.
Qed.

(** X9: once a capture-and-write is rejected, no further capture is
    started, whatever settles afterwards. *)
Theorem no_start_after_rejection (s : St) (before after : list Ev) (f : Z) :
  reachable total s ->
  trace s = before ++ Failed f :: after ->
  forall g, ~ In (Start g) after.
Proof.
  intros Hreach. revert before after f.
  induction Hreach as [|s s' Hreach IH Hstep]; intros before after f Heq g Hg.
  - destruct before; discriminate.
  - pose proof (Inv_reachable total s Hreach) as Hinv.
    destruct Hstep as [s Hlt Hempty Hok | s f' Hin | s f' Hin]; simpl in Heq.
    + apply split_extended_tail in Heq.
      destruct Heq as [(after' & Heq & _)|(pre & _ & Hext)].
      * apply (inv_rejected total s Hinv Hok f). rewrite Heq.
        apply in_or_app. right. left. reflexivity.
      * assert (Hf : In (Failed f) (map Start (Exporter.batchFrames total (next s)))).
        { rewrite Hext. apply in_or_app. right. left. reflexivity. }
        apply in_map_iff in Hf. destruct Hf as (x & Hx & _). discriminate.
    + apply split_extended_tail in Heq.
      destruct Heq as [(after' & Heq & ->)|(pre & _ & Hext)].
      * apply in_app_or in Hg. destruct Hg as [Hg|[Hg|[]]]; [|discriminate].
        exact (IH _ _ _ Heq g Hg).
      * apply split_singleton in Hext. destruct Hext as (_ & _ & ->). contradiction.
    + apply split_extended_tail in Heq.
      destruct Heq as [(after' & Heq & ->)|(pre & _ & Hext)].
      * apply in_app_or in Hg. destruct Hg as [Hg|[Hg|[]]]; [|discriminate].
        exact (IH _ _ _ Heq g Hg).
      * apply split_singleton in Hext. destruct Hext as (_ & _ & ->). contradiction.
Qed.

End Reachable.

Lemma rejected_run_reachable :
  reachable (FInt 12)
    {| next := 5; pending := [2; 3; 4]%Z; rejected := true;
       trace := [Start 0; Start 1; Start 2; Start 3; Start 4; Failed 1; Resolved 0]%Z |}.
Proof.
  eapply reach_step; [eapply reach_step; [eapply reach_step; [apply reach_init|]|]|].
  - apply step_launch; reflexivity.
  - apply (step_fail (FInt 12)
             {| next := 5; pending := [0; 1; 2; 3; 4]%Z; rejected := false;
                trace := [Start 0; Start 1; Start 2; Start 3; Start 4]%Z |} 1%Z).
    simpl. auto.
  - apply (step_resolve (FInt 12)
             {| next := 5; pending := [0; 2; 3; 4]%Z; rejected := true;
                trace := [Start 0; Start 1; Start 2; Start 3; Start 4; Failed 1]%Z |} 0%Z).
    simpl. auto.
Qed.

Lemma starts_are_consecutive_witness :
  starts [Start 0; Start 1; Start 2; Start 3; Start 4; Failed 1; Resolved 0]%Z
  = Exporter.framesFrom 0 5.
Proof.
  exact (proj1 (proj2 (starts_are_consecutive (FInt 12) _ rejected_run_reachable))).
Defined.

Lemma no_start_after_rejection_witness :
  reachable (FInt 12)
    {| next := 5; pending := [2; 3; 4]%Z; rejected := true;
       trace := [Start 0; Start 1; Start 2; Start 3; Start 4; Failed 1; Resolved 0]%Z |}
  /\ ~ In (Start 5%Z) [Resolved 0%Z].
Proof.
  split; [exact rejected_run_reachable|].
  apply (no_start_after_rejection (FInt 12) _
           [Start 0; Start 1; Start 2; Start 3; Start 4]%Z [Resolved 0%Z] 1%Z
           rejected_run_reachable).
  reflexivity.
Defined.

End StartedFacts.

(* ===================================================================== *)
(** ** Timelines of several directives *)
(* ===================================================================== *)

Module DirectivesFacts.

Import Timeline Directives TimelineFacts.
Local Open Scope Q_scope.

Lemma filter_none (anims : list Animation) :
  List.filter animated anims = [] -> existsb animated anims = false.
Proof.
  induction anims as [|a rest IH]; [reflexivity|].
  simpl. destruct (animated a); [discriminate | exact IH].
Qed.

(** X10: a ['3d'] directive has no effect on what [applyAnimations] does,
    wherever it stands in the list: the element and the way the promise
    settles are those of the list without the ['3d'] directives; with no
    other directive the call only resets the element and its promise is
    resolved, at every progress. *)
Theorem applyAnimations_ignores_3d (parseEase : string -> Q -> Q)
    (element : Element) (progress : Q) (animations : list Animation) :
  applyAnimations parseEase element progress animations
  = applyAnimations parseEase element progress (List.filter animated animations) /\
  (List.filter animated animations = [] ->
   applyAnimations parseEase element progress animations = (None, reset element)).
Proof.
  split.
  - unfold applyAnimations, settlement. rewrite place_filter. reflexivity.
  - intros Hnone. apply unanimated_call. now apply filter_none.
Qed.

Lemma touched_opacity (total : Q) (placed : list (Q * Tween)) :
  Forall (scheduledWithin total) placed -> placed <> [] ->
  touched POpacity placed = true.
Proof.
  intros Hall Hne. destruct placed as [|entry rest]; [congruence|].
  inversion Hall as [|e l (_ & _ & _ & t & Ht) _]; subst.
  simpl. now rewrite (varsOf_opacity t _ Ht).
Qed.

Section AtTheEnd.

Variable parseEase : string -> Q -> Q.
Hypothesis ease_start : forall name, parseEase name 0 == 0.
Hypothesis ease_end : forall name, parseEase name 1 == 1.

(** X11: at progress 1 the promise of [applyAnimations] is resolved and
    the element is opaque, for every list of well-timed directives and
    whatever the element was before; an element that had no transform is
    left in the neutral presentation: no offset, scale 1, no rotation,
    opacity 1. *)
Theorem applyAnimations_end_is_neutral (element : Element)
    (animations : list Animation) :
  Forall wellTimed animations ->
  let '(r1, e1) := applyAnimations parseEase element 1 animations in
  r1 = None /\
  styleOpacity e1 == 1 /\
  (untransformed element -> style_eq (presentation e1) neutral).
Proof.
  intros Hall.
  pose proof (applyAnimations_at_end parseEase ease_start ease_end element animations Hall)
    as H1.
  pose proof (applyAnimations_settlement parseEase element 1 animations) as Hs.
  pose proof (presentation_at_end parseEase ease_start ease_end element animations Hall)
    as Hend.
  destruct (applyAnimations parseEase element 1 animations) as [r1 e1].
  cbn [fst snd] in *. cbv zeta in H1. destruct H1 as (Ht & Hu & _).
  split; [rewrite Hs; apply settlement_end|]. split; [|exact Hend].
  destruct (touched POpacity (fst (place 0 animations))) eqn:Hp.
  - exact (Ht POpacity Hp).
  - change (styleOpacity e1) with (held POpacity e1). rewrite (Hu POpacity Hp).
    reflexivity.
Qed.

End AtTheEnd.

Section AtTheStart.

Variable parseEase : string -> Q -> Q.
Hypothesis ease_start : forall name, parseEase name 0 == 0.

(** X12: at progress 0, as soon as the list has one animated directive,
    the call leaves the element fully transparent and its promise is
    rejected with the error of [timeline.update()], whatever the other
    directives are and whatever the element was before. *)
Theorem applyAnimations_start_is_transparent (element : Element)
    (animations : list Animation) :
  Forall wellTimed animations ->
  existsb animated animations = true ->
  let '(r0, e0) := applyAnimations parseEase element 0 animations in
  r0 = Some timelineUpdateError /\ styleOpacity e0 == 0.
Proof.
  intros Hall Hex.
  pose proof (applyAnimations_at_start parseEase ease_start element animations Hall) as H0.
  pose proof (applyAnimations_settlement parseEase element 0 animations) as Hs.
  destruct (place_scheduled animations 0 Hall ltac:(Lqa.lra)) as [_ Hsched].
  pose proof (place_nonempty animations 0 Hex) as Hne.
  pose proof (touched_opacity _ _ Hsched Hne) as Hp.
  destruct (applyAnimations parseEase element 0 animations) as [r0 e0].
  cbn [fst snd] in *. cbv zeta in H0. destruct H0 as (Ht & _ & _).
  split; [|exact (Ht POpacity Hp)].
  rewrite Hs. apply settlement_before_end; [exact Hall | exact Hex | reflexivity].
Qed.

End AtTheStart.

Lemma applyAnimations_end_is_neutral_witness :
  let anims := [ExportControls.directive slide 1 None;
                ExportControls.directive fade (4 # 5) (Some (1 # 5));
                ExportControls.directive three_d 1 None] in
  let '(r1, e1) := applyAnimations (fun _ => power2_inOut) slidAway 1 anims in
  r1 = None /\ styleOpacity e1 == 1.
Proof.
  pose proof (applyAnimations_end_is_neutral (fun _ => power2_inOut)
                (fun _ => power2_inOut_start) (fun _ => power2_inOut_end) slidAway
                [ExportControls.directive slide 1 None;
                 ExportControls.directive fade (4 # 5) (Some (1 # 5));
                 ExportControls.directive three_d 1 None]) as H.
  cbv zeta. destruct (applyAnimations _ slidAway 1 _) as [r1 e1].
  destruct H as (Hr & Ho & _).
  - repeat constructor; vm_compute; discriminate.
  - split; assumption.
Defined.

Lemma applyAnimations_start_is_transparent_witness :
  let anims := [ExportControls.directive three_d 1 None;
                ExportControls.directive zoom (6 # 5) None] in
  let '(r0, e0) := applyAnimations (fun _ => power2_inOut) slidAway 0 anims in
  r0 = Some timelineUpdateError /\ styleOpacity e0 == 0.
Proof.
  apply (applyAnimations_start_is_transparent (fun _ => power2_inOut)
           (fun _ => power2_inOut_start) slidAway).
  - repeat constructor; vm_compute; discriminate.
  - reflexivity.
Defined.

End DirectivesFacts.

(* ===================================================================== *)
(** ** More on [fetchWithRetry] *)
(* ===================================================================== *)

Module RetryFacts.

Import Encoder Retry EncoderFacts.
Local Open Scope nat_scope.

Lemma outcomeOf_attempt (net : Network) (url : string) (st : FetchState) :
  fst (attempt net url st) = outcomeOf net (calls st) url.
Proof.
  unfold outcomeOf, attempt. simpl.
  destruct (net (calls st) url) as [e|resp]; [reflexivity|].
  destruct (ok resp); reflexivity.
Qed.

Lemma outcomeOf_response (net : Network) (k : nat) (url : string) (resp : Response) :
  outcomeOf net k url = inr resp -> net k url = inr resp /\ ok resp = true.
Proof.
  unfold outcomeOf, attempt. simpl.
  destruct (net k url) as [e|r]; [discriminate|].
  destruct (ok r) eqn:Hok; [|discriminate].
  intros [= <-]. auto.
Qed.

Section OneUrl.

Variables (net : Network) (url : string) (retries : nat).

Lemma tryUrl_result (remaining : nat) : forall lastError st,
  let '(r, st') := tryUrl net url retries remaining lastError st in
  match r with
  | inl resp =>
      exists j, j < remaining /\
        allFail net (calls st) (repeat url j) = true /\
        outcomeOf net (calls st + j) url = inr resp /\
        calls st' = calls st + j + 1
  | inr last =>
      calls st' = calls st + remaining /\
      match remaining with
      | O => last = lastError
      | S r => exists e, last = Some e /\ outcomeOf net (calls st + r) url = inl e
      end
  end.
Proof.
  induction remaining as [|remaining IH]; intros lastError st.
  - simpl. auto.
  - cbn [tryUrl].
    pose proof (attempt_spec net url st) as Ha.
    pose proof (outcomeOf_attempt net url st) as Ho.
    destruct (attempt net url st) as [[error|response] st1]; simpl in Ho.
    + destruct Ha as (Hc & He & Hf).
      set (st2 := if (retries - S remaining =? retries - 1) then st1
                  else {| calls := calls st1;
                          events := events st1 ++ [Sleep (backoff (retries - S remaining))] |}).
      assert (Hc2 : calls st2 = S (calls st)).
      { subst st2. destruct (_ =? _); simpl; congruence. }
      specialize (IH (Some error) st2).
      destruct (tryUrl net url retries remaining (Some error) st2) as [[resp|last] st'].
      * destruct IH as (j & Hj & Hall & Hout & Hcalls). rewrite Hc2 in *.
        exists (S j). split; [lia|]. split; [simpl; now rewrite Hf, Hall|].
        split; [|lia]. rewrite <- Hout. f_equal. lia.
      * destruct IH as (Hcalls & Hlast). rewrite Hc2 in *. split; [lia|].
        destruct remaining as [|r].
        -- exists error. split; [exact Hlast|]. rewrite Nat.add_0_r. auto.
        -- destruct Hlast as (e & -> & Hout). exists e. split; [reflexivity|].
           rewrite <- Hout. f_equal. lia.
    + destruct Ha as (Hc & He & Hf).
      exists O. split; [lia|]. split; [reflexivity|].
      split; [|lia]. rewrite Nat.add_0_r. auto.
Qed.

End OneUrl.

Lemma schedule_length (urls : list string) (retries : nat) :
  List.length (schedule urls retries) = List.length urls * retries.
Proof.
  induction urls as [|u rest IH]; [reflexivity|].
  rewrite schedule_cons, length_app, repeat_length, IH. simpl. lia.
Qed.

Lemma firstn_repeat {A} (x : A) (j n : nat) :
  j <= n -> firstn j (repeat x n) = repeat x j.
Proof.
  revert n. induction j as [|j IH]; intros n Hle; [reflexivity|].
  destruct n as [|n]; [lia|]. simpl. f_equal. apply IH. lia.
Qed.

Lemma last_repeat {A} (x d : A) (n : nat) : n <> 0 -> List.last (repeat x n) d = x.
Proof.
  induction n as [|n IH]; intros Hn; [congruence|].
  destruct n as [|n]; [reflexivity|].
  change (repeat x (S (S n))) with (x :: repeat x (S n)).
  change (List.last (x :: repeat x (S n)) d) with (List.last (repeat x (S n)) d).
  apply IH. discriminate.
Qed.

Lemma last_app_nonempty {A} (l1 l2 : list A) (d : A) :
  l2 <> [] -> List.last (l1 ++ l2) d = List.last l2 d.
Proof.
  intros Hne. induction l1 as [|a l1 IH]; [reflexivity|].
  simpl. destruct (l1 ++ l2) eqn:E.
  - apply app_eq_nil in E. destruct E. congruence.
  - exact IH.
Qed.

Section AllUrls.

Variables (net : Network) (retries : nat).

Lemma tryUrls_result (urls : list string) : forall lastError st,
  let sched := schedule urls retries in
  let '(r, st') := tryUrls net urls retries lastError st in
  match r with
  | inl resp =>
      exists k, k < List.length sched /\
        allFail net (calls st) (firstn k sched) = true /\
        outcomeOf net (calls st + k) (nth k sched ""%string) = inr resp /\
        calls st' = calls st + k + 1
  | inr last =>
      calls st' = calls st + List.length sched /\
      (sched = [] -> last = lastError) /\
      (sched <> [] ->
       exists e, last = Some e /\
         outcomeOf net (calls st + List.length sched - 1) (List.last sched ""%string) = inl e)
  end.
Proof.
  induction urls as [|url rest IH]; intros lastError st.
  - simpl. split; [lia|]. split; [auto | congruence].
  - cbn zeta. cbn [tryUrls]. rewrite schedule_cons.
    pose proof (tryUrl_result net url retries retries lastError st) as H1.
    pose proof (tryUrl_spec net url retries retries lastError st (le_n _)) as H1'.
    destruct (tryUrl net url retries retries lastError st) as [[resp|last1] st1].
    + destruct H1 as (j & Hj & Hall & Hout & Hcalls).
      exists j. rewrite length_app, repeat_length. split; [lia|].
      rewrite firstn_app, repeat_length.
      replace (j - retries) with 0 by lia. simpl firstn at 2. rewrite app_nil_r.
      rewrite firstn_repeat by lia. split; [exact Hall|].
      rewrite app_nth1 by (rewrite repeat_length; lia).
      rewrite nth_repeat_lt by lia. auto.
    + destruct H1 as (Hc1 & Hlast1). destruct H1' as (Hall1 & _ & _).
      specialize (IH last1 st1). cbn zeta in IH.
      destruct (tryUrls net rest retries last1 st1) as [[resp|last] st'].
      * destruct IH as (k & Hk & Hall & Hout & Hcalls).
        exists (retries + k). rewrite length_app, repeat_length. split; [lia|].
        rewrite firstn_app, repeat_length.
        replace (retries + k - retries) with k by lia.
        rewrite firstn_all2 by (rewrite repeat_length; lia).
        rewrite allFail_app, Hall1, repeat_length, <- Hc1, Hall.
        split; [reflexivity|].
        rewrite app_nth2 by (rewrite repeat_length; lia).
        rewrite repeat_length. replace (retries + k - retries) with k by lia.
        split; [|lia]. rewrite <- Hout. f_equal. lia.
      * destruct IH as (Hcalls & Hnil & Hcons).
        rewrite length_app, repeat_length. split; [lia|]. split.
        -- intros Hempty. apply app_eq_nil in Hempty. destruct Hempty as [Hrep Hrest].
           rewrite (Hnil Hrest).
           destruct retries as [|r]; [exact Hlast1 | discriminate].
        -- intros Hne. destruct (schedule rest retries) as [|u sched'] eqn:Hs.
           ++ rewrite (Hnil eq_refl), app_nil_r. simpl List.length.
              destruct retries as [|r].
              ** exfalso. apply Hne. reflexivity.
              ** destruct Hlast1 as (e & -> & Hout). exists e. split; [reflexivity|].
                 rewrite last_repeat by discriminate.
                 rewrite <- Hout. f_equal. lia.
           ++ destruct (Hcons ltac:(discriminate)) as (e & -> & Hout).
              exists e. split; [reflexivity|].
              rewrite last_app_nonempty by discriminate.
              rewrite <- Hout. f_equal. simpl List.length in *. lia.
Qed.

End AllUrls.

(** X13: when [fetchWithRetry] returns a response, this is the [ok]
    response of the first attempt, in the order of the schedule, that did
    not fail: every earlier attempt failed, and no request was made after
    it. *)
Theorem fetchWithRetry_returns_first_success (net : Network) (urls : list string)
    (retries : nat) (resp : Response) (st : FetchState) :
  fetchWithRetry net urls retries = (inr resp, st) ->
  exists k,
    k < List.length (schedule urls retries) /\
    allFail net 0 (firstn k (schedule urls retries)) = true /\
    net k (nth k (schedule urls retries) ""%string) = inr resp /\
    ok resp = true /\
    calls st = S k.
Proof.
  unfold fetchWithRetry.
  pose proof (tryUrls_result net retries urls None {| calls := 0; events := [] |}) as H.
  cbn zeta in H.
  destruct (tryUrls net urls retries None _) as [[r|last] st0]; [|discriminate].
  intros [= <- <-]. destruct H as (k & Hk & Hall & Hout & Hcalls). simpl in *.
  apply outcomeOf_response in Hout. destruct Hout as [Hnet Hok].
  exists k. repeat split; try assumption. lia.
Qed.

Lemma fetchWithRetry_returns_first_success_witness :
  exists k,
    k < List.length (schedule [primary_core; fallback_core] 3) /\
    allFail (flaky 4) 0 (firstn k (schedule [primary_core; fallback_core] 3)) = true /\
    flaky 4 k (nth k (schedule [primary_core; fallback_core] 3) ""%string)
    = inr {| ok := true; status := 200; body := [] |} /\
    ok {| ok := true; status := 200; body := [] |} = true /\
    calls (fetchWithRetry (flaky 4) [primary_core; fallback_core] 3).2 = S k.
Proof.
  apply (fetchWithRetry_returns_first_success (flaky 4) [primary_core; fallback_core] 3).
  vm_compute. reflexivity.
Defined.

(** X14: when [fetchWithRetry] throws, every attempt of the schedule was
    made. The value thrown is the error of the last attempt on the last
    URL when that error is truthy; it is the error 'Failed to fetch after
    all retries' when the last error is falsy, and also when there was
    nothing to attempt (no URL, or no retry), in which case no request was
    made. *)
Theorem fetchWithRetry_throws_last_error (net : Network) (urls : list string)
    (retries : nat) (e : Thrown) (st : FetchState) :
  fetchWithRetry net urls retries = (inl e, st) ->
  let sched := schedule urls retries in
  calls st = List.length sched /\
  (sched = [] -> e = ErrorObj "Failed to fetch after all retries" /\ events st = []) /\
  (sched <> [] ->
   exists lastError,
     outcomeOf net (List.length sched - 1) (List.last sched ""%string) = inl lastError /\
     e = if truthy lastError then lastError
         else ErrorObj "Failed to fetch after all retries").
Proof.
  unfold fetchWithRetry.
  pose proof (tryUrls_result net retries urls None {| calls := 0; events := [] |}) as H.
  pose proof (tryUrls_spec net retries urls None {| calls := 0; events := [] |}) as H'.
  cbn zeta in H.
  destruct (tryUrls net urls retries None _) as [[r|last] st0]; [discriminate|].
  intros [= <- <-]. destruct H as (Hcalls & Hnil & Hcons). destruct H' as (_ & Hev).
  simpl in *. split; [exact Hcalls|]. split.
  - intros Hempty. rewrite (Hnil Hempty). split; [reflexivity|].
    rewrite Hev. rewrite <- fetches_exhausted in Hempty.
    destruct (exhausted urls retries) as [|ev evs] eqn:Hex; [reflexivity|].
    exfalso. clear -Hex Hempty.
    assert (Hnone : forall l, fetches l = [] -> exhausted urls retries = l -> l = []).
    { intros l Hf Hl. subst l. unfold exhausted in *.
      induction urls as [|u rest IH]; [reflexivity|].
      simpl in *. destruct retries as [|r]; [simpl in *; auto|].
      simpl in Hf. discriminate. }
    specialize (Hnone _ Hempty Hex). discriminate.
  - intros Hne. destruct (Hcons Hne) as (e' & -> & Hout).
    exists e'. split; [exact Hout | reflexivity].
Qed.

Lemma fetchWithRetry_throws_last_error_witness :
  calls (fetchWithRetry silent [primary_core; fallback_core] 3).2 = 6 /\
  exists lastError,
    outcomeOf silent 5 fallback_core = inl lastError /\
    ErrorObj "Failed to fetch after all retries"
    = if truthy lastError then lastError
      else ErrorObj "Failed to fetch after all retries".
Proof.
  pose proof (fetchWithRetry_throws_last_error silent
                [primary_core; fallback_core] 3
                (ErrorObj "Failed to fetch after all retries")
                (fetchWithRetry silent [primary_core; fallback_core] 3).2 eq_refl) as H.
  cbv zeta in H. destruct H as (Hcalls & _ & Hlast).
  split; [exact Hcalls|]. apply Hlast. discriminate.
Defined.

Lemma totalSleep_app (l1 l2 : list FetchEvent) :
  totalSleep (l1 ++ l2) = (totalSleep l1 + totalSleep l2)%Z.
Proof.
  unfold totalSleep. rewrite sleeps_app.
  induction (sleeps l1) as [|ms rest IH]; simpl; lia.
Qed.

Lemma totalSleep_exhausted (urls : list string) :
  totalSleep (exhausted urls defaultRetries) = (3000 * Z.of_nat (List.length urls))%Z.
Proof.
  induction urls as [|u rest IH]; [reflexivity|].
  rewrite exhausted_cons, totalSleep_app, IH.
  change (totalSleep (flat_map (failedAttempt u defaultRetries) (seq 0 defaultRetries)))
    with 3000%Z.
  simpl List.length. lia.
Qed.

(** X15: the retry policy bounds the work for a resource: at most three
    requests for each URL, and at most three seconds of waiting for each
    URL, whatever the network does. *)
Theorem fetchWithRetry_bounded (net : Network) (urls : list string) :
  let st := (fetchWithRetry net urls defaultRetries).2 in
  calls st <= 3 * List.length urls /\
  (0 <= totalSleep (events st) <= 3000 * Z.of_nat (List.length urls))%Z.
Proof.
  unfold fetchWithRetry.
  pose proof (tryUrls_result net defaultRetries urls None {| calls := 0; events := [] |}) as H.
  pose proof (tryUrls_spec net defaultRetries urls None {| calls := 0; events := [] |}) as H'.
  cbn zeta in H. rewrite schedule_length in H.
  destruct (tryUrls net urls defaultRetries None _) as [[r|last] st0]; simpl in *.
  - destruct H as (k & Hk & _ & _ & Hcalls).
    destruct H' as (_ & pre & url & post & j & -> & Hj & Hev).
    split; [unfold defaultRetries in *; lia|].
    rewrite Hev, !totalSleep_app, (totalSleep_exhausted pre), length_app.
    simpl List.length.
    assert (Hpart : (0 <= totalSleep (flat_map (failedAttempt url defaultRetries) (seq 0 j))
                     <= 3000)%Z).
    { unfold defaultRetries in *.
      destruct j as [|[|[|j]]]; [vm_compute; split; discriminate .. | lia]. }
    change (totalSleep [Fetch url]) with 0%Z. lia.
  - destruct H as (Hcalls & _). destruct H' as (_ & Hev).
    split; [unfold defaultRetries in *; lia|].
    rewrite Hev, (totalSleep_exhausted urls). lia.
Qed.

End RetryFacts.

(* ===================================================================== *)
(** ** The encoder session under every order of calls and completions *)
(* ===================================================================== *)

Module SessionMachineFacts.

Import Encoder SessionMachine SessionFacts.
Local Open Scope nat_scope.

Lemma Consistent_boot : Consistent {| runtime := boot; inflight := [] |}.
Proof.
  split; [|split]; simpl.
  - intros h Hh. set_solver.
  - intros h Hh. discriminate.
  - repeat split. intros h Hh. discriminate.
Qed.

Lemma Consistent_step (c c' : Config) : Consistent c -> step c c' -> Consistent c'.
Proof.
  intros (Hloaded & Hhandle & Hstate) Hstep.
  destruct Hstep as [c | c env p Hin].
  - (* a call *)
    unfold Consistent, getFFmpeg, startsLoad. cbn [runtime inflight].
    destruct (ffmpeg (session (runtime c))) as [h|] eqn:Hff.
    + simpl. split; [exact Hloaded|]. split; [|exact Hstate].
      simpl. intros h0 Hh0. rewrite Hff in Hh0. now apply Hhandle.
    + destruct (inflight c) as [|p [|q rest]] eqn:Hfl; [| |contradiction].
      * destruct Hstate as (Hload & Hprom & _). rewrite Hload. simpl.
        split; [|split].
        -- intros h Hh. specialize (Hloaded h Hh). lia.
        -- intros h [= <-]. lia.
        -- exists (nextHandle (runtime c)). split; [reflexivity|]. split.
           ++ intros Hh. specialize (Hloaded _ Hh). lia.
           ++ apply lookup_insert_eq.
      * destruct Hstate as (h & Hs & _). rewrite Hs in Hff. discriminate.
  - (* the loading function of [p] finishes *)
    destruct (inflight c) as [|p0 [|q rest]] eqn:Hfl; [contradiction| |contradiction].
    destruct Hin as [<-|[]].
    destruct Hstate as (h & Hs & Hfresh & Hpending).
    assert (Hlt : h < nextHandle (runtime c)) by (apply Hhandle; now rewrite Hs).
    unfold Consistent. cbn [runtime inflight].
    simpl. destruct (Nat.eq_dec p0 p0) as [_|Hne]; [|congruence].
    unfold completeLoad. destruct (loadSequence env) as [failure evs].
    rewrite Hs. simpl.
    destruct failure as [e|]; simpl.
    + split; [exact Hloaded|]. split; [discriminate|].
      repeat split. discriminate.
    + split; [|split].
      * intros h' Hh'. apply elem_of_union in Hh'. destruct Hh' as [Hh'|Hh'].
        -- apply elem_of_singleton in Hh'. subst h'. exact Hlt.
        -- now apply Hloaded.
      * intros h' [= <-]. exact Hlt.
      * repeat split. intros h' [= <-]. set_solver.
Qed.

Lemma Consistent_reachable (c : Config) : reachable c -> Consistent c.
Proof.
  induction 1 as [|c c' _ IH Hstep]; [apply Consistent_boot | exact (Consistent_step c c' IH Hstep)].
Qed.

(** X16: under every order of calls and completions, at most one
    initialisation sequence is in flight. A call starts one only when none
    is in flight, and then returns its new promise; it never joins a
    running one. While one is in flight the module variable holds an
    encoder that is not ready, and when none is in flight the encoder it
    holds, if any, is ready. *)
Theorem session_single_flight (c : Config) :
  reachable c ->
  (List.length (inflight c) <= 1) /\
  (forall p rt', getFFmpeg (runtime c) = (Follows p, rt') ->
     p = nextPromise (runtime c) /\ inflight c = [] /\
     loadsStarted rt' = S (loadsStarted (runtime c))) /\
  (forall p, In p (inflight c) ->
     exists h, ffmpeg (session (runtime c)) = Some h /\ ready h (runtime c) = false) /\
  (inflight c = [] ->
     forall h, ffmpeg (session (runtime c)) = Some h -> ready h (runtime c) = true).
Proof.
  intros Hreach. apply Consistent_reachable in Hreach.
  destruct Hreach as (Hloaded & Hhandle & Hstate).
  destruct (inflight c) as [|p0 [|q rest]] eqn:Hfl; [| |contradiction].
  - destruct Hstate as (Hload & Hprom & Hready).
    split; [simpl; lia|]. split; [|split].
    + intros p rt'. unfold getFFmpeg.
      destruct (ffmpeg (session (runtime c))); [discriminate|].
      rewrite Hload. simpl. intros [= <- <-]. auto.
    + intros p [].
    + intros _ h Hh. unfold ready. apply bool_decide_eq_true. now apply Hready.
  - destruct Hstate as (h & Hs & Hfresh & Hpending).
    split; [simpl; lia|]. split; [|split].
    + intros p rt'. unfold getFFmpeg. rewrite Hs. simpl. discriminate.
    + intros p [<-|[]]. exists h. rewrite Hs. split; [reflexivity|].
      unfold ready. now apply bool_decide_eq_false.
    + discriminate.
Qed.

Lemma session_single_flight_witness :
  let c := {| runtime := (getFFmpeg boot).2; inflight := [0] |} in
  reachable c /\ List.length (inflight c) <= 1.
Proof.
  assert (Hreach : reachable {| runtime := (getFFmpeg boot).2; inflight := [0] |}).
  { apply (reach_step {| runtime := boot; inflight := [] |}); [apply reach_boot|].
    apply (step_call {| runtime := boot; inflight := [] |}). }
  split; [exact Hreach|].
  apply (session_single_flight _ Hreach).
Defined.

(** X17: after an initialisation sequence has succeeded, every later call
    is answered at once with the same encoder, which is ready; no call
    starts a sequence or a request again, and the first caller's promise is
    fulfilled with that encoder. *)
Theorem getFFmpeg_ready_is_reused (env : LoadEnv) (rt : Runtime)
    (evs : list FetchEvent) (n : nat) :
  session rt = uninitialized ->
  loadSequence env = (None, evs) ->
  let '(r, rt1) := getFFmpeg rt in
  let rt2 := completeLoad env (nextPromise rt) rt1 in
  observe r rt2 = Fulfilled (nextHandle rt) /\
  ready (nextHandle rt) rt2 = true /\
  callers n rt2 = (repeat (ResolvesWith (nextHandle rt)) n, rt2) /\
  loadsStarted rt2 = S (loadsStarted rt) /\
  fetched rt2 = fetched rt ++ evs.
Proof.
  intros Hs Hload.
  unfold getFFmpeg at 1. rewrite Hs. simpl.
  unfold completeLoad. rewrite Hload. simpl.
  split; [now rewrite lookup_insert_eq|].
  split; [unfold ready; apply bool_decide_eq_true; set_solver|].
  split; [|auto].
  now apply callers_when_set.
Qed.

Lemma getFFmpeg_ready_is_reused_witness :
  let rt2 := completeLoad
               {| coreNet := online; wasmNet := online; workerNet := online;
                  blobError := None; loadError := None |} 0 (getFFmpeg boot).2 in
  ready 0 rt2 = true /\ callers 3 rt2 = (repeat (ResolvesWith 0) 3, rt2).
Proof.
  pose proof (getFFmpeg_ready_is_reused
                {| coreNet := online; wasmNet := online; workerNet := online;
                   blobError := None; loadError := None |}
                boot _ 3 eq_refl eq_refl) as H.
  cbv beta iota zeta delta [getFFmpeg boot session uninitialized ffmpeg isLoading
    loadingPromise nextPromise nextHandle] in H.
  destruct H as (_ & Hready & Hcallers & _).
  split; [exact Hready | exact Hcallers].
Defined.

End SessionMachineFacts.

(* ===================================================================== *)
(** ** The caller *)
(* ===================================================================== *)

Module ExportControlsFacts.

Import JsNum Exporter ExportLog ExportControls ExporterFacts PipelineFacts.

(** X21: whatever the settings hold, the resolution that is passed on is
    one of the four presets, selected by the label alone (the [width] and
    [height] of the settings are not used), and 1920 x 1080 when the label
    is none of theirs; no quality parameter is passed, so the encoder
    runs with the default 23. *)
Theorem exportOptions_resolution (s : VideoSettings) :
  In (resolvedWidth (exportOptions s), resolvedHeight (exportOptions s))
     (map (fun p => (presetWidth p, presetHeight p)) QUALITY_PRESETS) /\
  ((forall p, In p QUALITY_PRESETS -> label p <> quality s) ->
   resolvedWidth (exportOptions s) = 1920%Z /\ resolvedHeight (exportOptions s) = 1080%Z) /\
  resolvedQuality (exportOptions s) = 23%Z /\
  (forall w h,
     exportOptions {| duration := duration s; fps := fps s; quality := quality s;
                      width := w; height := h; animationPreset := animationPreset s |}
     = exportOptions s).
Proof.
  split; [|split; [|split]].
  - unfold resolvedWidth, resolvedHeight, exportOptions, chosenPreset, QUALITY_PRESETS.
    cbn [List.find label Exporter.width Exporter.height default].
    destruct (String.eqb "4K" (quality s)); [cbn; auto|].
    destruct (String.eqb "2K" (quality s)); [cbn; auto|].
    destruct (String.eqb "1080p" (quality s)); [cbn; auto|].
    destruct (String.eqb "720p" (quality s)); cbn; auto 6.
  - intros Hnone.
    unfold resolvedWidth, resolvedHeight, exportOptions, chosenPreset.
    destruct (List.find _ QUALITY_PRESETS) as [p|] eqn:Hfind; [|auto].
    apply find_some in Hfind. destruct Hfind as [Hin Heq].
    apply String.eqb_eq in Heq. exfalso. exact (Hnone p Hin Heq).
  - reflexivity.
  - reflexivity.
Qed.

Lemma preset_lists_fit :
  Forall (fun l => Forall Timeline.wellTimed l /\ existsb Directives.animated l = true
                   /\ forallb Directives.animated l = true)
         (map presetAnimations ANIMATION_PRESETS).
Proof.
  repeat constructor; vm_compute; discriminate.
Qed.

Lemma chosen_is_preset (s : VideoSettings) :
  In (resolvedAnimations (exportOptions s)) (map presetAnimations ANIMATION_PRESETS).
Proof.
  unfold resolvedAnimations, exportOptions, chosenAnimations, ANIMATION_PRESETS.
  cbn [List.find animationLabel Exporter.animations].
  destruct (String.eqb "Simple Fade" (animationPreset s)); [cbn; auto|].
  destruct (String.eqb "Slide & Fade" (animationPreset s)); [cbn; auto|].
  destruct (String.eqb "Zoom In" (animationPreset s)); [cbn; auto|].
  destruct (String.eqb "Rotate" (animationPreset s)); cbn; auto.
Qed.

(** X22: the directives that reach [exportToVideo] from [exportAsVideo]
    are those of one of the four animation presets, those of 'Simple Fade'
    (the default of [exportToVideo]) when the label is none of theirs.
    Every such list is well timed, has no ['3d'] directive and has an
    animated one. Hence no export of at least one frame that this
    component starts produces a video: once the encoder is acquired and
    the frame directory created, the call writes no frame and throws the
    error of [timeline.update()]. *)
Theorem exportOptions_animations (s : VideoSettings) (browser : Capture.Browser)
    (encoder : Env) (fuel : nat) (n : Z) (w : World) :
  let o := exportOptions s in
  let anims := resolvedAnimations o in
  In anims (map presetAnimations ANIMATION_PRESETS) /\
  ((forall p, In p ANIMATION_PRESETS -> animationLabel p <> animationPreset s) ->
   anims = [directive Timeline.fade 1 None]) /\
  forallb Directives.animated anims = true /\
  Forall Timeline.wellTimed anims /\
  (resolvedTotal o = FInt n -> (1 <= n)%Z -> (1 <= fuel)%nat ->
   getFFmpeg encoder = inr true -> createDirError encoder "frames" = None ->
   let '(r, w') := exportToVideo (Capture.withCapture browser encoder) fuel o w in
   r = Threw Timeline.timelineUpdateError /\
   writtenFiles (log w') = writtenFiles (log w)).
Proof.
  cbn zeta.
  pose proof (chosen_is_preset s) as Hin.
  pose proof preset_lists_fit as Hfit.
  destruct (proj1 (List.Forall_forall _ _) Hfit _ Hin) as (Hwell & Hex & Hall).
  split; [exact Hin|]. split; [|split; [exact Hall|split; [exact Hwell|]]].
  - intros Hnone. unfold resolvedAnimations, exportOptions, chosenAnimations.
    cbn [Exporter.animations].
    destruct (List.find _ ANIMATION_PRESETS) as [p|] eqn:Hfind; [|reflexivity].
    apply find_some in Hfind. destruct Hfind as [Hp Heq].
    apply String.eqb_eq in Heq. exfalso. exact (Hnone p Hp Heq).
  - intros Htotal Hn Hfuel Hget Hdir.
    pose proof (animated_export_rejected browser encoder fuel (exportOptions s) n w
                  Htotal Hn Hfuel Hget Hdir Hwell Hex) as H.
    destruct (exportToVideo _ fuel (exportOptions s) w) as [r w'].
    destruct H as (Hr & _ & Hw). split; assumption.
Qed.

(** X27: the same holds for [handleExport] of [VideoExportControls],
    which passes its settings without directives: the directives are the
    default fade, and an export of at least one frame whose encoder was
    acquired and whose frame directory was created writes no frame and
    throws the error of [timeline.update()]. *)
Theorem handleExport_rejected (duration fps : float) (width height : Z)
    (browser : Capture.Browser) (encoder : Env) (fuel : nat) (n : Z) (w : World) :
  let o := handleExportOptions duration fps width height in
  resolvedAnimations o = [directive Timeline.fade 1 None] /\
  (resolvedTotal o = FInt n -> (1 <= n)%Z -> (1 <= fuel)%nat ->
   getFFmpeg encoder = inr true -> createDirError encoder "frames" = None ->
   let '(r, w') := exportToVideo (Capture.withCapture browser encoder) fuel o w in
   r = Threw Timeline.timelineUpdateError /\
   writtenFiles (log w') = writtenFiles (log w)).
Proof.
  cbn zeta. split; [reflexivity|].
  intros Htotal Hn Hfuel Hget Hdir.
  pose proof (animated_export_rejected browser encoder fuel
                (handleExportOptions duration fps width height) n w
                Htotal Hn Hfuel Hget Hdir) as H.
  destruct (exportToVideo _ fuel (handleExportOptions duration fps width height) w)
    as [r w'].
  destruct H as (Hr & _ & Hw).
  - repeat constructor; vm_compute; discriminate.
  - reflexivity.
  - split; assumption.
Qed.

End ExportControlsFacts.

(* ===================================================================== *)
(** ** Chart suggestions *)
(* ===================================================================== *)

Module ChartsFacts.

Import Charts.
Local Open Scope string_scope.
Local Open Scope nat_scope.

Lemma ltb_true (a b : nat) : (a <? b) = true -> a < b.
Proof. intros H. apply Nat.ltb_lt in H. exact H. Qed.

Lemma ltb_false (a b : nat) : (a <? b) = false -> b <= a.
Proof. intros H. apply Nat.ltb_ge in H. exact H. Qed.

Lemma leb_true (a b : nat) : (a <=? b) = true -> a <= b.
Proof. intros H. apply Nat.leb_le in H. exact H. Qed.

Lemma leb_false (a b : nat) : (a <=? b) = false -> b < a.
Proof. intros H. apply Nat.leb_gt in H. exact H. Qed.

Lemma arrayIncludes_In (l : list string) (x : string) :
  arrayIncludes l x = true <-> In x l.
Proof.
  unfold arrayIncludes. rewrite existsb_exists. split.
  - intros (y & Hy & He). apply String.eqb_eq in He. subst y. exact Hy.
  - intros H. exists x. split; [exact H|apply String.eqb_refl].
Qed.

Lemma suggestVisualization_line (text : string) (entities : list Entity)
    (relationships : list string) :
  In "temporal" relationships ->
  suggestVisualization text entities relationships = "line".
Proof.
  intros H. apply arrayIncludes_In in H.
  unfold suggestVisualization. rewrite H. reflexivity.
Qed.

(** X23: what [suggestVisualization] answers, read backwards: a line
    chart exactly for a temporal relationship; a pie chart only for at
    most five entities; a bar chart only for at least five; a treemap
    only for a hierarchical relationship or more than ten entities; and
    nothing else. *)
Theorem suggestVisualization_answers (text : string) (entities : list Entity)
    (relationships : list string) :
  let r := suggestVisualization text entities relationships in
  In r ["line"; "treemap"; "bar"; "pie"]
  /\ (r = "line" <-> In "temporal" relationships)
  /\ (r = "pie" -> length entities <= 5)
  /\ (r = "bar" -> 5 <= length entities)
  /\ (r = "treemap" -> In "hierarchical" relationships \/ 10 < length entities).
Proof.
  cbv zeta. unfold suggestVisualization.
  rewrite <- (arrayIncludes_In relationships "temporal").
  rewrite <- (arrayIncludes_In relationships "hierarchical").
  destruct (arrayIncludes relationships "temporal");
    [cbn [In]; split; [tauto|split; [tauto|]];
     split; [discriminate|split; discriminate]|].
  destruct (arrayIncludes relationships "hierarchical");
    [cbn [In]; split; [tauto|split; [split; discriminate|]];
     split; [discriminate|split; [discriminate|tauto]]|].
  assert (Hcase : forall r : string,
             In r ["line"; "treemap"; "bar"; "pie"] ->
             r <> "line" ->
             (r = "pie" -> length entities <= 5) ->
             (r = "bar" -> 5 <= length entities) ->
             (r = "treemap" -> 10 < length entities) ->
             In r ["line"; "treemap"; "bar"; "pie"]
             /\ (r = "line" <-> false = true)
             /\ (r = "pie" -> length entities <= 5)
             /\ (r = "bar" -> 5 <= length entities)
             /\ (r = "treemap" -> false = true \/ 10 < length entities)).
  { intros r Hin Hl Hp Hb Ht. split; [exact Hin|]. split; [split; [tauto|discriminate]|].
    split; [exact Hp|]. split; [exact Hb|]. intros E. right. exact (Ht E). }
  destruct (arrayIncludes relationships "comparison").
  - destruct (4 <? length entities) eqn:H4.
    + apply ltb_true in H4.
      apply Hcase; [cbn; tauto|discriminate|discriminate|lia|discriminate].
    + apply ltb_false in H4.
      apply Hcase; [cbn; tauto|discriminate|lia|discriminate|discriminate].
  - destruct (length entities <=? 5) eqn:H5.
    + apply leb_true in H5.
      apply Hcase; [cbn; tauto|discriminate|lia|discriminate|discriminate].
    + apply leb_false in H5.
      destruct (length entities <=? 10) eqn:H10.
      * apply leb_true in H10.
        apply Hcase; [cbn; tauto|discriminate|discriminate|lia|discriminate].
      * apply leb_false in H10.
        apply Hcase; [cbn; tauto|discriminate|discriminate|discriminate|lia].
Qed.

(** X24: on what [findRelationships] returns, a temporal match decides
    alone: the suggestion is a line chart whatever else was matched and
    however many entities there are. *)
Theorem temporal_match_wins (text : string) (entities : list Entity)
    (comparisons temporal hierarchical : nat) :
  0 < temporal ->
  suggestVisualization text entities
    (findRelationships comparisons temporal hierarchical) = "line".
Proof.
  intros Ht.
  pose proof (suggestVisualization_line text entities
                (findRelationships comparisons temporal hierarchical)) as H.
  apply H. unfold findRelationships.
  apply Nat.ltb_lt in Ht. rewrite Ht.
  destruct (0 <? comparisons); destruct (0 <? hierarchical); cbn; tauto.
Qed.

Lemma temporal_match_wins_witness :
  suggestVisualization "sales yearly versus costs within regions" []
    (findRelationships 1 1 1) = "line".
Proof. apply (temporal_match_wins _ _ 1 1 1). lia. Defined.

(** X25: the three tests of [suggestVisualizations] always push a chart,
    so the final test for an empty array never adds one; the charts are
    distinct, and the first one, which the application selects, is the
    pie chart for at most three entries and the bar chart otherwise. *)
Theorem suggestVisualizations_first_chart (toLowerCase : string -> string)
    (input : string) (data : list Entity) :
  let charts := fst (suggestVisualizations toLowerCase input data) in
  charts = pushedCharts toLowerCase input data
  /\ List.NoDup charts
  /\ hd_error charts = Some (if length data <=? 3 then "pie" else "bar").
Proof.
  cbv zeta. unfold suggestVisualizations, pushedCharts. cbn [fst].
  destruct (length data <=? 3) eqn:H3.
  - apply leb_true in H3.
    destruct (hasComparison (toLowerCase input) || (3 <? length data));
      destruct (hasOverlap (toLowerCase input) || (5 <? length data));
      cbn; (split; [reflexivity|split; [|reflexivity]]);
      repeat (apply List.NoDup_cons; [cbn [In]; intuition discriminate|]); apply List.NoDup_nil.
  - apply leb_false in H3.
    assert (H3' : (3 <? length data) = true) by (apply Nat.ltb_lt; lia).
    rewrite H3', orb_true_r.
    destruct (hasOverlap (toLowerCase input) || (5 <? length data));
      cbn; (split; [reflexivity|split; [|reflexivity]]);
      repeat (apply List.NoDup_cons; [cbn [In]; intuition discriminate|]); apply List.NoDup_nil.
Qed.

(** X26: the theme [Modern] is what is left when no keyword was found:
    an input whose lower-case form contains the word modern is never
    given that theme (it gets Forest, Ocean or Cyberpunk), and neither is
    an input with a comparison word. *)
Theorem suggestedTheme_modern_is_the_rest (toLowerCase : string -> string)
    (input : string) (data : list Entity) :
  snd (suggestVisualizations toLowerCase input data) = "Modern" ->
  includes (toLowerCase input) "modern" = false
  /\ hasComparison (toLowerCase input) = false.
Proof.
  unfold suggestVisualizations, suggestedTheme. cbn [snd].
  destruct (includes (toLowerCase input) "nature" || includes (toLowerCase input) "environment");
    [discriminate|].
  destruct (includes (toLowerCase input) "water" || includes (toLowerCase input) "sea");
    [discriminate|].
  destruct (includes (toLowerCase input) "modern") eqn:Hm; [cbn [orb]; discriminate|].
  destruct (includes (toLowerCase input) "tech"); [cbn [orb]; discriminate|].
  cbn [orb].
  destruct (includes (toLowerCase input) "soft" || includes (toLowerCase input) "gentle");
    [discriminate|].
  destruct (hasComparison (toLowerCase input)); [discriminate|].
  intros _. split; reflexivity.
Qed.

Lemma suggestedTheme_modern_is_the_rest_witness :
  includes "sales by region" "modern" = false
  /\ hasComparison "sales by region" = false.
Proof.
  apply (suggestedTheme_modern_is_the_rest (fun s => s) "sales by region" []).
  vm_compute. reflexivity.
Defined.

End ChartsFacts.

